(** * A shallow embedding of the video challenge template engine

    The development follows the TypeScript sources:
    - [types/template.ts]      the interfaces (as typing predicates on values),
    - [types/errors.ts]        the exception classes,
    - [utils/validation.ts]    [ValidationUtils],
    - [core/TemplateEngine.ts] the engine, the merger and the renderer,
    - [templates/ChallengeTemplate.ts] the fixture [OriginalChallengeTemplate].

    JavaScript data is dynamically typed, and the validators exist precisely
    to inspect values that may not have the declared shape.  Values are
    therefore embedded as trees of a single type [value]; the TypeScript
    interfaces become boolean typing predicates over it.

    Conventions of the embedding:
    - a [string] is the UTF-8 text of the JavaScript string;
    - a [number] is an IEEE 754 double: the not-a-number double is [VNaN],
      every other double is a [VNum] that holds its exact value, and the
      arithmetic rounds to the nearest double as the processor does;
    - an object is the list of its own enumerable properties in creation
      order; [get] returns the first binding of a key, so later duplicates in
      a list are shadowed.  The members inherited from [Object.prototype] are
      not represented: the code reads fixed property names, none of which
      names such a member;
    - a thrown exception is the [Throw] case of [result]. *)

From stdpp Require Import base strings list pretty gmap.
From Stdlib Require Import ZArith Ascii.

Local Open Scope Z_scope.
Set Warnings "-register-all".

(** ** Numbers

    The doubles other than the not-a-number one, each by its exact value: an
    integer, a fraction [m / 2^e] in lowest terms, the negative zero, an
    infinity.  The doubles are the numbers that [round] returns; [is_double]
    recognises them. *)

Inductive number : Type :=
| Int (n : Z)
| Frac (m : Z) (e : positive)
| NegZero
| Inf (negative : bool).

Global Instance number_eq_dec : EqDecision number.
Proof. solve_decision. Defined.

(** The pair [(M, E)] stands for the real number [M * 2^E]. *)
Definition dyadic : Type := Z * Z.

Definition dyadic_add (a b : dyadic) : dyadic :=
  let E := Z.min a.2 b.2 in
  (a.1 * 2 ^ (a.2 - E) + b.1 * 2 ^ (b.2 - E), E).



Definition dyadic_compare (a b : dyadic) : comparison :=
  let E := Z.min a.2 b.2 in
  (a.1 * 2 ^ (a.2 - E)) ?= (b.1 * 2 ^ (b.2 - E)).

(** The value of a finite number. *)
Definition exact (x : number) : dyadic :=
  match x with
  | Int n => (n, 0)
  | Frac m e => (m, Z.neg e)
  | NegZero | Inf _ => (0, 0)
  end.

Fixpoint trailing_zeros (p : positive) : Z :=
  match p with
  | xO p' => 1 + trailing_zeros p'
  | _ => 0
  end.

(** The number whose value is [M * 2^E]. *)
Definition of_dyadic (a : dyadic) : number :=
  let '(M, E) := a in
  if 0 <=? E then Int (M * 2 ^ E)
  else
    let zeros := match M with Z0 => 0 | Zpos p | Zneg p => trailing_zeros p end in
    let t := Z.min zeros (- E) in
    if t =? - E then Int (M / 2 ^ t) else Frac (M / 2 ^ t) (Z.to_pos (- E - t)).

(** [M / 2^shift] rounded to the nearest integer, a tie to the even one. *)
Definition round_half_even (M shift : Z) : Z :=
  let q := M / 2 ^ shift in
  let r := M mod 2 ^ shift in
  let half := 2 ^ (shift - 1) in
  if r <? half then q
  else if half <? r then q + 1
  else if Z.even q then q else q + 1.

(** The double nearest to [M * 2^E], a tie going to the even significand:
    53 significant bits, none below [2^-1074], and an infinity from [2^1024]
    on. *)
Definition round (a : dyadic) : number :=
  let '(M, E) := a in
  if M =? 0 then Int 0
  else
    let last := Z.max (E + Z.log2 (Z.abs M) - 52) (-1074) in
    let '(Mr, Er) :=
      if last <=? E then (M, E) else (round_half_even M (last - E), last) in
    if Mr =? 0 then (if M <? 0 then NegZero else Int 0)
    else if 1024 <=? Er + Z.log2 (Z.abs Mr) then Inf (M <? 0)
    else of_dyadic (Mr, Er).

Definition is_double (x : number) : bool :=
  match x with
  | Int _ | Frac _ _ => bool_decide (round (exact x) = x)
  | NegZero | Inf _ => true
  end.

Definition is_zero (x : number) : bool :=
  match x with
  | Int n | Frac n _ => n =? 0
  | NegZero => true
  | Inf _ => false
  end.

(** [x + y]; [None] is the not-a-number double. *)
Definition number_add (x y : number) : option number :=
  match x, y with
  | Inf a, Inf b => if Bool.eqb a b then Some (Inf a) else None
  | Inf a, _ | _, Inf a => Some (Inf a)
  | NegZero, _ => Some y
  | _, NegZero => Some x
  | _, _ => Some (round (dyadic_add (exact x) (exact y)))
  end.

(** [-x] *)
Definition number_opp (x : number) : number :=
  match x with
  | Int 0 => NegZero
  | Int n => Int (- n)
  | Frac m e => Frac (- m) e
  | NegZero => Int 0
  | Inf negative => Inf (negb negative)
  end.

(** [Math.abs(x)] *)
Definition number_abs (x : number) : number :=
  match x with
  | Int n => Int (Z.abs n)
  | Frac m e => Frac (Z.abs m) e
  | NegZero => Int 0
  | Inf _ => Inf false
  end.

(** The order of the values; the two zeros are equal. *)
Definition number_compare (x y : number) : comparison :=
  match x, y with
  | Inf a, Inf b => if Bool.eqb a b then Eq else if a then Lt else Gt
  | Inf a, _ => if a then Lt else Gt
  | _, Inf b => if b then Gt else Lt
  | _, _ => dyadic_compare (exact x) (exact y)
  end.

(** *** [Number::toString]

    The digits are the shortest decimal that [round] takes back to the
    double and, among these, the nearest to it. *)

Definition decimal_length (n : Z) : Z := Z.of_nat (String.length (pretty n)).

(** The [n] with [10^(n-1) <= num / den < 10^n], for positive [num], [den]. *)
Definition decimal_exponent (num den : Z) : Z :=
  if den <=? num then decimal_length (num / den)
  else 1 - decimal_length ((den + num - 1) / num - 1).

Fixpoint strip_zeros_rev (s : string) : string :=
  match s with
  | String "0" s' => strip_zeros_rev s'
  | _ => s
  end.

Definition strip_zeros (s : string) : string :=
  String.rev (strip_zeros_rev (String.rev s)).

Fixpoint zeros (n : nat) : string :=
  match n with
  | O => EmptyString
  | S n' => String "0" (zeros n')
  end.

Section shortest.
(** The double is [X * un / ud]; the reals that round to it are those between
    [Lo * un / ud] and [Hi * un / ud], the ends included when [inclusive];
    [10^(n0-1) <= X * un / ud < 10^n0]. *)
Variables (Lo X Hi un ud : Z) (inclusive : bool) (n0 : Z).

(** [s * 10^t] and the bounds over the common denominator. *)
Definition scaled (s t : Z) : Z := s * 10 ^ Z.max t 0 * ud.
Definition scale (t : Z) : Z := 10 ^ Z.max (- t) 0 * un.

Definition rounds_back (s t : Z) : bool :=
  if inclusive
  then (Lo * scale t <=? scaled s t) && (scaled s t <=? Hi * scale t)
  else (Lo * scale t <? scaled s t) && (scaled s t <? Hi * scale t).

Definition closer (s1 s2 t : Z) : Z :=
  let d1 := Z.abs (scaled s1 t - X * scale t) in
  let d2 := Z.abs (scaled s2 t - X * scale t) in
  if d1 <? d2 then s1 else if d2 <? d1 then s2 else if Z.even s1 then s1 else s2.

(** The decimal [s * 10^t] of [k] digits or more, [k] as small as it can be. *)
Fixpoint shortest (fuel : nat) (k : Z) : Z * Z :=
  let t := n0 - k in
  let s1 := (X * scale t) / (10 ^ Z.max t 0 * ud) in
  let s2 := s1 + 1 in
  match fuel with
  | O => (s1, t)
  | S fuel' =>
      match rounds_back s1 t, rounds_back s2 t with
      | true, true => (closer s1 s2 t, t)
      | true, false => (s1, t)
      | false, true => (s2, t)
      | false, false => shortest fuel' (k + 1)
      end
  end.
End shortest.

(** The decimal of a positive double; seventeen digits always suffice. *)
Definition shortest_decimal (a : dyadic) : Z * Z :=
  let '(M, E) := a in
  let last := Z.max (E + Z.log2 M - 52) (-1074) in
  let significand := if last <=? E then M * 2 ^ (E - last) else M / 2 ^ (last - E) in
  let X := 4 * significand in
  let Lo := if (significand =? 2 ^ 52) && (-1074 <? last) then X - 1 else X - 2 in
  let Hi := X + 2 in
  let un := 2 ^ Z.max (last - 2) 0 in
  let ud := 2 ^ Z.max (2 - last) 0 in
  shortest Lo X Hi un ud (Z.even significand) (decimal_exponent (X * un) ud) 17 1.

Definition positive_to_string (a : dyadic) : string :=
  let '(s, t) := shortest_decimal a in
  let n := t + decimal_length s in
  let digits := strip_zeros (pretty s) in
  let k := Z.of_nat (String.length digits) in
  if (k <=? n) && (n <=? 21) then digits +:+ zeros (Z.to_nat (n - k))
  else if (0 <? n) && (n <=? 21) then
    String.substring 0 (Z.to_nat n) digits +:+ "."
    +:+ String.substring (Z.to_nat n) (Z.to_nat (k - n)) digits
  else if (-6 <? n) && (n <=? 0) then "0." +:+ zeros (Z.to_nat (- n)) +:+ digits
  else
    let exponent := (if n - 1 <? 0 then "-" else "+") +:+ pretty (Z.abs (n - 1)) in
    if k =? 1 then digits +:+ "e" +:+ exponent
    else String.substring 0 1 digits +:+ "."
         +:+ String.substring 1 (Z.to_nat (k - 1)) digits +:+ "e" +:+ exponent.

Definition number_to_string (x : number) : string :=
  match x with
  | NegZero => "0"
  | Inf negative => if negative then "-Infinity" else "Infinity"
  | _ =>
      let '(M, E) := exact x in
      if M =? 0 then "0"
      else if M <? 0 then "-" +:+ positive_to_string (- M, E)
      else positive_to_string (M, E)
  end.

(** ** JavaScript values *)

Inductive value : Type :=
| VUndef
| VNull
| VBool (b : bool)
| VNum (x : number)
| VNaN
| VStr (s : string)
| VArr (elts : list value)
| VObj (props : list (string * value)).

(** The induction principle that goes through arrays and objects. *)
Section value_induction.
Variable P : value → Prop.
Hypothesis Pundef : P VUndef.
Hypothesis Pnull : P VNull.
Hypothesis Pbool : ∀ b, P (VBool b).
Hypothesis Pnum : ∀ n, P (VNum n).
Hypothesis Pnan : P VNaN.
Hypothesis Pstr : ∀ s, P (VStr s).
Hypothesis Parr : ∀ l, Forall P l → P (VArr l).
Hypothesis Pobj : ∀ ps, Forall (λ kv, P kv.2) ps → P (VObj ps).

Fixpoint value_ind_nested (v : value) : P v :=
  match v with
  | VUndef => Pundef
  | VNull => Pnull
  | VBool b => Pbool b
  | VNum n => Pnum n
  | VNaN => Pnan
  | VStr s => Pstr s
  | VArr l =>
      Parr l ((fix go (l : list value) : Forall P l :=
                 match l with
                 | [] => Forall_nil_2 P
                 | x :: l' => Forall_cons_2 P x l' (value_ind_nested x) (go l')
                 end) l)
  | VObj ps =>
      Pobj ps ((fix go (ps : list (string * value)) : Forall (λ kv, P kv.2) ps :=
                  match ps with
                  | [] => Forall_nil_2 _
                  | kv :: ps' =>
                      Forall_cons_2 (λ kv, P kv.2) kv ps'
                        (value_ind_nested kv.2) (go ps')
                  end) ps)
  end.
End value_induction.

(** ** Exceptions ([types/errors.ts] and the built-in ones the code meets) *)

Inductive error : Type :=
| InvalidInputError (parameter expectedType receivedType : string)
| TemplateNotFoundError (templateId : string)
| TemplateValidationError (templateId : value) (issues : list string)
| CustomizationValidationError (templateId : value) (issues : list string)
| InstanceNotFoundError (instanceId : string)
| DuplicateTemplateError (templateId : value)
| ScriptGenerationError (instanceId reason : string)
| TypeError (message : string)
| SyntaxError (message : string)
| Error (message : string).

(** The outcome of running a piece of code: a value, a thrown exception, or
    [Stuck] when the run leaves the fragment of JavaScript that the embedding
    represents (a named property written on an array, a numeric coercion of
    text that is not an integer literal, an ordering of two texts). *)
Inductive result (A : Type) : Type :=
| Ok (a : A)
| Throw (e : error)
| Stuck.
Arguments Ok {A} a.
Arguments Throw {A} e.
Arguments Stuck {A}.

(** Sequencing stops at the first outcome that is not [Ok]. *)
Global Instance result_ret : MRet result := λ A a, Ok a.
Global Instance result_bind : MBind result := λ A B k m,
  match m with
  | Ok a => k a
  | Throw e => Throw e
  | Stuck => Stuck
  end.

(** [try { m } catch (error) { h error }] *)
Definition try_catch {A} (m : result A) (h : error → result A) : result A :=
  match m with
  | Throw e => h e
  | _ => m
  end.

Fixpoint mapM {A B} (f : A → result B) (l : list A) : result (list B) :=
  match l with
  | [] => Ok []
  | x :: l' => y ← f x; ys ← mapM f l'; Ok (y :: ys)
  end.

(** ** Strings *)

Definition chr (n : nat) : ascii := ascii_of_nat n.
Definition str1 (a : nat) : string := String (chr a) EmptyString.
Definition str2 (a b : nat) : string := String (chr a) (str1 b).
Definition str3 (a b c : nat) : string := String (chr a) (str2 b c).

(** The white space and line terminator code points that [String.prototype.trim]
    strips, in UTF-8: TAB, LF, VT, FF, CR, SP; U+00A0; U+1680; U+2000..U+200A,
    U+2028, U+2029, U+202F; U+205F; U+3000; U+FEFF. *)
Definition ws1 (a : ascii) : bool :=
  let n := nat_of_ascii a in
  ((9 <=? n)%nat && (n <=? 13)%nat) || (n =? 32)%nat.
Definition ws2 (a b : ascii) : bool :=
  (nat_of_ascii a =? 194)%nat && (nat_of_ascii b =? 160)%nat.
Definition ws3 (a b c : ascii) : bool :=
  let x := nat_of_ascii a in
  let y := nat_of_ascii b in
  let z := nat_of_ascii c in
  ((x =? 225)%nat && (y =? 154)%nat && (z =? 128)%nat)
  || ((x =? 226)%nat && (y =? 128)%nat
      && (((128 <=? z)%nat && (z <=? 138)%nat)
          || (z =? 168)%nat || (z =? 169)%nat || (z =? 175)%nat))
  || ((x =? 226)%nat && (y =? 129)%nat && (z =? 159)%nat)
  || ((x =? 227)%nat && (y =? 128)%nat && (z =? 128)%nat)
  || ((x =? 239)%nat && (y =? 187)%nat && (z =? 191)%nat).

Fixpoint trimStart (s : string) : string :=
  match s with
  | String a s1 =>
      if ws1 a then trimStart s1
      else match s1 with
           | String b s2 =>
               if ws2 a b then trimStart s2
               else match s2 with
                    | String c s3 => if ws3 a b c then trimStart s3 else s
                    | EmptyString => s
                    end
           | EmptyString => s
           end
  | EmptyString => EmptyString
  end.

(** The same scan from the right end, on the reversed text. *)
Fixpoint trimStart_rev (s : string) : string :=
  match s with
  | String c s1 =>
      if ws1 c then trimStart_rev s1
      else match s1 with
           | String b s2 =>
               if ws2 b c then trimStart_rev s2
               else match s2 with
                    | String a s3 => if ws3 a b c then trimStart_rev s3 else s
                    | EmptyString => s
                    end
           | EmptyString => s
           end
  | EmptyString => EmptyString
  end.

Definition trimEnd (s : string) : string :=
  String.rev (trimStart_rev (String.rev s)).

Definition trim (s : string) : string := trimEnd (trimStart s).

(** [haystack.includes(needle)] on strings. *)
Fixpoint includes_str (needle haystack : string) : bool :=
  String.prefix needle haystack
  || match haystack with
     | String _ rest => includes_str needle rest
     | EmptyString => false
     end.

(** [s.substr(start, len)] for non-negative arguments. *)
Definition substr (start len : nat) (s : string) : string :=
  String.substring start (Nat.min len (String.length s - start)) s.

(** The text between double quotes. *)
Definition quoted (s : string) : string := str1 34 +:+ s +:+ str1 34.

Definition join (sep : string) (l : list string) : string :=
  match l with
  | [] => EmptyString
  | x :: l' => fold_left (λ acc y, acc +:+ sep +:+ y) l' x
  end.

Definition concat_str (l : list string) : string := fold_right String.append EmptyString l.

(** ** Own properties, reading and writing *)

Definition key_of_index (i : nat) : string := pretty i.

Definition indexed {A V} (f : A → V) (l : list A) : list (string * V) :=
  imap (λ i x, (key_of_index i, f x)) l.

(** The own enumerable properties, in enumeration order.  The characters of a
    string are indexed per byte, which is the JavaScript indexing for ASCII
    text. *)
Definition own_props (v : value) : list (string * value) :=
  match v with
  | VObj ps => ps
  | VArr l => indexed id l
  | VStr s => indexed (λ c, VStr (String c EmptyString)) (String.list_ascii_of_string s)
  | _ => []
  end.

(** [Object.keys(v)] *)
Definition own_keys (v : value) : list string := (own_props v).*1.

Fixpoint assoc {V} (k : string) (ps : list (string * V)) : option V :=
  match ps with
  | [] => None
  | (k', v) :: ps' => if String.eqb k k' then Some v else assoc k ps'
  end.

Definition is_nullish (v : value) : bool :=
  match v with
  | VUndef | VNull => true
  | _ => false
  end.

Definition nullish_name (v : value) : string :=
  match v with
  | VNull => "null"
  | _ => "undefined"
  end.

(** [v[k]] without the null check: own properties, then [length]. *)
Definition get_own (v : value) (k : string) : value :=
  match assoc k (own_props v) with
  | Some x => x
  | None =>
      if String.eqb k "length" then
        match v with
        | VArr l => VNum (Int (Z.of_nat (length l)))
        | VStr s => VNum (Int (Z.of_nat (String.length s)))
        | _ => VUndef
        end
      else VUndef
  end.

(** [v.k]: reading a property of [undefined] or [null] throws.  The message
    is the one V8 prints. *)
Definition get (v : value) (k : string) : result value :=
  if is_nullish v then
    Throw (TypeError ("Cannot read properties of " +:+ nullish_name v
                      +:+ " (reading '" +:+ k +:+ "')"))
  else Ok (get_own v k).

(** [v?.k] *)
Definition get_opt (v : value) (k : string) : value :=
  if is_nullish v then VUndef else get_own v k.

Fixpoint update {V} (k : string) (x : V) (ps : list (string * V))
  : list (string * V) :=
  match ps with
  | [] => [(k, x)]
  | (k', v) :: ps' =>
      if String.eqb k k' then (k, x) :: ps' else (k', v) :: update k x ps'
  end.

(** [o.k = x] in strict mode, as class bodies are.  Writing to [undefined],
    [null] or a primitive throws; an object gets the property replaced in
    place or appended.  A named property on an array is not representable. *)
Definition set_prop (o : value) (k : string) (x : value) : result value :=
  match o with
  | VObj ps => Ok (VObj (update k x ps))
  | VArr _ => Stuck
  | VUndef | VNull =>
      Throw (TypeError ("Cannot set properties of " +:+ nullish_name o
                        +:+ " (setting '" +:+ k +:+ "')"))
  | _ => Throw (TypeError ("Cannot create property '" +:+ k +:+ "'"))
  end.

(** ** Operators *)

Definition typeof (v : value) : string :=
  match v with
  | VUndef => "undefined"
  | VBool _ => "boolean"
  | VNum _ | VNaN => "number"
  | VStr _ => "string"
  | VNull | VArr _ | VObj _ => "object"
  end.

Definition isArray (v : value) : bool :=
  match v with
  | VArr _ => true
  | _ => false
  end.

(** The elements of an array value. *)
Definition elements (v : value) : list value :=
  match v with
  | VArr l => l
  | _ => []
  end.

(** [!!v] *)
Definition truthy (v : value) : bool :=
  match v with
  | VUndef | VNull | VNaN => false
  | VBool b => b
  | VNum x => negb (is_zero x)
  | VStr s => negb (String.eqb s EmptyString)
  | VArr _ | VObj _ => true
  end.

(** [v === 'lit'] *)
Definition is_str (lit : string) (v : value) : bool :=
  match v with
  | VStr s => String.eqb s lit
  | _ => false
  end.

(** [lits.includes(v)] for an array of string literals *)
Definition includes (lits : list string) (v : value) : bool :=
  existsb (λ lit, is_str lit v) lits.

(** [a || b] *)
Definition js_or (a b : value) : value := if truthy a then a else b.

(** [`${v}`] *)
Fixpoint to_string (v : value) : string :=
  match v with
  | VUndef => "undefined"
  | VNull => "null"
  | VBool true => "true"
  | VBool false => "false"
  | VNum x => number_to_string x
  | VNaN => "NaN"
  | VStr s => s
  | VArr l =>
      join "," (map (λ x, if is_nullish x then EmptyString else to_string x) l)
  | VObj _ => "[object Object]"
  end.

(** *** Numeric coercion and arithmetic *)

Definition digit_of (a : ascii) : option Z :=
  let n := nat_of_ascii a in
  if (48 <=? n)%nat && (n <=? 57)%nat then Some (Z.of_nat (n - 48)) else None.

Fixpoint parse_digits (acc : Z) (s : string) : option Z :=
  match s with
  | EmptyString => Some acc
  | String a s' =>
      match digit_of a with
      | Some d => parse_digits (10 * acc + d) s'
      | None => None
      end
  end.

(** The integer literals among the numeric texts: blank text is [0], an
    optional sign followed by decimal digits is the double nearest to that
    integer. *)
Definition parse_int (s : string) : option number :=
  match trim s with
  | EmptyString => Some (Int 0)
  | String a rest =>
      if Ascii.eqb a "-"%char then
        match rest with
        | EmptyString => None
        | _ => (λ n, number_opp (round (n, 0))) <$> parse_digits 0 rest
        end
      else if Ascii.eqb a "+"%char then
        match rest with
        | EmptyString => None
        | _ => (λ n, round (n, 0)) <$> parse_digits 0 rest
        end
      else (λ n, round (n, 0)) <$> parse_digits 0 (String a rest)
  end.

(** Arrays and objects become text before they are coerced or compared. *)
Definition is_textual (v : value) : bool :=
  match v with
  | VStr _ | VArr _ | VObj _ => true
  | _ => false
  end.

(** [Number(v)]; [None] is the not-a-number double. *)
Definition to_number (v : value) : result (option number) :=
  match v with
  | VUndef | VNaN => Ok None
  | VNull => Ok (Some (Int 0))
  | VBool b => Ok (Some (Int (if b then 1 else 0)))
  | VNum x => Ok (Some x)
  | _ =>
      match parse_int (to_string v) with
      | Some x => Ok (Some x)
      | None => Stuck
      end
  end.

Definition of_num (x : option number) : value :=
  match x with
  | Some x => VNum x
  | None => VNaN
  end.

Definition number_ltb (x y : number) : bool :=
  match number_compare x y with Lt => true | _ => false end.
Definition number_leb (x y : number) : bool :=
  match number_compare x y with Gt => false | _ => true end.
Definition number_gtb (x y : number) : bool :=
  match number_compare x y with Gt => true | _ => false end.

Definition compare_with (op : number → number → bool) (a b : value) : result bool :=
  if is_textual a && is_textual b then Stuck
  else
    x ← to_number a;
    y ← to_number b;
    Ok match x, y with
       | Some m, Some n => op m n
       | _, _ => false
       end.

(** [a < b], [a <= b], [a > b]: false as soon as one side is not a number. *)
Definition js_lt : value → value → result bool := compare_with number_ltb.
Definition js_le : value → value → result bool := compare_with number_leb.
Definition js_gt : value → value → result bool := compare_with number_gtb.

(** [a + b]: concatenation as soon as one side is textual. *)
Definition js_add (a b : value) : value :=
  if is_textual a || is_textual b then VStr (to_string a +:+ to_string b)
  else
    match to_number a, to_number b with
    | Ok (Some m), Ok (Some n) => of_num (number_add m n)
    | _, _ => VNaN
    end.

(** [a - b] *)
Definition js_sub (a b : value) : result value :=
  x ← to_number a;
  y ← to_number b;
  Ok match x, y with
     | Some m, Some n => of_num (number_add m (number_opp n))
     | _, _ => VNaN
     end.

(** [Math.abs(a)] *)
Definition js_abs (a : value) : result value :=
  x ← to_number a;
  Ok match x with
     | Some m => VNum (number_abs m)
     | None => VNaN
     end.

(** ** The messages of the exception classes ([types/errors.ts]) *)

Definition bullets (issues : list string) : string :=
  join (str1 10) (map (λ issue, "  • " +:+ issue) issues).

Definition message (e : error) : string :=
  match e with
  | TemplateNotFoundError templateId =>
      "Template '" +:+ templateId
      +:+ "' not found. Available templates can be listed using getAvailableTemplates()."
  | TemplateValidationError templateId issues =>
      "Template '" +:+ to_string templateId +:+ "' validation failed:"
      +:+ str1 10 +:+ bullets issues
  | CustomizationValidationError templateId issues =>
      "Customization validation failed for template '" +:+ to_string templateId
      +:+ "':" +:+ str1 10 +:+ bullets issues
  | InstanceNotFoundError instanceId =>
      "Template instance '" +:+ instanceId
      +:+ "' not found. Instance may have been deleted or never created."
  | DuplicateTemplateError templateId =>
      "Template '" +:+ to_string templateId
      +:+ "' already exists. Use a different ID or unregister the existing template first."
  | InvalidInputError parameter expectedType receivedType =>
      "Invalid input for parameter '" +:+ parameter +:+ "': expected "
      +:+ expectedType +:+ ", received " +:+ receivedType +:+ "."
  | ScriptGenerationError instanceId reason =>
      "Failed to generate script for instance '" +:+ instanceId +:+ "': " +:+ reason
  | TypeError m | SyntaxError m | Error m => m
  end.

(** The machine-readable [code] of the errors of the template system. *)
Definition code (e : error) : option string :=
  match e with
  | TemplateNotFoundError _ => Some "TEMPLATE_NOT_FOUND"
  | TemplateValidationError _ _ => Some "TEMPLATE_VALIDATION_FAILED"
  | CustomizationValidationError _ _ => Some "CUSTOMIZATION_VALIDATION_FAILED"
  | InstanceNotFoundError _ => Some "INSTANCE_NOT_FOUND"
  | DuplicateTemplateError _ => Some "DUPLICATE_TEMPLATE"
  | InvalidInputError _ _ _ => Some "INVALID_INPUT"
  | ScriptGenerationError _ _ => Some "SCRIPT_GENERATION_FAILED"
  | TypeError _ | SyntaxError _ | Error _ => None
  end.

(** A text that is not blank: what [validateInput] accepts for a string. *)
Definition nonblank_text (v : value) : bool :=
  match v with
  | VStr s => negb (String.eqb (trim s) EmptyString)
  | _ => false
  end.

(** ** [ValidationUtils] ([utils/validation.ts]) *)

Module ValidationUtils.

(** [if (c) issues.push(msg)] *)
Definition push_if (c : bool) (msg : string) (issues : list string) : list string :=
  if c then issues ++ [msg] else issues.

(** [v !== undefined] *)
Definition defined (v : value) : bool :=
  match v with
  | VUndef => false
  | _ => true
  end.

(** [typeof v !== 'string'] *)
Definition not_string (v : value) : bool := negb (String.eqb (typeof v) "string").

(** [typeof v !== 'string' || v.trim() === ''] *)
Definition not_string_or_blank (v : value) : bool :=
  match v with
  | VStr s => String.eqb (trim s) EmptyString
  | _ => true
  end.

Section Validation.
(** [new URL(text)] succeeds: the URL parser of the platform. *)
Variable URL_parses : string → bool.

(** [ValidationUtils.isValidUrl] *)
Definition isValidUrl (url : value) : bool := URL_parses (to_string url).

(** [ValidationUtils.validateInput] *)
Definition validateInput (v : value) (parameterName expectedType : string)
  : result unit :=
  let actualType := if isArray v then "array" else typeof v in
  if is_nullish v then
    Throw (InvalidInputError parameterName expectedType "null/undefined")
  else
    (if String.eqb expectedType "string" then
       if not_string v then
         Throw (InvalidInputError parameterName expectedType actualType)
       else if not_string_or_blank v then
         Throw (InvalidInputError parameterName "non-empty string" "empty string")
       else Ok ()
     else Ok ());;
    (if String.eqb expectedType "object"
        && (negb (String.eqb (typeof v) "object") || isArray v) then
       Throw (InvalidInputError parameterName expectedType actualType)
     else Ok ());;
    (if String.eqb expectedType "array" && negb (isArray v) then
       Throw (InvalidInputError parameterName expectedType actualType)
     else Ok ()).

(** [ValidationUtils.validateParticipant] *)
Definition validateParticipant (participant : value) : result (list string) :=
  let issues := [] in
  id ← get participant "id";
  let issues :=
    push_if (negb (truthy id) || not_string id)
      "Participant ID is required and must be a string" issues in
  name ← get participant "name";
  let issues :=
    push_if (negb (truthy name) || not_string name)
      "Participant name is required and must be a string" issues in
  role ← get participant "role";
  let issues :=
    push_if (negb (truthy role) || negb (includes ["gamemaster"; "player"] role))
      ("Participant role must be either " +:+ quoted "gamemaster" +:+ " or " +:+ quoted "player") issues in
  equipment ← get participant "equipment";
  let issues :=
    push_if (truthy equipment && negb (isArray equipment))
      "Participant equipment must be an array of strings" issues in
  Ok issues.

(** [ValidationUtils.validateChallenge] *)
Definition validateChallenge (challenge : value) : result (list string) :=
  let issues := [] in
  objective ← get challenge "objective";
  let issues :=
    push_if (defined objective && not_string_or_blank objective)
      "Objective must be a non-empty string" issues in
  targetObjects ← get challenge "targetObjects";
  let issues :=
    push_if (defined targetObjects && negb (isArray targetObjects))
      "Target objects must be an array of strings" issues in
  rules ← get challenge "rules";
  let issues :=
    push_if (defined rules && negb (isArray rules))
      "Rules must be an array of strings" issues in
  successCondition ← get challenge "successCondition";
  let issues :=
    push_if (defined successCondition && not_string_or_blank successCondition)
      "Success condition must be a non-empty string" issues in
  failureConsequence ← get challenge "failureConsequence";
  let issues :=
    push_if (defined failureConsequence && not_string_or_blank failureConsequence)
      "Failure consequence must be a non-empty string" issues in
  Ok issues.

(** [ValidationUtils.validateEnvironment] *)
Definition validateEnvironment (environment : value) : result (list string) :=
  let issues := [] in
  location ← get environment "location";
  let issues :=
    push_if (defined location && not_string_or_blank location)
      "Location must be a non-empty string" issues in
  props ← get environment "props";
  let issues :=
    push_if (defined props && negb (isArray props))
      "Props must be an array of strings" issues in
  constraints ← get environment "constraints";
  let issues :=
    push_if (defined constraints && negb (isArray constraints))
      "Constraints must be an array of strings" issues in
  Ok issues.

(** [participants.filter(p => p.role === 'gamemaster').length] *)
Definition gamemaster_count (participants : list value) : result nat :=
  flags ← mapM (λ p, role ← get p "role"; Ok (is_str "gamemaster" role)) participants;
  Ok (length (filter (λ b : bool, b = true) flags)).

(** [participants.forEach((participant, index) =>
      validateParticipant(participant).forEach(issue =>
        issues.push(`${label} ${index + 1}: ${issue}`)))] *)
Definition each_participant (label : string) (participants : list value)
  : result (list string) :=
  found ← mapM validateParticipant participants;
  Ok (concat (imap (λ index participantIssues,
                map (λ issue, label +:+ " " +:+ pretty (S index) +:+ ": " +:+ issue)
                  participantIssues) found)).

(** [ValidationUtils.validateTemplate] *)
Definition validateTemplate (template : value) : result unit :=
  let issues := [] in
  (* Required field validation *)
  id ← get template "id";
  let issues :=
    push_if (negb (truthy id) || not_string id)
      "Template ID is required and must be a string" issues in
  name ← get template "name";
  let issues :=
    push_if (negb (truthy name) || not_string name)
      "Template name is required and must be a string" issues in
  description ← get template "description";
  let issues :=
    push_if (negb (truthy description) || not_string description)
      "Template description is required and must be a string" issues in
  (* Metadata validation *)
  metadata ← get template "metadata";
  issues ←
    (if negb (truthy metadata) then
       Ok (issues ++ ["Template metadata is required"])
     else
       originalVideo ← get metadata "originalVideo";
       let issues :=
         push_if (negb (truthy originalVideo) || negb (isValidUrl originalVideo))
           "Original video URL is required and must be a valid URL" issues in
       duration ← get metadata "duration";
       nonpositive ← (if truthy duration then js_le duration (VNum (Int 0)) else Ok true);
       let issues := push_if nonpositive "Duration must be a positive number" issues in
       minParticipants ← get metadata "minParticipants";
       tooSmall ← js_lt minParticipants (VNum (Int 1));
       let issues :=
         push_if tooSmall "Minimum participants must be at least 1" issues in
       maxParticipants ← get metadata "maxParticipants";
       inverted ← js_lt maxParticipants minParticipants;
       let issues :=
         push_if inverted
           "Maximum participants must be greater than or equal to minimum participants"
           issues in
       Ok issues);
  (* Participants validation *)
  participants ← get template "participants";
  issues ←
    (if negb (isArray participants) || (length (elements participants) =? 0)%nat then
       Ok (issues ++ ["Template must have at least one participant"])
     else
       gamemasterCount ← gamemaster_count (elements participants);
       let issues :=
         push_if (gamemasterCount =? 0)%nat
           "Template must have at least one gamemaster" issues in
       let issues :=
         push_if (1 <? gamemasterCount)%nat
           "Template should have only one gamemaster" issues in
       found ← each_participant "Participant" (elements participants);
       Ok (issues ++ found));
  (* Segments validation *)
  segments ← get template "segments";
  issues ←
    (if negb (truthy segments) then
       Ok (issues ++ ["Template segments are required"])
     else
       let requiredSegments := ["intro"; "gameplay"; "conclusion"] in
       let issues :=
         fold_left (λ issues segment,
             push_if (negb (truthy (get_own segments segment)))
               ("Missing required segment: " +:+ segment) issues)
           requiredSegments issues in
       let totalDuration :=
         js_add (js_add (get_opt (get_own segments "intro") "duration")
                        (get_opt (get_own segments "gameplay") "duration"))
                (get_opt (get_own segments "conclusion") "duration") in
       metadata ← get template "metadata";
       duration ← get metadata "duration";
       difference ← js_sub totalDuration duration;
       distance ← js_abs difference;
       mismatch ← js_gt distance (VNum (Int 2));
       Ok (push_if mismatch
             ("Segment durations (" +:+ to_string totalDuration
              +:+ "s) don't match template duration (" +:+ to_string duration
              +:+ "s)") issues));
  if (0 <? length issues)%nat then
    id ← get template "id";
    Throw (TemplateValidationError (js_or id (VStr "unknown")) issues)
  else Ok ().

(** [ValidationUtils.validateCustomizations] *)
Definition validateCustomizations (template customizations : value) : result unit :=
  let issues := [] in
  (* Validate participants customization *)
  participants ← get customizations "participants";
  issues ←
    (if truthy participants then
       if negb (isArray participants) then
         Ok (issues ++ ["Participants must be an array"])
       else
         let participantCount := VNum (Int (Z.of_nat (length (elements participants)))) in
         metadata ← get template "metadata";
         minParticipants ← get metadata "minParticipants";
         tooFew ← js_lt participantCount minParticipants;
         let issues :=
           push_if tooFew
             ("Too few participants: " +:+ to_string participantCount
              +:+ " (minimum: " +:+ to_string minParticipants +:+ ")") issues in
         metadata ← get template "metadata";
         maxParticipants ← get metadata "maxParticipants";
         tooMany ← js_gt participantCount maxParticipants;
         let issues :=
           push_if tooMany
             ("Too many participants: " +:+ to_string participantCount
              +:+ " (maximum: " +:+ to_string maxParticipants +:+ ")") issues in
         gamemasterCount ← gamemaster_count (elements participants);
         let issues :=
           push_if (gamemasterCount =? 0)%nat
             "At least one gamemaster is required" issues in
         let issues :=
           push_if (1 <? gamemasterCount)%nat
             "Only one gamemaster is allowed" issues in
         found ← each_participant "Custom participant" (elements participants);
         Ok (issues ++ found)
     else Ok issues);
  (* Validate challenge customization *)
  challenge ← get customizations "challenge";
  issues ←
    (if truthy challenge then
       challengeIssues ← validateChallenge challenge;
       Ok (issues ++ map (λ issue, "Challenge: " +:+ issue) challengeIssues)
     else Ok issues);
  (* Validate environment customization *)
  environment ← get customizations "environment";
  issues ←
    (if truthy environment then
       environmentIssues ← validateEnvironment environment;
       Ok (issues ++ map (λ issue, "Environment: " +:+ issue) environmentIssues)
     else Ok issues);
  (* Validate dialogue customization *)
  dialogue ← get customizations "dialogue";
  let issues :=
    if truthy dialogue then
      if negb (String.eqb (typeof dialogue) "object") then
        issues ++ ["Dialogue customization must be an object"]
      else
        fold_left (λ issues segmentId,
            push_if (negb (includes ["intro"; "gameplay"; "conclusion"] (VStr segmentId)))
              ("Invalid dialogue segment: " +:+ segmentId
               +:+ ". Must be 'intro', 'gameplay', or 'conclusion'") issues)
          (own_keys dialogue) issues
    else issues in
  if (0 <? length issues)%nat then
    id ← get template "id";
    Throw (CustomizationValidationError id issues)
  else Ok ().
End Validation.
End ValidationUtils.

(** ** [JSON.parse(JSON.stringify(v))] *)

Definition drop_key {V} (k : string) (ps : list (string * V)) : list (string * V) :=
  filter (λ kv, kv.1 ≠ k) ps.

(** What the round trip through JSON text makes of a defined value: a property
    whose value is [undefined] disappears; an [undefined] array element, the
    not-a-number double and the infinities become [null]; the negative zero
    becomes zero.  Every other double comes back from its digits. *)
Fixpoint json_value (v : value) : value :=
  match v with
  | VNaN | VNum (Inf _) => VNull
  | VNum NegZero => VNum (Int 0)
  | VArr l =>
      VArr (map (λ x, match x with
                      | VUndef => VNull
                      | _ => json_value x
                      end) l)
  | VObj ps =>
      VObj ((fix go (ps : list (string * value)) : list (string * value) :=
               match ps with
               | [] => []
               | (k, x) :: ps' =>
                   match x with
                   | VUndef => drop_key k (go ps')
                   | _ => (k, json_value x) :: go ps'
                   end
               end) ps)
  | _ => v
  end.

(** [JSON.stringify(undefined)] is [undefined], which [JSON.parse] rejects. *)
Definition json_clone (v : value) : result value :=
  match v with
  | VUndef => Throw (SyntaxError (quoted "undefined" +:+ " is not valid JSON"))
  | _ => Ok (json_value v)
  end.

(** [Object.assign(target, source)]: every own enumerable property of the
    source is written on the target, which is returned.  A primitive target is
    wrapped, and the wrapper, which absorbs the writes, is dropped. *)
Definition object_assign (target source : value) : result value :=
  match target with
  | VUndef | VNull => Throw (TypeError "Cannot convert undefined or null to object")
  | VObj ps =>
      Ok (VObj (fold_left (λ ps k, update k (get_own source k) ps) (own_keys source) ps))
  | VBool _ | VNum _ | VNaN => Ok target
  | VStr _ | VArr _ =>
      match own_keys source with
      | [] => Ok target
      | _ => Stuck
      end
  end.

(** ** The engine ([core/TemplateEngine.ts]) *)

(** The two private fields; a [Map] keeps its entries in insertion order. *)
Record TemplateEngine : Type := mkEngine {
  templates : list (string * value);
  instances : list (string * value)
}.

(** [new TemplateEngine()] *)
Definition new_engine : TemplateEngine := mkEngine [] [].

(** [Map.prototype.has], [get], [set] and [delete] on a map with text keys. *)
Definition map_has (m : list (string * value)) (k : value) : bool :=
  match k with
  | VStr s => bool_decide (is_Some (assoc s m))
  | _ => false
  end.

Definition map_get (m : list (string * value)) (k : value) : value :=
  match k with
  | VStr s => default VUndef (assoc s m)
  | _ => VUndef
  end.

Definition map_delete (m : list (string * value)) (k : value) : list (string * value) :=
  match k with
  | VStr s => drop_key s m
  | _ => m
  end.

(** A method runs on the engine and leaves an engine behind, also when it
    throws. *)
Record M (A : Type) : Type := MkM { run : TemplateEngine → result A * TemplateEngine }.
Arguments MkM {A} run.
Arguments run {A} m e.

Global Instance M_ret : MRet M := λ A a, MkM (λ e, (Ok a, e)).
Global Instance M_bind : MBind M := λ A B k m,
  MkM (λ e, match run m e with
            | (Ok a, e') => run (k a) e'
            | (Throw x, e') => (Throw x, e')
            | (Stuck, e') => (Stuck, e')
            end).

(** A call of a static validator or of a pure helper. *)
Definition lift {A} (r : result A) : M A := MkM (λ e, (r, e)).
Definition throw {A} (x : error) : M A := lift (Throw x).
Definition this : M TemplateEngine := MkM (λ e, (Ok e, e)).
Definition set_templates (m : list (string * value)) : M unit :=
  MkM (λ e, (Ok (), mkEngine m (instances e))).
Definition set_instances (m : list (string * value)) : M unit :=
  MkM (λ e, (Ok (), mkEngine (templates e) m)).

Definition try_catchM {A} (m : M A) (h : error → M A) : M A :=
  MkM (λ e, match run m e with
            | (Throw x, e') => run (h x) e'
            | other => other
            end).

(** [this.templates.set(k, v)], [this.instances.set(k, v)]: the keys the code
    stores are texts. *)
Definition templates_set (k v : value) : M unit :=
  match k with
  | VStr s => e ← this; set_templates (update s v (templates e))
  | _ => lift Stuck
  end.

Definition instances_set (k v : value) : M unit :=
  match k with
  | VStr s => e ← this; set_instances (update s v (instances e))
  | _ => lift Stuck
  end.

(** What the clock and the random number generator hand to
    [generateInstanceId]: [Date.now()] and [Math.random().toString(36)]. *)
Record entropy : Type := mkEntropy {
  now : Z;
  random36 : string
}.

(** [generateInstanceId] *)
Definition generateInstanceId (en : entropy) : string :=
  "instance_" +:+ pretty (now en) +:+ "_" +:+ substr 2 9 (random36 en).

(** The index that a key denotes in an array of [n] elements. *)
Definition index_of_key (n : nat) (k : string) : option nat :=
  fst <$> list_find (λ i, key_of_index i = k) (seq 0 n).

(** The effect, seen from the enclosing value [o], of an in-place change that
    turned the object held by its own property [k] into [x]. *)
Definition replace_own (o : value) (k : string) (x : value) : result value :=
  match o with
  | VObj ps => Ok (VObj (update k x ps))
  | VArr l =>
      match index_of_key (length l) k with
      | Some i => Ok (VArr (<[i := x]> l))
      | None => Stuck
      end
  | _ => Stuck
  end.

(** [Object.assign(merged[field], source)], seen from [merged]. *)
Definition assign_field (merged : value) (field : string) (source : value)
  : result value :=
  target ← get merged field;
  target' ← object_assign target source;
  match target with
  | VObj _ => replace_own merged field target'
  | _ => Ok merged
  end.

(** [if (merged.segments[segmentId])
       merged.segments[segmentId].content.dialogue = customizedDialogue[segmentId]],
    seen from [merged]. *)
Definition replace_dialogue (customizedDialogue merged : value) (segmentId : string)
  : result value :=
  segments ← get merged "segments";
  segment ← get segments segmentId;
  if truthy segment then
    content ← get segment "content";
    content' ← set_prop content "dialogue" (get_own customizedDialogue segmentId);
    segment' ← replace_own segment "content" content';
    segments' ← replace_own segments segmentId segment';
    replace_own merged "segments" segments'
  else Ok merged.

(** [keys.forEach(k => body(k))] threading the value under construction. *)
Fixpoint for_each (body : value → string → result value) (merged : value)
    (keys : list string) : result value :=
  match keys with
  | [] => Ok merged
  | k :: keys' => merged' ← body merged k; for_each body merged' keys'
  end.

(** [mergeTemplateWithCustomizations] *)
Definition mergeTemplateWithCustomizations (template instance : value) : result value :=
  try_catch
    ((* Deep clone template and apply customizations *)
     merged ← json_clone template;
     customizedChallenge ← get instance "customizedChallenge";
     merged ←
       (if truthy customizedChallenge
        then assign_field merged "challenge" customizedChallenge
        else Ok merged);
     customizedParticipants ← get instance "customizedParticipants";
     merged ←
       (if truthy customizedParticipants
        then set_prop merged "participants" customizedParticipants
        else Ok merged);
     customizedEnvironment ← get instance "customizedEnvironment";
     merged ←
       (if truthy customizedEnvironment
        then assign_field merged "environment" customizedEnvironment
        else Ok merged);
     (* Apply dialogue customizations *)
     customizedDialogue ← get instance "customizedDialogue";
     if truthy customizedDialogue
     then for_each (replace_dialogue customizedDialogue) merged (own_keys customizedDialogue)
     else Ok merged)
    (λ error,
       Throw (Error ("Failed to merge template customizations: " +:+ message error))).

(** [dialogue.forEach(d => script += `**${d.speaker}:** "${d.text}"\n`)]: the
    lines appended.  A value that is not an array has no [forEach]. *)
Definition dialogue_lines (dialogue : value) : result string :=
  match dialogue with
  | VArr l =>
      lines ← mapM (λ d,
                 speaker ← get d "speaker";
                 text ← get d "text";
                 Ok ("**" +:+ to_string speaker +:+ ":** " +:+ quoted (to_string text)
                     +:+ str1 10)) l;
      Ok (concat_str lines)
  | _ => Throw (TypeError "dialogue.forEach is not a function")
  end.

(** [if (segment.content.dialogue) segment.content.dialogue.forEach(...)] *)
Definition segment_lines (segment : value) : result string :=
  content ← get segment "content";
  dialogue ← get content "dialogue";
  if truthy dialogue then dialogue_lines dialogue else Ok EmptyString.

(** [createVideoScript] *)
Definition createVideoScript (template : value) : result string :=
  try_catch
    (name ← get template "name";
     let script := "# Video Script: " +:+ to_string name +:+ str2 10 10 in
     challenge ← get template "challenge";
     objective ← get challenge "objective";
     let script := script +:+ "## Challenge: " +:+ to_string objective +:+ str1 10 in
     environment ← get template "environment";
     location ← get environment "location";
     let script := script +:+ "**Location:** " +:+ to_string location +:+ str1 10 in
     participants ← get template "participants";
     count ← get participants "length";
     let script := script +:+ "**Participants:** " +:+ to_string count +:+ str2 10 10 in
     (* Intro segment *)
     segments ← get template "segments";
     intro ← get segments "intro";
     introDuration ← get intro "duration";
     let script := script +:+ "## Intro (0-" +:+ to_string introDuration +:+ "s)" +:+ str1 10 in
     introLines ← segment_lines intro;
     let script := script +:+ introLines in
     (* Gameplay segment *)
     gameplay ← get segments "gameplay";
     gameplayDuration ← get gameplay "duration";
     let script :=
       script +:+ str1 10 +:+ "## Gameplay (" +:+ to_string introDuration +:+ "-"
       +:+ to_string (js_add introDuration gameplayDuration) +:+ "s)" +:+ str1 10 in
     gameplayLines ← segment_lines gameplay;
     let script := script +:+ gameplayLines in
     (* Conclusion segment *)
     let conclusionStart := js_add introDuration gameplayDuration in
     conclusion ← get segments "conclusion";
     conclusionDuration ← get conclusion "duration";
     let script :=
       script +:+ str1 10 +:+ "## Conclusion (" +:+ to_string conclusionStart +:+ "-"
       +:+ to_string (js_add conclusionStart conclusionDuration) +:+ "s)" +:+ str1 10 in
     conclusionLines ← segment_lines conclusion;
     Ok (script +:+ conclusionLines))
    (λ error, Throw (Error ("Failed to create video script: " +:+ message error))).

Section Engine.
Variable URL_parses : string → bool.

(** [registerTemplate] *)
Definition registerTemplate (template : value) : M unit :=
  (* Input validation *)
  lift (ValidationUtils.validateInput template "template" "object");;
  (* Check for duplicate template ID *)
  id ← lift (get template "id");
  e ← this;
  (if map_has (templates e) id then throw (DuplicateTemplateError id) else mret ());;
  (* Validate template structure *)
  lift (ValidationUtils.validateTemplate URL_parses template);;
  id ← lift (get template "id");
  templates_set id template.

(** [getTemplate] *)
Definition getTemplate (templateId : value) : M value :=
  lift (ValidationUtils.validateInput templateId "templateId" "string");;
  e ← this;
  let template := map_get (templates e) templateId in
  if negb (truthy template) then throw (TemplateNotFoundError (to_string templateId))
  else mret template.

(** [getAvailableTemplates] *)
Definition getAvailableTemplates : M (list string) :=
  e ← this; mret (templates e).*1.

(** [hasTemplate] *)
Definition hasTemplate (templateId : value) : M bool :=
  lift (ValidationUtils.validateInput templateId "templateId" "string");;
  e ← this;
  mret (map_has (templates e) templateId).

(** The object literal that [createInstance] builds. *)
Definition new_instance
    (templateId instanceId challenge participants environment dialogue : value) : value :=
  VObj [("templateId", templateId);
        ("instanceId", instanceId);
        ("customizedChallenge", challenge);
        ("customizedParticipants", participants);
        ("customizedEnvironment", environment);
        ("customizedDialogue", dialogue);
        ("generationSettings",
          VObj [("outputFormat", VStr "mp4"); ("quality", VStr "high")])].

(** [createInstance]; an omitted or [undefined] second argument takes the
    default [{}]. *)
Definition createInstance (templateId customizations : value) (en : entropy)
  : M value :=
  let customizations :=
    match customizations with
    | VUndef => VObj []
    | _ => customizations
    end in
  (* Input validation *)
  lift (ValidationUtils.validateInput templateId "templateId" "string");;
  lift (ValidationUtils.validateInput customizations "customizations" "object");;
  (* Get template (throws if not found) *)
  template ← getTemplate templateId;
  (* Validate customizations *)
  lift (ValidationUtils.validateCustomizations template customizations);;
  let instanceId := VStr (generateInstanceId en) in
  challenge ← lift (get customizations "challenge");
  participants ← lift (get customizations "participants");
  environment ← lift (get customizations "environment");
  dialogue ← lift (get customizations "dialogue");
  let instance :=
    new_instance templateId instanceId challenge participants environment dialogue in
  instances_set instanceId instance;;
  mret instance.

(** [validateCustomizations] of the engine: any exception becomes [false]. *)
Definition validateCustomizations (templateId customizations : value) : M bool :=
  try_catchM
    (lift (ValidationUtils.validateInput templateId "templateId" "string");;
     lift (ValidationUtils.validateInput customizations "customizations" "object");;
     template ← getTemplate templateId;
     lift (ValidationUtils.validateCustomizations template customizations);;
     mret true)
    (λ _, mret false).

Definition is_TemplateNotFoundError (x : error) : bool :=
  match x with
  | TemplateNotFoundError _ => true
  | _ => false
  end.

(** [generateScript] *)
Definition generateScript (instanceId : value) : M string :=
  lift (ValidationUtils.validateInput instanceId "instanceId" "string");;
  e ← this;
  let instance := map_get (instances e) instanceId in
  if negb (truthy instance) then throw (InstanceNotFoundError (to_string instanceId))
  else
    try_catchM
      (templateId ← lift (get instance "templateId");
       template ← getTemplate templateId;
       (* Merge template with customizations *)
       mergedTemplate ← lift (mergeTemplateWithCustomizations template instance);
       (* Generate script *)
       lift (createVideoScript mergedTemplate))
      (λ error,
         if is_TemplateNotFoundError error then
           templateId ← lift (get instance "templateId");
           throw (ScriptGenerationError (to_string instanceId)
                    ("Template '" +:+ to_string templateId +:+ "' no longer exists"))
         else
           throw (ScriptGenerationError (to_string instanceId) (message error))).

(** [getInstance] *)
Definition getInstance (instanceId : value) : M value :=
  lift (ValidationUtils.validateInput instanceId "instanceId" "string");;
  e ← this;
  let instance := map_get (instances e) instanceId in
  if negb (truthy instance) then throw (InstanceNotFoundError (to_string instanceId))
  else mret instance.

(** [deleteInstance]: [Map.prototype.delete] tells whether the key was there. *)
Definition deleteInstance (instanceId : value) : M bool :=
  lift (ValidationUtils.validateInput instanceId "instanceId" "string");;
  e ← this;
  let existed := map_has (instances e) instanceId in
  set_instances (map_delete (instances e) instanceId);;
  mret existed.

(** [getAvailableInstances] *)
Definition getAvailableInstances : M (list string) :=
  e ← this; mret (instances e).*1.
End Engine.

(** ** The fixture ([templates/ChallengeTemplate.ts]) *)

Definition strings (l : list string) : value := VArr (VStr <$> l).

Definition dialogueElement (speaker text : string) (timing : Z) : value :=
  VObj [("speaker", VStr speaker); ("text", VStr text); ("timing", VNum (Int timing));
        ("isCustomizable", VBool true)].

Definition actionElement (type description : string) (participants : list string)
    (timing : Z) : value :=
  VObj [("type", VStr type); ("description", VStr description);
        ("participants", strings participants); ("timing", VNum (Int timing));
        ("isCustomizable", VBool true)].

Definition visualElement (type description : string) (timing : Z) : value :=
  VObj [("type", VStr type); ("description", VStr description);
        ("timing", VNum (Int timing)); ("isCustomizable", VBool true)].

Definition timeSegment (startTime duration : Z) (dialogue actions visualElements : list value)
  : value :=
  VObj [("startTime", VNum (Int startTime)); ("duration", VNum (Int duration));
        ("content", VObj [("dialogue", VArr dialogue); ("actions", VArr actions);
                          ("visualElements", VArr visualElements)])].

(** A participant without equipment. *)
Definition participant (id role name : string) : value :=
  VObj [("id", VStr id); ("role", VStr role); ("name", VStr name);
        ("isCustomizable", VBool true)].

Definition OriginalChallengeTemplate : value :=
  VObj [
    ("id", VStr "find-key-escape-room");
    ("name", VStr "Find the Key Challenge");
    ("description", VStr "A competitive challenge where players must find hidden keys while avoiding consequences from the game master");
    ("metadata", VObj [
       ("originalVideo", VStr "https://www.youtube.com/shorts/NjlP2_l1Wr0");
       ("duration", VNum (Int 35));
       ("difficulty", VStr "easy");
       ("minParticipants", VNum (Int 3));
       ("maxParticipants", VNum (Int 8))]);
    ("challenge", VObj [
       ("objective", VStr "Find the key");
       ("targetObjects", strings ["keys"]);
       ("rules", strings ["Players must find all hidden keys";
                          "Game master monitors with eyes covered";
                          "Game master can shoot players with paintball gun";
                          "All players except one must succeed"]);
       ("successCondition", VStr "Find and secure a key");
       ("failureConsequence", VStr "Extra paintball shots as punishment");
       ("isCustomizable", VBool true)]);
    ("participants", VArr [
       VObj [("id", VStr "gamemaster"); ("role", VStr "gamemaster");
             ("name", VStr "Game Master");
             ("equipment", strings ["paintball gun"; "eyemask"]);
             ("isCustomizable", VBool true)];
       participant "player1" "player" "Player 1";
       participant "player2" "player" "Player 2";
       participant "player3" "player" "Player 3";
       participant "player4" "player" "Danny"]);
    ("environment", VObj [
       ("location", VStr "enclosed room");
       ("props", strings ["3 hidden keys"; "paintball gun"; "eyemask"; "various hiding spots"]);
       ("constraints", strings ["enclosed space"; "limited hiding spots"]);
       ("isCustomizable", VBool true)]);
    ("segments", VObj [
       ("intro", timeSegment 0 3
          [dialogueElement "gamemaster" "Find the key. Escape the room. Good luck, boys!" 0]
          [actionElement "interaction" "Game master explains the challenge" ["gamemaster"] 0]
          [visualElement "environment" "Show room setup and hidden key locations" 0]);
       ("gameplay", timeSegment 3 27
          [dialogueElement "gamemaster" "There's three keys. This is easy." 1;
           dialogueElement "player" "Let's gooo!" 3;
           dialogueElement "gamemaster" "Where are you?" 8;
           dialogueElement "player" "Behind you!" 12;
           dialogueElement "player" "Got one, I got it, I got it!" 15;
           dialogueElement "player" "Where is the key?" 18;
           dialogueElement "gamemaster" "Two keys left" 20]
          [actionElement "movement" "Players search room frantically"
             ["player1"; "player2"; "player3"; "player4"] 0;
           actionElement "interaction" "Game master shoots paintball gun while blindfolded"
             ["gamemaster"] 2;
           actionElement "interaction" "Players find keys one by one"
             ["player1"; "player2"; "player3"] 15]
          [visualElement "effect" "Chaotic searching and dodging" 0;
           visualElement "prop" "Keys being discovered" 15]);
       ("conclusion", timeSegment 30 5
          [dialogueElement "gamemaster"
             "Everyone has a key but Danny, this is his punishment, boom boom, subscribe!" 0]
          [actionElement "consequence" "Extra paintball shots for the losing player"
             ["gamemaster"; "player4"] 1]
          [visualElement "effect" "Call to action overlay" 3])]);
    ("customizationOptions", VObj [
       ("allowParticipantChange", VBool true);
       ("allowChallengeChange", VBool true);
       ("allowEnvironmentChange", VBool true);
       ("allowDialogueChange", VBool true)])].

(** A stand-in for the URL parser of the platform in the worked examples: it
    accepts the texts that start with a scheme and a colon. *)
Definition starts_with_scheme (s : string) : bool :=
  String.prefix "https:" s || String.prefix "http:" s.

(** ** The interfaces ([types/template.ts]) as typing predicates

    [number] is inhabited by the doubles, the not-a-number one included. *)

Definition is_string (v : value) : bool :=
  match v with VStr _ => true | _ => false end.
Definition is_number (v : value) : bool :=
  match v with
  | VNum x => is_double x
  | VNaN => true
  | _ => false
  end.
Definition is_boolean (v : value) : bool :=
  match v with VBool _ => true | _ => false end.
Definition is_object (v : value) : bool :=
  match v with VObj _ => true | _ => false end.

(** [T[]] *)
Definition array_of (T : value → bool) (v : value) : bool :=
  match v with
  | VArr l => forallb T l
  | _ => false
  end.

(** An optional member [k?: T] *)
Definition optional (T : value → bool) (v : value) : bool :=
  match v with
  | VUndef => true
  | _ => T v
  end.

(** A member [k: T] of the object [o] *)
Definition member (o : value) (k : string) (T : value → bool) : bool :=
  T (get_own o k).

Definition is_DialogueElement (v : value) : bool :=
  is_object v
  && member v "speaker" (includes ["gamemaster"; "player"; "narrator"])
  && member v "text" is_string
  && member v "timing" is_number
  && member v "isCustomizable" is_boolean.

Definition is_ActionElement (v : value) : bool :=
  is_object v
  && member v "type" (includes ["movement"; "interaction"; "consequence"])
  && member v "description" is_string
  && member v "participants" (array_of is_string)
  && member v "timing" is_number
  && member v "isCustomizable" is_boolean.

Definition is_VisualElement (v : value) : bool :=
  is_object v
  && member v "type" (includes ["prop"; "environment"; "effect"])
  && member v "description" is_string
  && member v "timing" is_number
  && member v "isCustomizable" is_boolean.

Definition is_SegmentContent (v : value) : bool :=
  is_object v
  && member v "dialogue" (array_of is_DialogueElement)
  && member v "actions" (array_of is_ActionElement)
  && member v "visualElements" (array_of is_VisualElement).

Definition is_TimeSegment (v : value) : bool :=
  is_object v
  && member v "startTime" is_number
  && member v "duration" is_number
  && member v "content" is_SegmentContent.

Definition is_Participant (v : value) : bool :=
  is_object v
  && member v "id" is_string
  && member v "role" (includes ["gamemaster"; "player"])
  && member v "name" is_string
  && member v "equipment" (optional (array_of is_string))
  && member v "isCustomizable" is_boolean.

Definition is_Challenge (v : value) : bool :=
  is_object v
  && member v "objective" is_string
  && member v "targetObjects" (array_of is_string)
  && member v "rules" (array_of is_string)
  && member v "successCondition" is_string
  && member v "failureConsequence" is_string
  && member v "isCustomizable" is_boolean.

Definition is_Environment (v : value) : bool :=
  is_object v
  && member v "location" is_string
  && member v "props" (array_of is_string)
  && member v "constraints" (array_of is_string)
  && member v "isCustomizable" is_boolean.

Definition is_Metadata (v : value) : bool :=
  is_object v
  && member v "originalVideo" is_string
  && member v "duration" is_number
  && member v "difficulty" (includes ["easy"; "medium"; "hard"])
  && member v "minParticipants" is_number
  && member v "maxParticipants" is_number.

Definition is_Segments (v : value) : bool :=
  is_object v
  && member v "intro" is_TimeSegment
  && member v "gameplay" is_TimeSegment
  && member v "conclusion" is_TimeSegment.

Definition is_CustomizationOptions (v : value) : bool :=
  is_object v
  && member v "allowParticipantChange" is_boolean
  && member v "allowChallengeChange" is_boolean
  && member v "allowEnvironmentChange" is_boolean
  && member v "allowDialogueChange" is_boolean.

Definition is_ChallengeTemplate (v : value) : bool :=
  is_object v
  && member v "id" is_string
  && member v "name" is_string
  && member v "description" is_string
  && member v "metadata" is_Metadata
  && member v "challenge" is_Challenge
  && member v "participants" (array_of is_Participant)
  && member v "environment" is_Environment
  && member v "segments" is_Segments
  && member v "customizationOptions" is_CustomizationOptions.

(** [Partial<Challenge>] and [Partial<Environment>] *)
Definition is_PartialChallenge (v : value) : bool :=
  is_object v
  && member v "objective" (optional is_string)
  && member v "targetObjects" (optional (array_of is_string))
  && member v "rules" (optional (array_of is_string))
  && member v "successCondition" (optional is_string)
  && member v "failureConsequence" (optional is_string)
  && member v "isCustomizable" (optional is_boolean).

Definition is_PartialEnvironment (v : value) : bool :=
  is_object v
  && member v "location" (optional is_string)
  && member v "props" (optional (array_of is_string))
  && member v "constraints" (optional (array_of is_string))
  && member v "isCustomizable" (optional is_boolean).

(** [{ [segmentId: string]: DialogueElement[] }] *)
Definition is_DialogueMap (v : value) : bool :=
  match v with
  | VObj ps => forallb (λ kv, array_of is_DialogueElement kv.2) ps
  | _ => false
  end.

(** The second parameter of [createInstance] *)
Definition is_Customizations (v : value) : bool :=
  is_object v
  && member v "challenge" (optional is_PartialChallenge)
  && member v "participants" (optional (array_of is_Participant))
  && member v "environment" (optional is_PartialEnvironment)
  && member v "dialogue" (optional is_DialogueMap).

(** Plain data: no [undefined] and, of the numbers, neither the not-a-number
    double nor an infinity nor the negative zero, anywhere inside, so that the
    JSON text of the value holds all of it. *)
Fixpoint json_stable (v : value) : bool :=
  match v with
  | VUndef | VNaN | VNum (Inf _) | VNum NegZero => false
  | VArr l => forallb json_stable l
  | VObj ps => forallb (λ kv, json_stable kv.2) ps
  | _ => true
  end.

(** ** The public interface ([ITemplateEngine]) as a transition system *)

Inductive call : Type :=
| RegisterTemplate (template : value)
| GetTemplate (templateId : value)
| GetAvailableTemplates
| HasTemplate (templateId : value)
| CreateInstance (templateId customizations : value) (en : entropy)
| ValidateCustomizations (templateId customizations : value)
| GenerateScript (instanceId : value)
| GetInstance (instanceId : value)
| DeleteInstance (instanceId : value)
| GetAvailableInstances.

(** The call type-checks against the signature of the method. *)
Definition well_typed (c : call) : bool :=
  match c with
  | RegisterTemplate template => is_ChallengeTemplate template
  | CreateInstance templateId customizations _ =>
      is_string templateId && optional is_Customizations customizations
  | GetTemplate id | HasTemplate id | ValidateCustomizations id _
  | GenerateScript id | GetInstance id | DeleteInstance id => is_string id
  | GetAvailableTemplates | GetAvailableInstances => true
  end.

Section Transitions.
Variable URL_parses : string → bool.

(** The engine that a call leaves behind, whatever its outcome. *)
Definition after (c : call) (e : TemplateEngine) : TemplateEngine :=
  match c with
  | RegisterTemplate template => (run (registerTemplate URL_parses template) e).2
  | GetTemplate templateId => (run (getTemplate templateId) e).2
  | GetAvailableTemplates => (run getAvailableTemplates e).2
  | HasTemplate templateId => (run (hasTemplate templateId) e).2
  | CreateInstance templateId customizations en =>
      (run (createInstance templateId customizations en) e).2
  | ValidateCustomizations templateId customizations =>
      (run (validateCustomizations templateId customizations) e).2
  | GenerateScript instanceId => (run (generateScript instanceId) e).2
  | GetInstance instanceId => (run (getInstance instanceId) e).2
  | DeleteInstance instanceId => (run (deleteInstance instanceId) e).2
  | GetAvailableInstances => (run getAvailableInstances e).2
  end.

(** The engines that well-typed calls produce from [new TemplateEngine()]. *)
Inductive reachable : TemplateEngine → Prop :=
| reachable_new : reachable new_engine
| reachable_call e c :
    reachable e → well_typed c = true → reachable (after c e).
End Transitions.

(** ** Vocabulary of the statements *)

Definition is_InvalidInputError {A} (r : result A) : bool :=
  match r with
  | Throw (InvalidInputError _ _ _) => true
  | _ => false
  end.

Definition is_InstanceNotFoundError {A} (r : result A) : bool :=
  match r with
  | Throw (InstanceNotFoundError _) => true
  | _ => false
  end.


Definition is_TemplateValidationError {A} (r : result A) : bool :=
  match r with
  | Throw (TemplateValidationError _ _) => true
  | _ => false
  end.

(** [delete o[k]] on a copy of the object *)
Definition omit (k : string) (o : value) : value :=
  match o with
  | VObj ps => VObj (drop_key k ps)
  | _ => o
  end.

(** [validateParticipant] finds nothing to report. *)
Definition valid_participant (p : value) : bool :=
  match ValidationUtils.validateParticipant p with
  | Ok [] => true
  | _ => false
  end.

(** The number of participants whose role is [gamemaster]. *)
Definition gamemasters (participants : list value) : nat :=
  length (List.filter (λ p, is_str "gamemaster" (get_own p "role")) participants).





(** ** Paths into a value *)

(** [v.k1.k2...] once the null checks have passed *)
Fixpoint get_path (v : value) (p : list string) : value :=
  match p with
  | [] => v
  | k :: p' => get_path (get_own v k) p'
  end.

(** The value [v] after [v.k1.k2... = x], every object on the way being
    changed in place. *)
Fixpoint set_path (v : value) (p : list string) (x : value) : value :=
  match p with
  | [] => x
  | k :: p' =>
      match v with
      | VObj ps => VObj (update k (set_path (get_own v k) p' x) ps)
      | _ => v
      end
  end.

(** Every value on the path [p] into [v], the last included, is an object. *)
Fixpoint objects_along (v : value) (p : list string) : Prop :=
  match p with
  | [] => is_object v = true
  | k :: p' => is_object v = true ∧ objects_along (get_own v k) p'
  end.

(** ** The invariants of the data model *)






Section Invariant.
Variable URL_parses : string → bool.

(** An entry of the registry: a well-typed template that passed
    [validateTemplate], stored under its id. *)
Definition template_ok (entry : string * value) : Prop :=
  is_ChallengeTemplate entry.2 = true
  ∧ ValidationUtils.validateTemplate URL_parses entry.2 = Ok ()
  ∧ get_own entry.2 "id" = VStr entry.1.

(** An entry of the instance store: the record that [createInstance] built
    from well-typed customizations that passed [validateCustomizations]
    against a template that is still registered. *)
Definition instance_ok (registry : list (string * value)) (entry : string * value)
  : Prop :=
  ∃ templateId customizations template en,
    entry.1 = generateInstanceId en
    ∧ entry.2 = new_instance (VStr templateId) (VStr entry.1)
                  (get_own customizations "challenge")
                  (get_own customizations "participants")
                  (get_own customizations "environment")
                  (get_own customizations "dialogue")
    ∧ nonblank_text (VStr templateId) = true
    ∧ is_Customizations customizations = true
    ∧ assoc templateId registry = Some template
    ∧ ValidationUtils.validateCustomizations template customizations = Ok ().

Definition engine_ok (e : TemplateEngine) : Prop :=
  Forall template_ok (templates e) ∧ Forall (instance_ok (templates e)) (instances e).
End Invariant.

(** The members of [Challenge] and of [Environment] *)
Definition challenge_fields : list string :=
  ["objective"; "targetObjects"; "rules"; "successCondition"; "failureConsequence";
   "isCustomizable"].
Definition environment_fields : list string :=
  ["location"; "props"; "constraints"; "isCustomizable"].
Definition segment_names : list string := ["intro"; "gameplay"; "conclusion"].

(** A method that only reads the engine. *)
Definition reads_only {A} (m : M A) : Prop := ∀ e, (run m e).2 = e.

(** ** The resolved view in closed form *)

(** The target of [Object.assign(target, source)] afterwards. *)
Definition assigned (target source : value) : value :=
  match target with
  | VObj ps =>
      VObj (fold_left (λ ps k, update k (get_own source k) ps) (own_keys source) ps)
  | _ => target
  end.

Definition dialogue_path (segmentId : string) : list string :=
  ["segments"; segmentId; "content"; "dialogue"].

(** What [mergeTemplateWithCustomizations] returns when every object that it
    writes to is there: the deep copy with the overrides written at their
    paths. *)
Definition resolved (template instance : value) : value :=
  let customizedChallenge := get_own instance "customizedChallenge" in
  let customizedParticipants := get_own instance "customizedParticipants" in
  let customizedEnvironment := get_own instance "customizedEnvironment" in
  let customizedDialogue := get_own instance "customizedDialogue" in
  let merged := json_value template in
  let merged :=
    if truthy customizedChallenge
    then set_path merged ["challenge"]
           (assigned (get_own merged "challenge") customizedChallenge)
    else merged in
  let merged :=
    if truthy customizedParticipants
    then set_path merged ["participants"] customizedParticipants
    else merged in
  let merged :=
    if truthy customizedEnvironment
    then set_path merged ["environment"]
           (assigned (get_own merged "environment") customizedEnvironment)
    else merged in
  if truthy customizedDialogue
  then fold_left (λ merged segmentId,
           set_path merged (dialogue_path segmentId)
             (get_own customizedDialogue segmentId))
         (own_keys customizedDialogue) merged
  else merged.

(** The objects that the dialogue overrides are written to. *)
Definition has_segments (merged : value) : Prop :=
  is_object merged = true
  ∧ is_object (get_own merged "segments") = true
  ∧ Forall (λ k, is_object (get_path merged ["segments"; k]) = true
                 ∧ is_object (get_path merged ["segments"; k; "content"]) = true)
      segment_names.

(** The dialogue override names segments only: what [validateCustomizations]
    checks of it. *)
Definition dialogue_keys_ok (dialogue : value) : Prop :=
  truthy dialogue = true →
  typeof dialogue = "object"
  ∧ Forall (λ segmentId, segmentId ∈ segment_names) (own_keys dialogue).

(** ** Worked examples *)

(** The engine after the fixture has been registered. *)
Definition fixture_engine : TemplateEngine :=
  after starts_with_scheme (RegisterTemplate OriginalChallengeTemplate) new_engine.

Definition racing_customizations : value :=
  VObj [("challenge", VObj [("objective", VStr "Reach the finish line first")]);
        ("environment", VObj [("location", VStr "racing track")])].

Definition intro_customizations : value :=
  VObj [("dialogue",
         VObj [("intro", VArr [dialogueElement "gamemaster" "Custom intro message" 0])])].

Definition first_entropy : entropy := mkEntropy 1700000000000 "0.4fzyo82mvyr".
Definition second_entropy : entropy := mkEntropy 1700000000001 "0.k3x9q0c7d1a".

Definition racing_instance : value :=
  new_instance (VStr "find-key-escape-room") (VStr (generateInstanceId first_entropy))
    (VObj [("objective", VStr "Reach the finish line first")]) VUndef
    (VObj [("location", VStr "racing track")]) VUndef.

Definition intro_instance : value :=
  new_instance (VStr "find-key-escape-room") (VStr (generateInstanceId first_entropy))
    VUndef VUndef VUndef
    (VObj [("intro", VArr [dialogueElement "gamemaster" "Custom intro message" 0])]).

(** ** The script in closed form *)

(** The line of one dialogue element *)
Definition line_of (d : value) : string :=
  "**" +:+ to_string (get_own d "speaker") +:+ ":** "
  +:+ quoted (to_string (get_own d "text")) +:+ str1 10.

(** The lines of a segment *)
Definition lines_of (segment : value) : string :=
  let dialogue := get_path segment ["content"; "dialogue"] in
  if truthy dialogue then concat_str (map line_of (elements dialogue)) else EmptyString.

Definition script_before_objective (m : value) : string :=
  "# Video Script: " +:+ to_string (get_own m "name") +:+ str2 10 10 +:+ "## Challenge: ".

Definition script_after_objective (m : value) : string :=
  let intro := get_path m ["segments"; "intro"] in
  let gameplay := get_path m ["segments"; "gameplay"] in
  let conclusion := get_path m ["segments"; "conclusion"] in
  let conclusionStart := js_add (get_own intro "duration") (get_own gameplay "duration") in
  str1 10
  +:+ "**Location:** " +:+ to_string (get_path m ["environment"; "location"]) +:+ str1 10
  +:+ "**Participants:** " +:+ to_string (get_path m ["participants"; "length"])
  +:+ str2 10 10
  +:+ "## Intro (0-" +:+ to_string (get_own intro "duration") +:+ "s)" +:+ str1 10
  +:+ lines_of intro
  +:+ str1 10 +:+ "## Gameplay (" +:+ to_string (get_own intro "duration") +:+ "-"
  +:+ to_string conclusionStart +:+ "s)" +:+ str1 10
  +:+ lines_of gameplay
  +:+ str1 10 +:+ "## Conclusion (" +:+ to_string conclusionStart +:+ "-"
  +:+ to_string (js_add conclusionStart (get_own conclusion "duration")) +:+ "s)"
  +:+ str1 10
  +:+ lines_of conclusion.

(** A dialogue that the renderer can walk: absent, or an array of elements. *)
Definition dialogue_ok (d : value) : Prop :=
  truthy d = true → ∃ l, d = VArr l ∧ Forall (λ x, is_nullish x = false) l.

(** A view that the renderer reads without a failure. *)
Definition renderable (m : value) : Prop :=
  is_object m = true
  ∧ is_nullish (get_own m "challenge") = false
  ∧ is_nullish (get_own m "environment") = false
  ∧ is_nullish (get_own m "participants") = false
  ∧ has_segments m
  ∧ Forall (λ k, dialogue_ok (get_path m ["segments"; k; "content"; "dialogue"]))
      segment_names.

(** Texts whose last character is the letter [i]. *)
Inductive ends_with_i : string → Prop :=
| ends_here : ends_with_i "i"
| ends_later a w : ends_with_i w → ends_with_i (String a w).

(** Customizations that override the objective of the challenge only. *)
Definition objective_customizations (objective : string) : value :=
  VObj [("challenge", VObj [("objective", VStr objective)])].

(** The fixture engine after two instances have been created, with the
    objectives [Test] and [Test 2]. *)
Definition two_instances_engine : TemplateEngine :=
  after starts_with_scheme
    (CreateInstance (VStr "find-key-escape-room") (objective_customizations "Test 2")
       second_entropy)
    (after starts_with_scheme
       (CreateInstance (VStr "find-key-escape-room") (objective_customizations "Test")
          first_entropy)
       fixture_engine).

(** ** Objects with identity

    The values above are trees: they tell what an object holds, not which
    object it is.  To settle what the merge shares and what it writes to, the
    merge is run a second time here on a heap of cells, where an object is the
    location of its cell, a property may hold a reference, and a write changes
    a cell in place. *)

Module Heap.

Abbreviation loc := nat.

Inductive hval : Type :=
| HUndef
| HNull
| HBool (b : bool)
| HNum (x : number)
| HNaN
| HStr (s : string)
| HRef (l : loc).

Inductive cell : Type :=
| CArr (elts : list hval)
| CObj (props : list (string * hval)).

(** The heap: the cell of the location [l] is the element of index [l];
    allocation appends a cell. *)
Abbreviation heap := (list cell).

Definition is_nullish (x : hval) : bool :=
  match x with
  | HUndef | HNull => true
  | _ => false
  end.

Definition nullish_name (x : hval) : string :=
  match x with
  | HNull => "null"
  | _ => "undefined"
  end.

Definition truthy (x : hval) : bool :=
  match x with
  | HUndef | HNull | HNaN => false
  | HBool b => b
  | HNum x => negb (is_zero x)
  | HStr s => negb (String.eqb s EmptyString)
  | HRef _ => true
  end.

(** The own enumerable properties of [x] in the heap [h] *)
Definition own_props (h : heap) (x : hval) : list (string * hval) :=
  match x with
  | HRef l =>
      match h !! l with
      | Some (CObj ps) => ps
      | Some (CArr xs) => indexed id xs
      | None => []
      end
  | HStr s => indexed (λ c, HStr (String c EmptyString)) (String.list_ascii_of_string s)
  | _ => []
  end.

Definition own_keys (h : heap) (x : hval) : list string := (own_props h x).*1.

Definition get_own (h : heap) (x : hval) (k : string) : hval :=
  match assoc k (own_props h x) with
  | Some y => y
  | None =>
      if String.eqb k "length" then
        match x with
        | HRef l =>
            match h !! l with
            | Some (CArr xs) => HNum (Int (Z.of_nat (length xs)))
            | _ => HUndef
            end
        | HStr s => HNum (Int (Z.of_nat (String.length s)))
        | _ => HUndef
        end
      else HUndef
  end.

Definition get (h : heap) (x : hval) (k : string) : result hval :=
  if is_nullish x then
    Throw (TypeError ("Cannot read properties of " +:+ nullish_name x
                      +:+ " (reading '" +:+ k +:+ "')"))
  else Ok (get_own h x k).

(** The cell of the object [l] after [l.k = y] *)
Definition write (h : heap) (l : loc) (k : string) (y : hval) : heap :=
  match h !! l with
  | Some (CObj ps) => <[l := CObj (update k y ps)]> h
  | _ => h
  end.

(** [x.k = y] in strict mode *)
Definition set_prop (h : heap) (x : hval) (k : string) (y : hval) : result heap :=
  match x with
  | HRef l =>
      match h !! l with
      | Some (CObj _) => Ok (write h l k y)
      | _ => Stuck
      end
  | HUndef | HNull =>
      Throw (TypeError ("Cannot set properties of " +:+ nullish_name x
                        +:+ " (setting '" +:+ k +:+ "')"))
  | _ => Throw (TypeError ("Cannot create property '" +:+ k +:+ "'"))
  end.

(** [Object.assign(target, source)]: the keys of the source are listed once,
    then each property is read from the source and written on the target. *)
Definition object_assign (h : heap) (target source : hval) : result heap :=
  match target with
  | HUndef | HNull => Throw (TypeError "Cannot convert undefined or null to object")
  | HRef l =>
      match h !! l with
      | Some (CObj _) =>
          Ok (fold_left (λ h k, write h l k (get_own h source k)) (own_keys h source) h)
      | _ =>
          match own_keys h source with
          | [] => Ok h
          | _ => Stuck
          end
      end
  | HStr _ =>
      match own_keys h source with
      | [] => Ok h
      | _ => Stuck
      end
  | _ => Ok h
  end.

(** The elements of a list read one by one, all or nothing. *)
Definition each {A B} (f : A → option B) : list A → option (list B) :=
  fix go l :=
    match l with
    | [] => Some []
    | x :: l' =>
        match f x, go l' with
        | Some y, Some ys => Some (y :: ys)
        | _, _ => None
        end
    end.

(** What [JSON.stringify] reads from [x], as a tree.  The fuel bounds the
    depth; a reference cycle exhausts any fuel. *)
Fixpoint read (fuel : nat) (h : heap) (x : hval) : option value :=
  match x with
  | HUndef => Some VUndef
  | HNull => Some VNull
  | HBool b => Some (VBool b)
  | HNum n => Some (VNum n)
  | HNaN => Some VNaN
  | HStr s => Some (VStr s)
  | HRef l =>
      match fuel with
      | O => None
      | S fuel' =>
          match h !! l with
          | Some (CArr xs) => VArr <$> each (read fuel' h) xs
          | Some (CObj ps) =>
              VObj <$> each (λ p, match read fuel' h p.2 with
                                  | Some v => Some (p.1, v)
                                  | None => None
                                  end) ps
          | None => None
          end
      end
  end.

(** The parts of a list allocated one after the other. *)
Definition build_each {A B} (f : A → heap → B * heap) : list A → heap → list B * heap :=
  fix go l h :=
    match l with
    | [] => ([], h)
    | v :: l' =>
        let '(x, h1) := f v h in
        let '(xs, h2) := go l' h1 in
        (x :: xs, h2)
    end.

(** What [JSON.parse] allocates for a tree: a fresh cell for every array and
    every object, the parts before the whole. *)
Fixpoint build (v : value) (h : heap) : hval * heap :=
  match v with
  | VUndef => (HUndef, h)
  | VNull => (HNull, h)
  | VBool b => (HBool b, h)
  | VNum n => (HNum n, h)
  | VNaN => (HNaN, h)
  | VStr s => (HStr s, h)
  | VArr l =>
      let '(xs, h1) := build_each build l h in
      (HRef (length h1), h1 ++ [CArr xs])
  | VObj ps =>
      let '(xps, h1) :=
        build_each (λ p h, let '(x, h1) := build p.2 h in ((p.1, x), h1)) ps h in
      (HRef (length h1), h1 ++ [CObj xps])
  end.

(** [x.k1.k2...] once the null checks have passed *)
Fixpoint get_path (h : heap) (x : hval) (p : list string) : hval :=
  match p with
  | [] => x
  | k :: p' => get_path h (get_own h x k) p'
  end.

(** [if (merged.segments[segmentId])
       merged.segments[segmentId].content.dialogue
         = instance.customizedDialogue[segmentId]] *)
Definition replace_dialogue (instance merged : hval) (h : heap) (segmentId : string)
  : result heap :=
  segments ← get h merged "segments";
  segment ← get h segments segmentId;
  if truthy segment then
    segments ← get h merged "segments";
    segment ← get h segments segmentId;
    content ← get h segment "content";
    customizedDialogue ← get h instance "customizedDialogue";
    replacement ← get h customizedDialogue segmentId;
    set_prop h content "dialogue" replacement
  else Ok h.

Fixpoint for_each (body : heap → string → result heap) (h : heap) (keys : list string)
  : result heap :=
  match keys with
  | [] => Ok h
  | k :: keys' => h' ← body h k; for_each body h' keys'
  end.

(** [mergeTemplateWithCustomizations] on the heap: the reference to the merged
    view and the heap that is left.  Every property is read where the source
    reads it. *)
Definition mergeTemplateWithCustomizations (fuel : nat) (h : heap) (template instance : hval)
  : result (hval * heap) :=
  try_catch
    ((* Deep clone template and apply customizations *)
     text ← match read fuel h template with
            | Some text => Ok text
            | None => Stuck
            end;
     copy ← json_clone text;
     let '(merged, h) := build copy h in
     customizedChallenge ← get h instance "customizedChallenge";
     h ← (if truthy customizedChallenge
          then target ← get h merged "challenge";
               source ← get h instance "customizedChallenge";
               object_assign h target source
          else Ok h);
     customizedParticipants ← get h instance "customizedParticipants";
     h ← (if truthy customizedParticipants
          then replacement ← get h instance "customizedParticipants";
               set_prop h merged "participants" replacement
          else Ok h);
     customizedEnvironment ← get h instance "customizedEnvironment";
     h ← (if truthy customizedEnvironment
          then target ← get h merged "environment";
               source ← get h instance "customizedEnvironment";
               object_assign h target source
          else Ok h);
     (* Apply dialogue customizations *)
     customizedDialogue ← get h instance "customizedDialogue";
     h ← (if truthy customizedDialogue
          then listed ← get h instance "customizedDialogue";
               for_each (replace_dialogue instance merged) h (own_keys h listed)
          else Ok h);
     Ok (merged, h))
    (λ error,
       Throw (Error ("Failed to merge template customizations: " +:+ message error))).

(** Two property lists with the same keys in the same order, the values
    related by [R]. *)
Definition aligned {A B} (R : A → B → Prop) (xps : list (string * A)) (vps : list (string * B))
  : Prop :=
  Forall2 (λ p q, p.1 = q.1 ∧ R p.2 q.2) xps vps.

(** Array elements as a property list without names. *)
Definition anon {V} (l : list V) : list (string * V) := map (pair EmptyString) l.

(** [old base h x v]: in the heap [h], the value [x] denotes the tree [v], and
    the cells that hold it lie below [base]. *)
Inductive old (base : nat) (h : heap) : hval → value → Prop :=
| old_undef : old base h HUndef VUndef
| old_null : old base h HNull VNull
| old_bool b : old base h (HBool b) (VBool b)
| old_num n : old base h (HNum n) (VNum n)
| old_nan : old base h HNaN VNaN
| old_str s : old base h (HStr s) (VStr s)
| old_arr l xs vs :
    (l < base)%nat → h !! l = Some (CArr xs) → olds base h (anon xs) (anon vs) →
    old base h (HRef l) (VArr vs)
| old_obj l xps vps :
    (l < base)%nat → h !! l = Some (CObj xps) → olds base h xps vps →
    old base h (HRef l) (VObj vps)
with olds (base : nat) (h : heap) : list (string * hval) → list (string * value) → Prop :=
| olds_nil : olds base h [] []
| olds_cons k x v xps vps :
    old base h x v → olds base h xps vps →
    olds base h ((k, x) :: xps) ((k, v) :: vps).

(** [rep leaf base h lo hi x v]: in the heap [h], the value [x] denotes the
    tree [v]; the cells of [x] that lie at [base] or above form a tree that
    occupies locations of [lo, hi) only, the parts before the whole, the parts
    of an object side by side; what lies below [base] is reached through
    [old] values, which are [leaf] values. *)
Inductive rep (leaf : hval → Prop) (base : nat) (h : heap)
  : nat → nat → hval → value → Prop :=
| rep_old lo x v : old base h x v → leaf x → rep leaf base h lo lo x v
| rep_arr lo mid xs vs :
    (base ≤ lo)%nat → reps leaf base h lo mid (anon xs) (anon vs) →
    h !! mid = Some (CArr xs) →
    rep leaf base h lo (S mid) (HRef mid) (VArr vs)
| rep_obj lo mid xps vps :
    (base ≤ lo)%nat → reps leaf base h lo mid xps vps →
    h !! mid = Some (CObj xps) →
    rep leaf base h lo (S mid) (HRef mid) (VObj vps)
with reps (leaf : hval → Prop) (base : nat) (h : heap)
  : nat → nat → list (string * hval) → list (string * value) → Prop :=
| reps_nil lo hi : (lo ≤ hi)%nat → reps leaf base h lo hi [] []
| reps_cons lo lo1 hi1 hi k x v xps vps :
    (lo ≤ lo1)%nat → rep leaf base h lo1 hi1 x v → reps leaf base h hi1 hi xps vps →
    reps leaf base h lo hi ((k, x) :: xps) ((k, v) :: vps).

Scheme old_mut := Minimality for old Sort Prop
  with olds_mut := Minimality for olds Sort Prop.
Scheme rep_mut := Minimality for rep Sort Prop
  with reps_mut := Minimality for reps Sort Prop.
Combined Scheme rep_reps_ind from rep_mut, reps_mut.

(** The locations that [x] reaches in [h]. *)
Inductive reaches (h : heap) : hval → loc → Prop :=
| reaches_here l : reaches h (HRef l) l
| reaches_elt l xs y l' :
    h !! l = Some (CArr xs) → y ∈ xs → reaches h y l' → reaches h (HRef l) l'
| reaches_prop l ps k y l' :
    h !! l = Some (CObj ps) → (k, y) ∈ ps → reaches h y l' → reaches h (HRef l) l'.

End Heap.

(** ** Worked examples on the heap *)

(** A heap that holds a template and an instance, each in cells of its own:
    the reference to the template, the reference to the instance, the heap. *)
Definition stored (template instance : value) : Heap.hval * Heap.hval * list Heap.cell :=
  let '(t, h) := Heap.build template [] in
  let '(i, h) := Heap.build instance h in
  (t, i, h).

(** The first instance of [two_instances_engine] *)
Definition first_instance : value :=
  map_get (instances two_instances_engine) (VStr (generateInstanceId first_entropy)).

(** The fixture and the first instance, stored. *)
Definition first_stored : Heap.hval * Heap.hval * list Heap.cell :=
  stored OriginalChallengeTemplate first_instance.

(** The heap after
    [createInstance(id, { participants: OriginalChallengeTemplate.participants })]:
    it holds the fixture and an instance whose participants override is the
    participants array of the fixture itself. *)
Definition aliased : Heap.hval * Heap.hval * list Heap.cell :=
  let '(t, h) := Heap.build OriginalChallengeTemplate [] in
  let settings := length h in
  (t, Heap.HRef (S settings),
   h ++ [Heap.CObj [("outputFormat", Heap.HStr "mp4"); ("quality", Heap.HStr "high")];
         Heap.CObj [("templateId", Heap.HStr "find-key-escape-room");
                    ("instanceId", Heap.HStr (generateInstanceId first_entropy));
                    ("customizedChallenge", Heap.HUndef);
                    ("customizedParticipants", Heap.get_own h t "participants");
                    ("customizedEnvironment", Heap.HUndef);
                    ("customizedDialogue", Heap.HUndef);
                    ("generationSettings", Heap.HRef settings)]]).

(** ** Vocabulary of the further properties *)

(** A text with at least one character: what [!v || typeof v !== 'string']
    lets through. *)
Definition nonempty_text (v : value) : bool :=
  match v with
  | VStr s => negb (String.eqb s EmptyString)
  | _ => false
  end.

(** An optional text member: absent, or a text that is not blank. *)
Definition optional_text (v : value) : bool :=
  match v with
  | VUndef => true
  | _ => nonblank_text v
  end.

(** An optional array member: absent, or an array. *)
Definition optional_array (v : value) : bool :=
  match v with
  | VUndef => true
  | _ => isArray v
  end.

(** [validateChallenge] and [validateEnvironment] find nothing to report. *)
Definition valid_challenge (challenge : value) : bool :=
  match ValidationUtils.validateChallenge challenge with
  | Ok [] => true
  | _ => false
  end.

Definition valid_environment (environment : value) : bool :=
  match ValidationUtils.validateEnvironment environment with
  | Ok [] => true
  | _ => false
  end.

(** What [validateInput] lets through. *)
Definition accepted_input (v : value) (expectedType : string) : bool :=
  negb (is_nullish v)
  && (if String.eqb expectedType "string" then nonblank_text v else true)
  && (if String.eqb expectedType "object" then is_object v else true)
  && (if String.eqb expectedType "array" then isArray v else true).

(** The fixture under an id of one space. *)
Definition blank_id_template : value :=
  set_path OriginalChallengeTemplate ["id"] (VStr " ").

(** An engine, which no call sequence produces, whose store holds an instance
    of a template that the registry lacks. *)
Definition orphan_engine : TemplateEngine :=
  mkEngine [] [(generateInstanceId first_entropy, first_instance)].

(** The keys of the registry and of the instance store are distinct. *)
Definition keys_unique (e : TemplateEngine) : Prop :=
  NoDup (templates e).*1 ∧ NoDup (instances e).*1.

(** The fixture engine after [createInstance('find-key-escape-room')]. *)
Definition plain_engine : TemplateEngine :=
  after starts_with_scheme
    (CreateInstance (VStr "find-key-escape-room") VUndef first_entropy) fixture_engine.

(** The texts in which the character [c] does not occur. *)
Fixpoint free_of (c : ascii) (s : string) : bool :=
  match s with
  | EmptyString => true
  | String a s' => negb (Ascii.eqb a c) && free_of c s'
  end.



(** The fixture with a gameplay segment whose start is not a number. *)
Definition nan_start_template : value :=
  set_path OriginalChallengeTemplate ["segments"; "gameplay"; "startTime"] VNaN.

(** The fixture engine after the two instances of the repository's own test
    have been created, with the objectives [Test 1] and [Test 2]. *)
Definition test_instances_engine : TemplateEngine :=
  after starts_with_scheme
    (CreateInstance (VStr "find-key-escape-room") (objective_customizations "Test 2")
       second_entropy)
    (after starts_with_scheme
       (CreateInstance (VStr "find-key-escape-room") (objective_customizations "Test 1")
          first_entropy)
       fixture_engine).

(** * Properties *)

(** ** Running the monads *)

Arguments map_has : simpl never.
Arguments map_get : simpl never.
Arguments map_delete : simpl never.

Lemma run_bind {A B} (m : M A) (k : A → M B) e :
  run (m ≫= k) e =
  match run m e with
  | (Ok a, e') => run (k a) e'
  | (Throw x, e') => (Throw x, e')
  | (Stuck, e') => (Stuck, e')
  end.
Proof. reflexivity. Qed.

Lemma run_lift {A} (r : result A) e : run (lift r) e = (r, e).
Proof. reflexivity. Qed.

Lemma get_defined v k : is_nullish v = false → get v k = Ok (get_own v k).
Proof. unfold get. by intros ->. Qed.

(** ** [validateInput] *)

Lemma validateInput_string_ok v p :
  nonblank_text v = true → ValidationUtils.validateInput v p "string" = Ok ().
Proof.
  destruct v; try discriminate. cbn.
  intros H. apply negb_true_iff in H. by rewrite H.
Qed.

Lemma validateInput_string_throw v p :
  nonblank_text v = false →
  is_InvalidInputError (ValidationUtils.validateInput v p "string") = true.
Proof.
  destruct v; try reflexivity. cbn.
  intros H. apply negb_false_iff in H. by rewrite H.
Qed.

Lemma validateInput_object v p :
  ValidationUtils.validateInput v p "object" =
  if is_object v then Ok ()
  else Throw (InvalidInputError p "object"
                (if is_nullish v then "null/undefined"
                 else if isArray v then "array" else typeof v)).
Proof. by destruct v. Qed.

(** C10. [hasTemplate] guards its argument: a text that is not blank gets the
    boolean answer of the registry and leaves the engine as it was; every
    other argument ([null], [undefined], a value that is not a text, a blank
    text) makes it throw [InvalidInputError] and never yields [false]. *)
Theorem hasTemplate_guards_its_argument (e : TemplateEngine) (templateId : value) :
  if nonblank_text templateId
  then run (hasTemplate templateId) e = (Ok (map_has (templates e) templateId), e)
  else is_InvalidInputError (run (hasTemplate templateId) e).1 = true
       ∧ (run (hasTemplate templateId) e).2 = e.
Proof.
  unfold hasTemplate. rewrite run_bind, run_lift.
  destruct (nonblank_text templateId) eqn:H.
  - by rewrite validateInput_string_ok.
  - pose proof (validateInput_string_throw templateId "templateId" H) as Hthrow.
    destruct (ValidationUtils.validateInput templateId "templateId" "string")
      as [[]|x|]; try discriminate.
    by destruct x.
Qed.

(** ** Maps *)

Lemma drop_key_absent k (m : list (string * value)) :
  assoc k m = None → drop_key k m = m.
Proof.
  unfold drop_key. induction m as [|[k' v] m IH]; [done|]. cbn.
  destruct (String.eqb_spec k k') as [->|Hne]; [done|]. intros H.
  rewrite decide_True by congruence. f_equal. by apply IH.
Qed.

Lemma map_delete_absent m k : map_has m k = false → map_delete m k = m.
Proof.
  destruct k; try done. unfold map_has, map_delete. intros H. apply drop_key_absent.
  apply bool_decide_eq_false in H. by apply eq_None_not_Some.
Qed.

Lemma map_get_absent m k : map_has m k = false → map_get m k = VUndef.
Proof.
  destruct k; try done. unfold map_has, map_get. intros H.
  apply bool_decide_eq_false in H. by rewrite (proj2 (eq_None_not_Some _) H).
Qed.

(** C8. Duplicate precedence: when the id of a record payload is already
    registered, [registerTemplate] throws [DuplicateTemplateError] for that
    id before it validates the payload, and the engine is left as it was.
    Nothing is asked of the payload beyond being a record with that id. *)
Theorem registerTemplate_duplicate_precedence
    (URL_parses : string → bool) (e : TemplateEngine) (payload : value) (id : string) :
  is_object payload = true →
  get_own payload "id" = VStr id →
  map_has (templates e) (VStr id) = true →
  run (registerTemplate URL_parses payload) e
  = (Throw (DuplicateTemplateError (VStr id)), e).
Proof.
  intros Hobj Hid Hhas. unfold registerTemplate.
  rewrite run_bind, run_lift, validateInput_object, Hobj.
  rewrite run_bind, run_lift, get_defined by (by destruct payload).
  rewrite Hid. cbn. by rewrite Hhas.
Qed.

Lemma registerTemplate_duplicate_precedence_witness :
  run (registerTemplate starts_with_scheme (VObj [("id", VStr "find-key-escape-room")]))
      (mkEngine [("find-key-escape-room", OriginalChallengeTemplate)] [])
  = (Throw (DuplicateTemplateError (VStr "find-key-escape-room")),
     mkEngine [("find-key-escape-room", OriginalChallengeTemplate)] []).
Proof.
  apply (registerTemplate_duplicate_precedence starts_with_scheme
           (mkEngine [("find-key-escape-room", OriginalChallengeTemplate)] [])
           (VObj [("id", VStr "find-key-escape-room")]) "find-key-escape-room");
    reflexivity.
Defined.

(** C9, as stated, fails: deleting an instance id that the store does not
    hold returns [false]; no [InstanceNotFoundError] is thrown. *)
Lemma deleteInstance_unknown_does_not_throw :
  run (deleteInstance (VStr "does-not-exist")) new_engine = (Ok false, new_engine)
  ∧ is_InstanceNotFoundError (run (deleteInstance (VStr "does-not-exist")) new_engine).1
    = false.
Proof. split; reflexivity. Qed.

(** C9, amended. For an instance id that is a text, not blank, and absent from
    the store, [deleteInstance] returns [false] and leaves the engine as it
    was; the lookups of that id, [getInstance] and [generateScript], are the
    operations that throw [InstanceNotFoundError]. *)
Theorem deleteInstance_unknown_returns_false (e : TemplateEngine) (instanceId : value) :
  nonblank_text instanceId = true →
  map_has (instances e) instanceId = false →
  run (deleteInstance instanceId) e = (Ok false, e)
  ∧ run (getInstance instanceId) e
    = (Throw (InstanceNotFoundError (to_string instanceId)), e)
  ∧ run (generateScript instanceId) e
    = (Throw (InstanceNotFoundError (to_string instanceId)), e).
Proof.
  intros Htext Habsent. unfold deleteInstance, getInstance, generateScript.
  rewrite !run_bind, !run_lift, !validateInput_string_ok by done. cbn.
  rewrite Habsent, map_delete_absent, map_get_absent by done.
  by destruct e.
Qed.

Lemma deleteInstance_unknown_returns_false_witness :
  run (deleteInstance (VStr "does-not-exist")) new_engine = (Ok false, new_engine)
  ∧ run (getInstance (VStr "does-not-exist")) new_engine
    = (Throw (InstanceNotFoundError "does-not-exist"), new_engine)
  ∧ run (generateScript (VStr "does-not-exist")) new_engine
    = (Throw (InstanceNotFoundError "does-not-exist"), new_engine).
Proof.
  apply (deleteInstance_unknown_returns_false new_engine (VStr "does-not-exist"));
    reflexivity.
Defined.

(** ** [validateTemplate] on a template without metadata *)

(** C2 fails on the code.  The fixture with its [metadata] removed makes
    [validateTemplate] throw a [TypeError]: the issue about the missing
    metadata is recorded, but the comparison of the segment durations then
    reads [template.metadata.duration].  No [TemplateValidationError] is
    thrown and the recorded issues are lost. *)
Theorem validateTemplate_missing_metadata_TypeError (URL_parses : string → bool) :
  ValidationUtils.validateTemplate URL_parses (omit "metadata" OriginalChallengeTemplate)
  = Throw (TypeError "Cannot read properties of undefined (reading 'duration')")
  ∧ is_TemplateValidationError
      (ValidationUtils.validateTemplate URL_parses
         (omit "metadata" OriginalChallengeTemplate)) = false.
Proof. split; reflexivity. Qed.

(** The sibling case is handled: without [segments] the issues are reported
    together in a [TemplateValidationError]. *)
Lemma validateTemplate_missing_segments_reported (URL_parses : string → bool) :
  ValidationUtils.validateTemplate URL_parses
    (omit "segments" (omit "metadata" OriginalChallengeTemplate))
  = Throw (TemplateValidationError (VStr "find-key-escape-room")
             ["Template metadata is required"; "Template segments are required"]).
Proof. reflexivity. Qed.

(** ** Issue lists *)

Lemma push_if_nil c msg issues :
  ValidationUtils.push_if c msg issues = [] ↔ c = false ∧ issues = [].
Proof.
  unfold ValidationUtils.push_if. destruct c.
  - split; [by destruct issues|by intros [[=] _]].
  - split; [done|by intros [_ ?]].
Qed.

Lemma has_issues_false (issues : list string) :
  (0 <? length issues)%nat = false ↔ issues = [].
Proof. destruct issues; cbn; naive_solver. Qed.

Lemma concat_imap_labels_nil (g : nat → string → string) (found : list (list string)) :
  concat (imap (λ i participantIssues, map (g i) participantIssues) found) = []
  ↔ Forall (λ participantIssues, participantIssues = []) found.
Proof.
  revert g. induction found as [|x found IH]; intros g; cbn.
  - split; [constructor|done].
  - rewrite Forall_cons. specialize (IH (g ∘ S)). unfold compose in *.
    rewrite <- IH. split.
    + intros [H1 H2]%app_eq_nil. by destruct x.
    + by intros [-> ->].
Qed.

(** ** Participants *)

Lemma mapM_cons {A B} (f : A → result B) x l :
  mapM f (x :: l) = (y ← f x; ys ← mapM f l; Ok (y :: ys)).
Proof. reflexivity. Qed.

Lemma validateParticipant_total p :
  is_nullish p = false → ∃ found, ValidationUtils.validateParticipant p = Ok found.
Proof.
  intros H. unfold ValidationUtils.validateParticipant.
  rewrite !get_defined by done. cbn. eauto.
Qed.

Lemma each_participant_spec label ps :
  Forall (λ p, is_nullish p = false) ps →
  ∃ found, ValidationUtils.each_participant label ps = Ok found
           ∧ (found = [] ↔ forallb valid_participant ps = true).
Proof.
  intros Hps. unfold ValidationUtils.each_participant.
  cut (∃ L, mapM ValidationUtils.validateParticipant ps = Ok L
            ∧ (Forall (λ x, x = []) L ↔ forallb valid_participant ps = true)).
  { intros (L & -> & HL). eexists. split; [reflexivity|].
    by rewrite concat_imap_labels_nil. }
  induction Hps as [|p ps Hp _ (L & HL & IH)].
  - exists []. split; [done|]. split; [done|constructor].
  - destruct (validateParticipant_total p Hp) as [found Hfound].
    exists (found :: L). rewrite mapM_cons, Hfound, HL. split; [done|].
    rewrite Forall_cons, IH. change (forallb valid_participant (p :: ps))
      with (valid_participant p && forallb valid_participant ps).
    replace (valid_participant p) with (bool_decide (found = []))
      by (unfold valid_participant; rewrite Hfound; by destruct found).
    rewrite andb_true_iff, bool_decide_eq_true. done.
Qed.

Lemma length_filter_flags {A} (f : A → bool) (l : list A) :
  length (filter (λ b : bool, b = true) (map f l)) = length (List.filter f l).
Proof.
  induction l as [|x l IH]; [done|]. simpl map. simpl List.filter.
  rewrite filter_cons. destruct (f x); simpl; by rewrite IH.
Qed.

Lemma gamemaster_count_spec ps :
  Forall (λ p, is_nullish p = false) ps →
  ValidationUtils.gamemaster_count ps = Ok (gamemasters ps).
Proof.
  intros Hps. unfold ValidationUtils.gamemaster_count, gamemasters.
  cut (mapM (λ p, role ← get p "role"; Ok (is_str "gamemaster" role)) ps
       = Ok (map (λ p, is_str "gamemaster" (get_own p "role")) ps)).
  { intros ->. simpl mbind. by rewrite length_filter_flags. }
  induction Hps as [|p ps Hp _ IH]; [done|].
  rewrite mapM_cons, get_defined by done. cbn. by rewrite IH.
Qed.

(** ** Participant overrides *)

Lemma bind_Ok {A B} (a : A) (k : A → result B) : (Ok a ≫= k) = k a.
Proof. reflexivity. Qed.








Lemma mapM_Ok_inv {A B} (f : A → result B) l ys :
  mapM f l = Ok ys → Forall (λ x, ∃ y, f x = Ok y) l.
Proof.
  revert ys. induction l as [|x l IH]; intros ys; [constructor|].
  rewrite mapM_cons. destruct (f x) as [y| |] eqn:Hx; try discriminate.
  rewrite bind_Ok. destruct (mapM f l) as [ys'| |]; try discriminate.
  intros _. constructor; eauto.
Qed.

Lemma gamemaster_count_Ok_inv ps n :
  ValidationUtils.gamemaster_count ps = Ok n → Forall (λ p, is_nullish p = false) ps.
Proof.
  unfold ValidationUtils.gamemaster_count.
  destruct (mapM _ ps) as [flags| |] eqn:Hflags; try discriminate. intros _.
  apply mapM_Ok_inv in Hflags. eapply Forall_impl; [exact Hflags|].
  intros p [b Hb]. unfold get in Hb. by destruct (is_nullish p).
Qed.




(** ** Well-typed templates *)


Lemma is_object_defined v : is_object v = true → is_nullish v = false.
Proof. by destruct v. Qed.

Lemma is_object_truthy v : is_object v = true → truthy v = true.
Proof. by destruct v. Qed.

Lemma array_of_inv T v : array_of T v = true → ∃ l, v = VArr l ∧ forallb T l = true.
Proof. destruct v; try discriminate. eauto. Qed.


Ltac andb_split :=
  repeat match goal with
         | H : _ && _ = true |- _ => apply andb_prop in H as [H ?]
         end.

Lemma is_Participant_defined ps :
  forallb is_Participant ps = true → Forall (λ p, is_nullish p = false) ps.
Proof.
  intros H. apply Forall_forall. intros p Hp%list_elem_of_In.
  eapply forallb_forall in H; [|exact Hp].
  unfold is_Participant in H. andb_split. by apply is_object_defined.
Qed.

(** ** Methods that only read the engine *)

Create HintDb reads discriminated.

Lemma reads_only_lift {A} (r : result A) : reads_only (lift r).
Proof. by intros e. Qed.

Lemma reads_only_throw {A} x : reads_only (@throw A x).
Proof. by intros e. Qed.

Lemma reads_only_ret {A} (a : A) : reads_only (mret a).
Proof. by intros e. Qed.

Lemma reads_only_this : reads_only this.
Proof. by intros e. Qed.

Lemma reads_only_bind {A B} (m : M A) (k : A → M B) :
  reads_only m → (∀ a, reads_only (k a)) → reads_only (m ≫= k).
Proof.
  intros Hm Hk e. rewrite run_bind. specialize (Hm e).
  destruct (run m e) as [[a| |] e1]; cbn in *; subst; try done. apply Hk.
Qed.

Lemma reads_only_try_catchM {A} (m : M A) h :
  reads_only m → (∀ x, reads_only (h x)) → reads_only (try_catchM m h).
Proof.
  intros Hm Hh e. unfold try_catchM. cbn. specialize (Hm e).
  destruct (run m e) as [[a| |] e1]; cbn in *; subst; try done. apply Hh.
Qed.

Lemma reads_only_if {A} (b : bool) (m1 m2 : M A) :
  reads_only m1 → reads_only m2 → reads_only (if b then m1 else m2).
Proof. by destruct b. Qed.

#[export] Hint Resolve reads_only_lift reads_only_throw reads_only_ret reads_only_this
  reads_only_try_catchM reads_only_if : reads.
#[export] Hint Extern 1 (reads_only (_ ≫= _)) =>
  apply reads_only_bind; [|intros ?] : reads.

Lemma getTemplate_reads_only templateId : reads_only (getTemplate templateId).
Proof. unfold getTemplate. auto 10 with reads. Qed.

Lemma hasTemplate_reads_only templateId : reads_only (hasTemplate templateId).
Proof. unfold hasTemplate. auto 10 with reads. Qed.

Lemma getAvailableTemplates_reads_only : reads_only getAvailableTemplates.
Proof. unfold getAvailableTemplates. auto with reads. Qed.

Lemma getAvailableInstances_reads_only : reads_only getAvailableInstances.
Proof. unfold getAvailableInstances. auto with reads. Qed.

Lemma getInstance_reads_only instanceId : reads_only (getInstance instanceId).
Proof. unfold getInstance. auto 10 with reads. Qed.

#[export] Hint Resolve getTemplate_reads_only : reads.

Lemma validateCustomizations_reads_only templateId customizations :
  reads_only (validateCustomizations templateId customizations).
Proof. unfold validateCustomizations. auto 10 with reads. Qed.

Lemma generateScript_reads_only instanceId : reads_only (generateScript instanceId).
Proof. unfold generateScript. auto 20 with reads. Qed.

(** ** Methods that write *)

Lemma assoc_update_eq {V} k (x : V) (m : list (string * V)) :
  assoc k (update k x m) = Some x.
Proof.
  induction m as [|[k' v] m IH]; cbn.
  - by rewrite String.eqb_refl.
  - destruct (String.eqb_spec k k') as [->|Hne]; cbn.
    + by rewrite String.eqb_refl.
    + by rewrite (proj2 (String.eqb_neq _ _) Hne).
Qed.

Lemma assoc_update_ne {V} k k' (x : V) (m : list (string * V)) :
  k ≠ k' → assoc k' (update k x m) = assoc k' m.
Proof.
  intros Hne. induction m as [|[k0 v] m IH]; cbn.
  - by rewrite (proj2 (String.eqb_neq k' k)).
  - destruct (String.eqb_spec k k0) as [->|Hne0]; cbn.
    + by rewrite (proj2 (String.eqb_neq k' k0)).
    + by rewrite IH.
Qed.

Lemma Forall_update (P : string * value → Prop) k x m :
  Forall P m → P (k, x) → Forall P (update k x m).
Proof.
  intros Hm Hx. induction Hm as [|[k' v] m Hv Hm IH]; cbn.
  - by constructor.
  - destruct (String.eqb k k'); constructor; auto.
Qed.

Lemma Forall_drop_key (P : string * value → Prop) k m :
  Forall P m → Forall P (drop_key k m).
Proof.
  unfold drop_key. rewrite !Forall_forall. intros H x Hx%list_elem_of_filter.
  apply H, Hx.
Qed.

Lemma map_has_false m k : map_has m (VStr k) = false ↔ assoc k m = None.
Proof.
  unfold map_has. rewrite bool_decide_eq_false. symmetry. apply eq_None_not_Some.
Qed.

Lemma map_get_truthy m k t :
  map_get m k = t → truthy t = true → ∃ s, k = VStr s ∧ assoc s m = Some t.
Proof.
  unfold map_get. destruct k; try (intros <-; discriminate). intros <-.
  destruct (assoc s m) eqn:E; cbn; [eauto|done].
Qed.

Ltac run_step := first [rewrite run_bind | rewrite run_lift]; cbv beta iota.

Ltac failed := left; split; [reflexivity|try intros ?; discriminate].

(** What [registerTemplate] does to the engine: nothing, unless it returns,
    in which case the template went through [validateTemplate] and sits under
    its id, which was free. *)
Lemma registerTemplate_spec URL template e :
  ((run (registerTemplate URL template) e).2 = e
   ∧ (run (registerTemplate URL template) e).1 ≠ Ok ())
  ∨ ∃ id,
      get_own template "id" = VStr id
      ∧ assoc id (templates e) = None
      ∧ ValidationUtils.validateTemplate URL template = Ok ()
      ∧ run (registerTemplate URL template) e
        = (Ok (), mkEngine (update id template (templates e)) (instances e)).
Proof.
  unfold registerTemplate. do 2 run_step. rewrite validateInput_object.
  destruct (is_object template) eqn:Hobj; [|failed].
  do 2 run_step. rewrite get_defined by (by apply is_object_defined).
  run_step. cbn [run this]. run_step.
  destruct (map_has (templates e) (get_own template "id")) eqn:Hhas; [failed|].
  cbn [run mret M_ret]. do 2 run_step.
  destruct (ValidationUtils.validateTemplate URL template) as [[]| |] eqn:Hvalid;
    [|failed|failed].
  do 2 run_step.
  destruct (get_own template "id") as [| | | | |id| |] eqn:Hid; try failed.
  right. exists id. apply map_has_false in Hhas. done.
Qed.
(** What [createInstance] does to the engine: nothing, unless it returns the
    instance that it stored under the generated id. *)
Lemma createInstance_spec templateId customizations en e :
  let supplied :=
    match customizations with
    | VUndef => VObj []
    | _ => customizations
    end in
  ((run (createInstance templateId customizations en) e).2 = e
   ∧ ∀ instance, (run (createInstance templateId customizations en) e).1 ≠ Ok instance)
  ∨ ∃ id template,
      templateId = VStr id
      ∧ nonblank_text templateId = true
      ∧ is_object supplied = true
      ∧ assoc id (templates e) = Some template
      ∧ ValidationUtils.validateCustomizations template supplied = Ok ()
      ∧ run (createInstance templateId customizations en) e
        = (Ok (new_instance templateId (VStr (generateInstanceId en))
                 (get_own supplied "challenge") (get_own supplied "participants")
                 (get_own supplied "environment") (get_own supplied "dialogue")),
           mkEngine (templates e)
             (update (generateInstanceId en)
                (new_instance templateId (VStr (generateInstanceId en))
                   (get_own supplied "challenge") (get_own supplied "participants")
                   (get_own supplied "environment") (get_own supplied "dialogue"))
                (instances e))).
Proof.
  intros supplied. unfold createInstance. fold supplied.
  do 2 run_step.
  destruct (nonblank_text templateId) eqn:Htext.
  2:{ pose proof (validateInput_string_throw templateId "templateId" Htext) as Hthrow.
      destruct (ValidationUtils.validateInput templateId "templateId" "string")
        as [[]|x|]; try discriminate. failed. }
  rewrite validateInput_string_ok by done.
  do 2 run_step. rewrite validateInput_object.
  destruct (is_object supplied) eqn:Hobj; [|failed].
  run_step.
  pose proof (getTemplate_reads_only templateId e) as Hread.
  destruct (run (getTemplate templateId) e) as [[template| |] e1] eqn:Hget;
    cbn in Hread; subst e1; [|failed|failed].
  assert (∃ id, templateId = VStr id ∧ assoc id (templates e) = Some template)
    as (id & -> & Hassoc).
  { unfold getTemplate in Hget. rewrite run_bind, run_lift in Hget. cbv beta iota in Hget.
    rewrite validateInput_string_ok in Hget by done.
    rewrite run_bind in Hget. cbn [run this] in Hget.
    destruct (truthy (map_get (templates e) templateId)) eqn:Htruthy;
      cbn in Hget; [|discriminate].
    injection Hget as Hget. rewrite Hget in Htruthy.
    exact (map_get_truthy _ _ _ Hget Htruthy). }
  do 2 run_step.
  destruct (ValidationUtils.validateCustomizations template supplied) as [[]| |] eqn:Hvalid;
    [|failed|failed].
  right. exists id, template.
  rewrite !get_defined by (by apply is_object_defined).
  done.
Qed.

Lemma deleteInstance_spec instanceId e :
  (run (deleteInstance instanceId) e).2 = e
  ∨ (run (deleteInstance instanceId) e).2
    = mkEngine (templates e) (map_delete (instances e) instanceId).
Proof.
  unfold deleteInstance. do 2 run_step.
  destruct (ValidationUtils.validateInput instanceId "instanceId" "string")
    as [[]| |]; [|by left|by left].
  by right.
Qed.

(** ** The engine invariant *)

Lemma instance_ok_update registry id template entry :
  assoc id registry = None →
  instance_ok registry entry → instance_ok (update id template registry) entry.
Proof.
  intros Hfree (tid & c & t & en & Hid & Hentry & Htid & Htyped & Hassoc & Hvalid).
  exists tid, c, t, en. repeat split; try done.
  rewrite assoc_update_ne; [done|]. intros ->. congruence.
Qed.

Lemma engine_ok_after URL c e :
  well_typed c = true → engine_ok URL e → engine_ok URL (after URL c e).
Proof.
  intros Htyped [Hts His]. destruct c as [t|id| |id|id c en|id c|id|id|id|]; cbn [after].
  - destruct (registerTemplate_spec URL t e) as [[-> _]|(id & Hid & Hfree & Hvalid & ->)];
      [done|].
    split; cbn [templates instances snd].
    + apply Forall_update; [done|]. by repeat split.
    + eapply Forall_impl; [exact His|]. intros entry. by apply instance_ok_update.
  - by rewrite getTemplate_reads_only.
  - by rewrite getAvailableTemplates_reads_only.
  - by rewrite hasTemplate_reads_only.
  - cbn in Htyped. apply andb_prop in Htyped as [_ Htyped].
    destruct (createInstance_spec id c en e)
      as [[-> _]|(tid & t & -> & Htext & Hobj & Hassoc & Hvalid & ->)]; [done|].
    split; cbn [templates instances snd]; [done|].
    apply Forall_update; [done|].
    exists tid, (match c with VUndef => VObj [] | _ => c end), t, en.
    repeat split; try done. by destruct c.
  - by rewrite validateCustomizations_reads_only.
  - by rewrite generateScript_reads_only.
  - by rewrite getInstance_reads_only.
  - destruct (deleteInstance_spec id e) as [->| ->]; [done|].
    split; cbn [templates instances]; [done|].
    unfold map_delete. destruct id; try done. by apply Forall_drop_key.
  - by rewrite getAvailableInstances_reads_only.
Qed.

Lemma reachable_engine_ok URL e : reachable URL e → engine_ok URL e.
Proof.
  induction 1 as [|e c _ IH Htyped].
  - split; constructor.
  - by apply engine_ok_after.
Qed.

(** ** Reading objects and paths *)

Lemma get_own_obj ps k : get_own (VObj ps) k = default VUndef (assoc k ps).
Proof. unfold get_own. cbn [own_props]. by destruct (assoc k ps), (String.eqb k "length"). Qed.

Lemma get_own_update ps k x k' :
  get_own (VObj (update k x ps)) k' = if String.eqb k k' then x else get_own (VObj ps) k'.
Proof.
  rewrite !get_own_obj. destruct (String.eqb_spec k k') as [->|Hne].
  - by rewrite assoc_update_eq.
  - by rewrite assoc_update_ne.
Qed.

Lemma is_object_inv v : is_object v = true → ∃ ps, v = VObj ps.
Proof. destruct v; try discriminate. eauto. Qed.

Lemma get_own_set_path v k p x k' :
  is_object v = true →
  get_own (set_path v (k :: p) x) k'
  = if String.eqb k k' then set_path (get_own v k) p x else get_own v k'.
Proof. intros [ps ->]%is_object_inv. cbn [set_path]. apply get_own_update. Qed.

Lemma is_object_set_path v k p x : is_object (set_path v (k :: p) x) = is_object v.
Proof. by destruct v. Qed.

(** ** The deep copy *)

Lemma assoc_drop_key k k' (ps : list (string * value)) :
  assoc k (drop_key k' ps) = if String.eqb k k' then None else assoc k ps.
Proof.
  unfold drop_key. induction ps as [|[k0 v] ps IH].
  - by destruct (String.eqb k k').
  - rewrite filter_cons. cbn [fst assoc]. destruct (decide (k0 ≠ k')) as [Hne|Heq].
    + cbn [assoc]. rewrite IH. destruct (String.eqb_spec k k0) as [->|]; [|done].
      by rewrite (proj2 (String.eqb_neq k0 k')).
    + apply dec_stable in Heq as ->. rewrite IH.
      by destruct (String.eqb k k').
Qed.

Lemma get_own_json_value ps k :
  get_own (json_value (VObj ps)) k = json_value (get_own (VObj ps) k).
Proof.
  rewrite get_own_obj. cbn [json_value]. rewrite get_own_obj.
  induction ps as [|[k0 v] ps IH]; [done|]. cbn [assoc].
  destruct v; cbn [assoc];
    try (destruct (String.eqb k k0); [done|exact IH]).
  rewrite assoc_drop_key. destruct (String.eqb k k0); [done|exact IH].
Qed.

Lemma json_value_stable v : json_stable v = true → json_value v = v.
Proof.
  induction v as [| | |n| | |l IH|ps IH] using value_ind_nested; try done.
  - by destruct n.
  - cbn. intros Hl. f_equal. induction IH as [|x l Hx _ IHl]; [done|].
    cbn in Hl. apply andb_prop in Hl as [H1 H2]. cbn. rewrite IHl by done.
    rewrite Hx by done. by destruct x.
  - cbn. intros Hps. f_equal. induction IH as [|[k x] ps Hx _ IHps]; [done|].
    cbn in Hps. apply andb_prop in Hps as [H1 H2]. rewrite IHps by done.
    cbn in Hx. rewrite Hx by done. by destruct x.
Qed.

(** ** The steps of the merge *)

Lemma is_object_json_value v : is_object (json_value v) = is_object v.
Proof. by destruct v as [| | |[]| | | |]. Qed.

Lemma get_own_assigned ps source f :
  get_own (assigned (VObj ps) source) f
  = if bool_decide (f ∈ own_keys source) then get_own source f else get_own (VObj ps) f.
Proof.
  unfold assigned. generalize (own_keys source) as keys. intros keys. revert ps.
  induction keys as [|k keys IH]; intros ps; [done|]. cbn [fold_left].
  rewrite IH, get_own_update.
  destruct (bool_decide (f ∈ keys)) eqn:Hin.
  - apply bool_decide_eq_true in Hin. rewrite bool_decide_eq_true_2; [done|].
    by apply list_elem_of_further.
  - apply bool_decide_eq_false in Hin. destruct (String.eqb_spec k f) as [->|Hne].
    + rewrite bool_decide_eq_true_2; [done|]. apply list_elem_of_here.
    + rewrite bool_decide_eq_false_2; [done|]. intros [?|?]%elem_of_cons; congruence.
Qed.

Lemma is_object_assigned target source : is_object (assigned target source) = is_object target.
Proof. by destruct target. Qed.

Lemma assign_field_obj m f source :
  is_object m = true → is_object (get_own m f) = true →
  assign_field m f source = Ok (set_path m [f] (assigned (get_own m f) source)).
Proof.
  intros [ps ->]%is_object_inv [tps Ht]%is_object_inv. unfold assign_field.
  rewrite get_defined by done. rewrite bind_Ok, Ht. done.
Qed.

Lemma set_prop_obj m k x : is_object m = true → set_prop m k x = Ok (set_path m [k] x).
Proof. by intros [ps ->]%is_object_inv. Qed.

Lemma replace_dialogue_obj cd m k :
  is_object m = true →
  is_object (get_own m "segments") = true →
  is_object (get_path m ["segments"; k]) = true →
  is_object (get_path m ["segments"; k; "content"]) = true →
  replace_dialogue cd m k = Ok (set_path m (dialogue_path k) (get_own cd k)).
Proof.
  cbn [get_path]. intros Hm Hsegs Hseg Hcontent. unfold replace_dialogue.
  rewrite get_defined by (by apply is_object_defined). rewrite bind_Ok.
  rewrite get_defined by (by apply is_object_defined). rewrite bind_Ok.
  rewrite is_object_truthy by done.
  rewrite get_defined by (by apply is_object_defined). rewrite bind_Ok.
  apply is_object_inv in Hm as [mps ->]. apply is_object_inv in Hsegs as [sps Hsegs].
  apply is_object_inv in Hseg as [gps Hseg]. apply is_object_inv in Hcontent as [cps Hcontent].
  rewrite Hsegs in Hseg, Hcontent. rewrite Hseg in Hcontent.
  unfold dialogue_path. cbn [set_path]. rewrite Hsegs. cbn [set_path].
  rewrite Hseg. cbn [set_path]. rewrite Hcontent. done.
Qed.

Lemma has_segments_set_dialogue m k x :
  has_segments m → has_segments (set_path m (dialogue_path k) x).
Proof.
  intros (Hm & Hsegs & Hall). unfold dialogue_path. split; [|split].
  - by rewrite is_object_set_path.
  - rewrite get_own_set_path by done. cbn [String.eqb Ascii.eqb Bool.eqb].
    by rewrite is_object_set_path.
  - eapply Forall_impl; [exact Hall|]. cbn [get_path]. intros k' [Hseg Hcontent].
    rewrite get_own_set_path by done. cbn -[set_path].
    rewrite get_own_set_path by done.
    destruct (String.eqb k k') eqn:E.
    + apply String.eqb_eq in E as ->. rewrite is_object_set_path.
      split; [done|]. rewrite get_own_set_path by done.
      cbn -[set_path]. by rewrite is_object_set_path.
    + done.
Qed.

Lemma for_each_replace_dialogue cd m keys :
  has_segments m →
  Forall (λ k, k ∈ segment_names) keys →
  for_each (replace_dialogue cd) m keys
  = Ok (fold_left (λ m k, set_path m (dialogue_path k) (get_own cd k)) keys m).
Proof.
  intros Hm Hkeys. revert m Hm. induction Hkeys as [|k keys Hk _ IH]; intros m Hm; [done|].
  cbn [for_each fold_left]. destruct Hm as (Hobj & Hsegs & Hall).
  rewrite Forall_forall in Hall. destruct (Hall k Hk) as [Hseg Hcontent].
  rewrite replace_dialogue_obj by done. rewrite bind_Ok. apply IH.
  apply has_segments_set_dialogue. split; [done|]. split; [done|].
  by apply Forall_forall.
Qed.

(** ** The merge in closed form *)

(** Decides the comparisons of property names that are literals. *)
Ltac compare_names :=
  repeat match goal with
         | |- context [String.eqb ?a ?b] =>
             let r := eval vm_compute in (String.eqb a b) in
             lazymatch r with
             | true => change (String.eqb a b) with true
             | false => change (String.eqb a b) with false
             end
         end;
  cbv iota.

Lemma get_own_json v k :
  is_object v = true → get_own (json_value v) k = json_value (get_own v k).
Proof. intros [ps ->]%is_object_inv. apply get_own_json_value. Qed.

Lemma is_ChallengeTemplate_objects t :
  is_ChallengeTemplate t = true →
  is_object t = true
  ∧ is_object (get_own t "challenge") = true
  ∧ is_object (get_own t "environment") = true
  ∧ has_segments t.
Proof.
  intros Ht. unfold is_ChallengeTemplate, member in Ht. andb_split.
  repeat match goal with
         | H : is_Challenge _ = true |- _ => unfold is_Challenge, member in H; andb_split
         | H : is_Environment _ = true |- _ => unfold is_Environment, member in H; andb_split
         | H : is_Segments _ = true |- _ => unfold is_Segments, member in H; andb_split
         | H : is_TimeSegment _ = true |- _ => unfold is_TimeSegment, member in H; andb_split
         | H : is_SegmentContent _ = true |- _ =>
             unfold is_SegmentContent, member in H; andb_split
         end.
  repeat split; try done. repeat constructor; done.
Qed.

Lemma has_segments_json t : has_segments t → has_segments (json_value t).
Proof.
  intros (Ht & Hsegs & Hall). split; [|split].
  - by rewrite is_object_json_value.
  - by rewrite get_own_json, is_object_json_value.
  - eapply Forall_impl; [exact Hall|]. cbn [get_path]. intros k [Hseg Hcontent].
    rewrite !get_own_json, !is_object_json_value by done. done.
Qed.

(** A write at a top-level field other than [segments] keeps the segments. *)
Lemma has_segments_set_field m f x :
  f ≠ "segments" → has_segments m → has_segments (set_path m [f] x).
Proof.
  intros Hf (Hm & Hsegs & Hall). apply String.eqb_neq in Hf.
  split; [|split].
  - by rewrite is_object_set_path.
  - by rewrite get_own_set_path, Hf.
  - eapply Forall_impl; [exact Hall|]. cbn [get_path]. intros k H.
    by rewrite get_own_set_path, Hf.
Qed.

Lemma is_object_new_instance a b c d e f : is_object (new_instance a b c d e f) = true.
Proof. reflexivity. Qed.

Lemma mergeTemplateWithCustomizations_resolved t inst :
  is_ChallengeTemplate t = true →
  is_object inst = true →
  dialogue_keys_ok (get_own inst "customizedDialogue") →
  mergeTemplateWithCustomizations t inst = Ok (resolved t inst).
Proof.
  intros (Ht & Hch & Henv & Hsegs)%is_ChallengeTemplate_objects Hinst Hkeys.
  apply has_segments_json in Hsegs.
  assert (is_object (get_own (json_value t) "challenge") = true) as Hch'
    by (by rewrite get_own_json, is_object_json_value).
  assert (is_object (get_own (json_value t) "environment") = true) as Henv'
    by (by rewrite get_own_json, is_object_json_value).
  assert (is_object (json_value t) = true) as Ht'
    by (by rewrite is_object_json_value).
  unfold mergeTemplateWithCustomizations, resolved.
  assert (json_clone t = Ok (json_value t)) as -> by (by destruct t).
  rewrite bind_Ok. rewrite !get_defined by (by apply is_object_defined).
  rewrite bind_Ok.
  set (m0 := json_value t) in *.
  set (m1 := if truthy (get_own inst "customizedChallenge")
             then set_path m0 ["challenge"]
                    (assigned (get_own m0 "challenge") (get_own inst "customizedChallenge"))
             else m0).
  assert (is_object m1 = true ∧ is_object (get_own m1 "environment") = true
          ∧ has_segments m1) as (Hm1 & Henv1 & Hsegs1).
  { unfold m1. destruct (truthy (get_own inst "customizedChallenge")); [|done].
    rewrite is_object_set_path, get_own_set_path by done. compare_names.
    split; [done|]. split; [done|]. by apply has_segments_set_field. }
  replace (if truthy (get_own inst "customizedChallenge")
           then assign_field m0 "challenge" (get_own inst "customizedChallenge")
           else Ok m0) with (Ok m1 : result value)
    by (unfold m1; destruct (truthy (get_own inst "customizedChallenge"));
        [by rewrite assign_field_obj|done]).
  rewrite !bind_Ok.
  set (m2 := if truthy (get_own inst "customizedParticipants")
             then set_path m1 ["participants"] (get_own inst "customizedParticipants")
             else m1).
  assert (is_object m2 = true ∧ is_object (get_own m2 "environment") = true
          ∧ has_segments m2) as (Hm2 & Henv2 & Hsegs2).
  { unfold m2. destruct (truthy (get_own inst "customizedParticipants")); [|done].
    rewrite is_object_set_path, get_own_set_path by done. compare_names.
    split; [done|]. split; [done|]. by apply has_segments_set_field. }
  replace (if truthy (get_own inst "customizedParticipants")
           then set_prop m1 "participants" (get_own inst "customizedParticipants")
           else Ok m1) with (Ok m2 : result value)
    by (unfold m2; destruct (truthy (get_own inst "customizedParticipants"));
        [by rewrite set_prop_obj|done]).
  rewrite !bind_Ok.
  set (m3 := if truthy (get_own inst "customizedEnvironment")
             then set_path m2 ["environment"]
                    (assigned (get_own m2 "environment") (get_own inst "customizedEnvironment"))
             else m2).
  assert (has_segments m3) as Hsegs3.
  { unfold m3. destruct (truthy (get_own inst "customizedEnvironment")); [|done].
    by apply has_segments_set_field. }
  replace (if truthy (get_own inst "customizedEnvironment")
           then assign_field m2 "environment" (get_own inst "customizedEnvironment")
           else Ok m2) with (Ok m3 : result value)
    by (unfold m3; destruct (truthy (get_own inst "customizedEnvironment"));
        [by rewrite assign_field_obj|done]).
  rewrite !bind_Ok.
  destruct (truthy (get_own inst "customizedDialogue")) eqn:Hcd; [|done].
  destruct (Hkeys Hcd) as [_ Hall].
  by rewrite for_each_replace_dialogue.
Qed.

(** ** What an accepted customization guarantees *)

Lemma fold_push_if_nil {A} (c : A → bool) (msg : A → string) keys issues :
  fold_left (λ issues k, ValidationUtils.push_if (c k) (msg k) issues) keys issues = []
  → issues = [] ∧ Forall (λ k, c k = false) keys.
Proof.
  revert issues. induction keys as [|k keys IH]; intros issues; cbn [fold_left].
  - by split.
  - intros [[Hc ->]%push_if_nil Hkeys]%IH. split; [done|]. by constructor.
Qed.

Lemma includes_segment_names k :
  includes ["intro"; "gameplay"; "conclusion"] (VStr k) = true → k ∈ segment_names.
Proof.
  unfold includes, segment_names. cbn [existsb is_str]. rewrite !orb_true_iff.
  intros [H|[H|[H|[=]]]]; apply String.eqb_eq in H as ->.
  - apply list_elem_of_here.
  - apply list_elem_of_further, list_elem_of_here.
  - do 2 apply list_elem_of_further. apply list_elem_of_here.
Qed.

Lemma validateCustomizations_dialogue_keys t c :
  ValidationUtils.validateCustomizations t c = Ok () →
  dialogue_keys_ok (get_own c "dialogue").
Proof.
  unfold ValidationUtils.validateCustomizations.
  destruct (is_nullish c) eqn:Hc.
  { assert (∃ x, get c "participants" = Throw x) as [x ->]
      by (unfold get; rewrite Hc; eauto).
    discriminate. }
  rewrite !(get_defined c) by done. rewrite bind_Ok.
  repeat match goal with
         | |- (Ok _ ≫= _) = _ → _ => rewrite bind_Ok
         | |- (?m ≫= _) = _ → _ =>
             destruct m as [?issues| |]; [rewrite bind_Ok|discriminate..]
         end.
  intros H Htruthy. rewrite Htruthy in H.
  match type of H with
  | (if (0 <? length ?l)%nat then _ else _) = _ =>
      destruct (0 <? length l)%nat eqn:Hany;
      [destruct (get t "id"); discriminate|]
  end.
  apply has_issues_false in Hany.
  destruct (negb (String.eqb (typeof (get_own c "dialogue")) "object")) eqn:Hobj.
  { by apply app_nil in Hany as [_ [=]]. }
  apply negb_false_iff, String.eqb_eq in Hobj. split; [done|].
  apply fold_push_if_nil in Hany as [_ Hkeys].
  eapply Forall_impl; [exact Hkeys|]. intros k Hk%negb_false_iff.
  by apply includes_segment_names.
Qed.

(** ** Reading the resolved view *)

Lemma update_idem {V} k (x : V) (ps : list (string * V)) :
  update k x (update k x ps) = update k x ps.
Proof.
  induction ps as [|[k0 v] ps IH]; cbn.
  - by rewrite String.eqb_refl.
  - destruct (String.eqb k k0) eqn:E; cbn.
    + by rewrite String.eqb_refl.
    + by rewrite E, IH.
Qed.

Lemma set_path_idem v p x : set_path (set_path v p x) p x = set_path v p x.
Proof.
  revert v. induction p as [|k p IH]; intros v; [done|].
  destruct v; try done. cbn [set_path].
  rewrite get_own_update, String.eqb_refl, IH, update_idem. done.
Qed.

Section Dialogue.
Variable x : string → value.

Let write (m : value) (k : string) : value := set_path m (dialogue_path k) (x k).
Let write_segments (s : value) (k : string) : value :=
  set_path s [k; "content"; "dialogue"] (x k).

Lemma fold_dialogue_object keys m :
  is_object (fold_left write keys m) = is_object m.
Proof.
  revert m. induction keys as [|k keys IH]; intros m; [done|].
  cbn [fold_left]. rewrite IH. apply is_object_set_path.
Qed.

Lemma fold_dialogue_field keys m f :
  is_object m = true →
  get_own (fold_left write keys m) f
  = if String.eqb "segments" f
    then fold_left write_segments keys (get_own m "segments")
    else get_own m f.
Proof.
  revert m. induction keys as [|k keys IH]; intros m Hm; cbn [fold_left].
  - by destruct (String.eqb_spec "segments" f) as [<-|].
  - rewrite IH by (by unfold write, dialogue_path; rewrite is_object_set_path).
    unfold write, write_segments, dialogue_path. rewrite !get_own_set_path by done.
    rewrite String.eqb_refl. by destruct (String.eqb "segments" f).
Qed.

Lemma fold_segments_object keys s :
  is_object (fold_left write_segments keys s) = is_object s.
Proof.
  revert s. induction keys as [|k keys IH]; intros s; [done|].
  cbn [fold_left]. rewrite IH. apply is_object_set_path.
Qed.

Lemma fold_segments_segment keys s k' :
  is_object s = true →
  get_own (fold_left write_segments keys s) k'
  = if bool_decide (k' ∈ keys)
    then set_path (get_own s k') ["content"; "dialogue"] (x k')
    else get_own s k'.
Proof.
  revert s. induction keys as [|k keys IH]; intros s Hs; cbn [fold_left]; [done|].
  rewrite IH by (by unfold write_segments; rewrite is_object_set_path).
  unfold write_segments. rewrite !get_own_set_path by done.
  destruct (String.eqb_spec k k') as [->|Hne].
  - rewrite set_path_idem. rewrite (bool_decide_eq_true_2 (k' ∈ k' :: keys)).
    + by destruct (bool_decide (k' ∈ keys)).
    + apply list_elem_of_here.
  - destruct (bool_decide (k' ∈ keys)) eqn:Hin.
    + apply bool_decide_eq_true in Hin.
      rewrite bool_decide_eq_true_2; [done|]. by apply list_elem_of_further.
    + apply bool_decide_eq_false in Hin.
      rewrite bool_decide_eq_false_2; [done|]. intros [?|?]%elem_of_cons; congruence.
Qed.
End Dialogue.

Ltac object_goal := rewrite ?fold_dialogue_object, ?is_object_set_path,
                      ?is_object_json_value; done.

Ltac read_resolved inst :=
  unfold resolved; cbv zeta;
  destruct (truthy (get_own inst "customizedChallenge"));
  destruct (truthy (get_own inst "customizedParticipants"));
  destruct (truthy (get_own inst "customizedEnvironment"));
  destruct (truthy (get_own inst "customizedDialogue"));
  rewrite ?fold_dialogue_field by object_goal;
  rewrite ?get_own_set_path by object_goal;
  compare_names;
  rewrite ?get_own_set_path by object_goal;
  compare_names;
  rewrite ?get_own_set_path by object_goal;
  compare_names;
  cbn [set_path];
  rewrite ?get_own_json by done.

Lemma resolved_object t inst : is_object t = true → is_object (resolved t inst) = true.
Proof.
  intros Ht. unfold resolved. cbv zeta.
  destruct (truthy (get_own inst "customizedChallenge"));
  destruct (truthy (get_own inst "customizedParticipants"));
  destruct (truthy (get_own inst "customizedEnvironment"));
  destruct (truthy (get_own inst "customizedDialogue")); object_goal.
Qed.

Lemma resolved_challenge t inst :
  is_object t = true →
  get_own (resolved t inst) "challenge"
  = if truthy (get_own inst "customizedChallenge")
    then assigned (json_value (get_own t "challenge")) (get_own inst "customizedChallenge")
    else json_value (get_own t "challenge").
Proof. intros Ht. read_resolved inst; done. Qed.

Lemma resolved_environment t inst :
  is_object t = true →
  get_own (resolved t inst) "environment"
  = if truthy (get_own inst "customizedEnvironment")
    then assigned (json_value (get_own t "environment"))
           (get_own inst "customizedEnvironment")
    else json_value (get_own t "environment").
Proof. intros Ht. read_resolved inst; done. Qed.

Lemma resolved_participants t inst :
  is_object t = true →
  get_own (resolved t inst) "participants"
  = if truthy (get_own inst "customizedParticipants")
    then get_own inst "customizedParticipants"
    else json_value (get_own t "participants").
Proof. intros Ht. read_resolved inst; done. Qed.

Lemma resolved_segments t inst :
  is_object t = true →
  get_own (resolved t inst) "segments"
  = if truthy (get_own inst "customizedDialogue")
    then fold_left (λ s k, set_path s [k; "content"; "dialogue"]
                             (get_own (get_own inst "customizedDialogue") k))
           (own_keys (get_own inst "customizedDialogue"))
           (json_value (get_own t "segments"))
    else json_value (get_own t "segments").
Proof. intros Ht. read_resolved inst; done. Qed.

Lemma resolved_name t inst :
  is_object t = true →
  get_own (resolved t inst) "name" = json_value (get_own t "name").
Proof. intros Ht. read_resolved inst; done. Qed.

Lemma own_keys_falsy v : truthy v = false → own_keys v = [].
Proof. destruct v as [| |b|n| |s|l|ps]; try done. by destruct s. Qed.

Lemma resolved_segment t inst k :
  is_object t = true →
  is_object (get_own t "segments") = true →
  get_path (resolved t inst) ["segments"; k]
  = if bool_decide (k ∈ own_keys (get_own inst "customizedDialogue"))
    then set_path (json_value (get_path t ["segments"; k])) ["content"; "dialogue"]
           (get_own (get_own inst "customizedDialogue") k)
    else json_value (get_path t ["segments"; k]).
Proof.
  intros Ht Hsegs. cbn [get_path]. rewrite resolved_segments by done.
  destruct (truthy (get_own inst "customizedDialogue")) eqn:Hcd.
  - rewrite fold_segments_segment by (by rewrite is_object_json_value).
    by rewrite get_own_json.
  - rewrite own_keys_falsy by done. by rewrite get_own_json.
Qed.

(** ** Typed members are plain data *)

Lemma is_string_stable v : is_string v = true → json_value v = v.
Proof. by destruct v. Qed.

Lemma is_boolean_stable v : is_boolean v = true → json_value v = v.
Proof. by destruct v. Qed.

Lemma strings_stable v : array_of is_string v = true → json_value v = v.
Proof.
  intros (l & -> & Hl)%array_of_inv. apply json_value_stable. cbn.
  apply forallb_forall. intros x Hx. eapply forallb_forall in Hl; [|exact Hx].
  by destruct x.
Qed.

Lemma is_Challenge_stable ch f :
  is_Challenge ch = true → f ∈ challenge_fields →
  json_value (get_own ch f) = get_own ch f.
Proof.
  intros Hch Hf. unfold is_Challenge, member in Hch. andb_split.
  unfold challenge_fields in Hf.
  repeat (apply elem_of_cons in Hf as [->|Hf];
          [first [by apply is_string_stable | by apply strings_stable
                 | by apply is_boolean_stable]|]).
  by apply elem_of_nil in Hf.
Qed.

Lemma is_Environment_stable env f :
  is_Environment env = true → f ∈ environment_fields →
  json_value (get_own env f) = get_own env f.
Proof.
  intros Henv Hf. unfold is_Environment, member in Henv. andb_split.
  unfold environment_fields in Hf.
  repeat (apply elem_of_cons in Hf as [->|Hf];
          [first [by apply is_string_stable | by apply strings_stable
                 | by apply is_boolean_stable]|]).
  by apply elem_of_nil in Hf.
Qed.

(** ** Instances of a reachable engine *)

Lemma assoc_elem_of k v (m : list (string * value)) : assoc k m = Some v → (k, v) ∈ m.
Proof.
  induction m as [|[k' v'] m IH]; [done|]. cbn.
  destruct (String.eqb_spec k k') as [->|_].
  - intros [= ->]. apply list_elem_of_here.
  - intros H. by apply list_elem_of_further, IH.
Qed.

Lemma registered_template URL e id t :
  reachable URL e → assoc id (templates e) = Some t →
  is_ChallengeTemplate t = true
  ∧ ValidationUtils.validateTemplate URL t = Ok ()
  ∧ get_own t "id" = VStr id.
Proof.
  intros [Hts _]%reachable_engine_ok Hassoc%assoc_elem_of.
  rewrite Forall_forall in Hts. exact (Hts _ Hassoc).
Qed.

(** The record of an accepted [createInstance] call merges without failure. *)
Lemma created_instance_merges URL e id t c en inst e' :
  reachable URL e →
  assoc id (templates e) = Some t →
  run (createInstance (VStr id) c en) e = (Ok inst, e') →
  mergeTemplateWithCustomizations t inst = Ok (resolved t inst)
  ∧ is_ChallengeTemplate t = true
  ∧ ∃ supplied,
      inst = new_instance (VStr id) (VStr (generateInstanceId en))
               (get_own supplied "challenge") (get_own supplied "participants")
               (get_own supplied "environment") (get_own supplied "dialogue")
      ∧ ValidationUtils.validateCustomizations t supplied = Ok ().
Proof.
  intros Hreach Hassoc Hrun.
  destruct (registered_template URL e id t Hreach Hassoc) as (Htyped & _ & _).
  destruct (createInstance_spec (VStr id) c en e)
    as [[_ Hfail]|(id' & t' & [= <-] & _ & Hobj & Hassoc' & Hvalid & Hrun')].
  { rewrite Hrun in Hfail. by destruct (Hfail inst). }
  rewrite Hrun in Hrun'. injection Hrun' as -> _.
  rewrite Hassoc in Hassoc'. injection Hassoc' as <-.
  split; [|split; [done|eauto]].
  apply mergeTemplateWithCustomizations_resolved; [done|done|].
  by eapply validateCustomizations_dialogue_keys.
Qed.

(** C1. Merge precedence.  Take a template of the registry of a reachable
    engine and an instance that [createInstance] accepted for it.  The merge
    succeeds, and in the resolved view every member of the challenge, and every
    member of the environment, has the value of the override when the override
    holds that member, and the value of the base template otherwise. *)
Theorem merge_precedence (URL_parses : string → bool) (e e' : TemplateEngine)
    (id : string) (template customizations instance : value) (en : entropy) :
  reachable URL_parses e →
  assoc id (templates e) = Some template →
  run (createInstance (VStr id) customizations en) e = (Ok instance, e') →
  ∃ merged,
    mergeTemplateWithCustomizations template instance = Ok merged
    ∧ (∀ f, f ∈ challenge_fields →
         get_path merged ["challenge"; f]
         = if bool_decide (f ∈ own_keys (get_own instance "customizedChallenge"))
           then get_own (get_own instance "customizedChallenge") f
           else get_path template ["challenge"; f])
    ∧ (∀ f, f ∈ environment_fields →
         get_path merged ["environment"; f]
         = if bool_decide (f ∈ own_keys (get_own instance "customizedEnvironment"))
           then get_own (get_own instance "customizedEnvironment") f
           else get_path template ["environment"; f]).
Proof.
  intros Hreach Hassoc Hrun.
  destruct (created_instance_merges _ _ _ _ _ _ _ _ Hreach Hassoc Hrun)
    as (Hmerge & Htyped & _).
  exists (resolved template instance). split; [done|].
  pose proof Htyped as (Ht & Hch & Henv & _)%is_ChallengeTemplate_objects.
  unfold is_ChallengeTemplate, member in Htyped. andb_split.
  cbn [get_path]. split; intros f Hf.
  - rewrite resolved_challenge by done.
    destruct (truthy (get_own instance "customizedChallenge")) eqn:Hcc.
    + destruct (is_object_inv (json_value (get_own template "challenge")))
        as [ps Hps]; [by rewrite is_object_json_value|].
      rewrite Hps, get_own_assigned. destruct (bool_decide _); [done|].
      rewrite <- Hps, get_own_json by done. by apply is_Challenge_stable.
    + rewrite own_keys_falsy by done. rewrite get_own_json by done.
      by apply is_Challenge_stable.
  - rewrite resolved_environment by done.
    destruct (truthy (get_own instance "customizedEnvironment")) eqn:Hce.
    + destruct (is_object_inv (json_value (get_own template "environment")))
        as [ps Hps]; [by rewrite is_object_json_value|].
      rewrite Hps, get_own_assigned. destruct (bool_decide _); [done|].
      rewrite <- Hps, get_own_json by done. by apply is_Environment_stable.
    + rewrite own_keys_falsy by done. rewrite get_own_json by done.
      by apply is_Environment_stable.
Qed.

Lemma fixture_engine_reachable : reachable starts_with_scheme fixture_engine.
Proof. apply reachable_call; [apply reachable_new|reflexivity]. Qed.

Lemma merge_precedence_witness :
  ∃ merged,
    mergeTemplateWithCustomizations OriginalChallengeTemplate racing_instance = Ok merged
    ∧ (∀ f, f ∈ challenge_fields →
         get_path merged ["challenge"; f]
         = if bool_decide (f ∈ own_keys (get_own racing_instance "customizedChallenge"))
           then get_own (get_own racing_instance "customizedChallenge") f
           else get_path OriginalChallengeTemplate ["challenge"; f])
    ∧ (∀ f, f ∈ environment_fields →
         get_path merged ["environment"; f]
         = if bool_decide (f ∈ own_keys (get_own racing_instance "customizedEnvironment"))
           then get_own (get_own racing_instance "customizedEnvironment") f
           else get_path OriginalChallengeTemplate ["environment"; f]).
Proof.
  apply (merge_precedence starts_with_scheme fixture_engine
           (run (createInstance (VStr "find-key-escape-room") racing_customizations
                   first_entropy) fixture_engine).2
           "find-key-escape-room" OriginalChallengeTemplate racing_customizations
           racing_instance first_entropy);
    [apply fixture_engine_reachable|reflexivity|reflexivity].
Defined.

(** ** Dialogue overrides *)

(** C4, as stated, fails.  The view is made from the JSON copy of the
    template, and the copy of a number that is not a number is [null]: with
    a gameplay segment whose start is not a number, a well-typed template
    that is registered, and a dialogue override that names the intro only,
    the gameplay segment of the view is not the one of the template. *)
Lemma unnamed_segment_is_not_preserved :
  let e := after starts_with_scheme (RegisterTemplate nan_start_template) new_engine in
  reachable starts_with_scheme e
  ∧ assoc "find-key-escape-room" (templates e) = Some nan_start_template
  ∧ ∃ instance e' merged,
      run (createInstance (VStr "find-key-escape-room") intro_customizations first_entropy) e
      = (Ok instance, e')
      ∧ mergeTemplateWithCustomizations nan_start_template instance = Ok merged
      ∧ own_keys (get_own instance "customizedDialogue") = ["intro"]
      ∧ get_path nan_start_template ["segments"; "gameplay"; "startTime"] = VNaN
      ∧ get_path merged ["segments"; "gameplay"; "startTime"] = VNull
      ∧ get_path merged ["segments"; "gameplay"]
        ≠ get_path nan_start_template ["segments"; "gameplay"].
Proof.
  cbv zeta. split; [apply reachable_call; [apply reachable_new|reflexivity]|].
  split; [vm_compute; reflexivity|].
  do 3 eexists. split; [vm_compute; reflexivity|].
  split; [vm_compute; reflexivity|].
  split; [reflexivity|]. split; [reflexivity|]. split; [reflexivity|].
  vm_compute. discriminate.
Qed.

(** C4 (amended).  Dialogue replacement with frame.  Take a template of the
    registry of a reachable engine and an instance that [createInstance]
    accepted for it.  In the resolved view, a segment that the dialogue
    override names has the sequence of the override as its dialogue, its
    other content (actions, visual elements) and its timing being those of
    the JSON copy of the base template; a segment that the override does not
    name is the segment of the JSON copy.  The JSON copy of a template that
    is plain data is the template itself. *)
Theorem dialogue_replacement (URL_parses : string → bool) (e e' : TemplateEngine)
    (id : string) (template customizations instance : value) (en : entropy) :
  reachable URL_parses e →
  assoc id (templates e) = Some template →
  run (createInstance (VStr id) customizations en) e = (Ok instance, e') →
  (∃ merged,
     mergeTemplateWithCustomizations template instance = Ok merged
     ∧ ∀ k,
         if bool_decide (k ∈ own_keys (get_own instance "customizedDialogue"))
         then get_path merged ["segments"; k; "content"; "dialogue"]
              = get_own (get_own instance "customizedDialogue") k
              ∧ (∀ f, f ≠ "dialogue" →
                   get_path merged ["segments"; k; "content"; f]
                   = get_path (json_value template) ["segments"; k; "content"; f])
              ∧ (∀ f, f ≠ "content" →
                   get_path merged ["segments"; k; f]
                   = get_path (json_value template) ["segments"; k; f])
         else get_path merged ["segments"; k]
              = get_path (json_value template) ["segments"; k])
  ∧ (json_stable template = true → json_value template = template).
Proof.
  intros Hreach Hassoc Hrun. split; [|apply json_value_stable].
  destruct (created_instance_merges _ _ _ _ _ _ _ _ Hreach Hassoc Hrun)
    as (Hmerge & Htyped & supplied & Hinst & Hvalid).
  exists (resolved template instance). split; [done|]. intros k.
  pose proof Htyped as (Ht & _ & _ & _ & Hsegs & Hall)%is_ChallengeTemplate_objects.
  assert (get_path (json_value template) ["segments"; k]
          = json_value (get_path template ["segments"; k])) as Hcopy.
  { cbn [get_path]. by rewrite !get_own_json. }
  change (get_path (resolved template instance) ["segments"; k; "content"; "dialogue"])
    with (get_path (get_path (resolved template instance) ["segments"; k])
            ["content"; "dialogue"]).
  assert (∀ f, get_path (resolved template instance) ["segments"; k; "content"; f]
               = get_path (get_path (resolved template instance) ["segments"; k])
                   ["content"; f]) as Hcontent by done.
  assert (∀ f, get_path (resolved template instance) ["segments"; k; f]
               = get_path (get_path (resolved template instance) ["segments"; k]) [f])
    as Hfield by done.
  assert (∀ f, get_path (json_value template) ["segments"; k; "content"; f]
               = get_path (get_path (json_value template) ["segments"; k]) ["content"; f])
    as Hcontent' by done.
  assert (∀ f, get_path (json_value template) ["segments"; k; f]
               = get_path (get_path (json_value template) ["segments"; k]) [f])
    as Hfield' by done.
  rewrite resolved_segment in * by done. rewrite Hcopy in *.
  destruct (bool_decide (k ∈ own_keys (get_own instance "customizedDialogue"))) eqn:Hk;
    [|done].
  apply bool_decide_eq_true in Hk.
  (* the override names a segment of the template *)
  assert (k ∈ segment_names) as Hname.
  { apply validateCustomizations_dialogue_keys in Hvalid.
    rewrite Hinst in Hk. change (get_own (new_instance _ _ _ _ _ _) "customizedDialogue")
      with (get_own supplied "dialogue") in Hk.
    destruct (truthy (get_own supplied "dialogue")) eqn:Hcd.
    - destruct (Hvalid Hcd) as [_ Hkeys]. rewrite Forall_forall in Hkeys. by apply Hkeys.
    - rewrite own_keys_falsy in Hk by done. by apply elem_of_nil in Hk. }
  rewrite Forall_forall in Hall. destruct (Hall k Hname) as [Hseg Hcont].
  cbn [get_path] in Hseg, Hcont.
  assert (is_object (json_value (get_own (get_own template "segments") k)) = true) as Hseg'
    by (by rewrite is_object_json_value).
  assert (is_object (get_own (json_value (get_own (get_own template "segments") k))
                       "content") = true) as Hcont'
    by (by rewrite get_own_json, is_object_json_value).
  cbn [get_path] in *.
  rewrite !get_own_set_path by done. rewrite !String.eqb_refl.
  rewrite !get_own_set_path by done. rewrite !String.eqb_refl.
  cbn [set_path]. split; [done|]. split.
  - intros f Hf. rewrite Hcontent, Hcontent'. cbn [get_path].
    rewrite !get_own_set_path by done. rewrite String.eqb_refl.
    rewrite get_own_set_path by done.
    by rewrite (proj2 (String.eqb_neq "dialogue" f)) by done.
  - intros f Hf. rewrite Hfield, Hfield'. cbn [get_path].
    rewrite get_own_set_path by done.
    by rewrite (proj2 (String.eqb_neq "content" f)) by done.
Qed.

Lemma dialogue_replacement_witness :
  (∃ merged,
     mergeTemplateWithCustomizations OriginalChallengeTemplate intro_instance = Ok merged
     ∧ ∀ k,
         if bool_decide (k ∈ own_keys (get_own intro_instance "customizedDialogue"))
         then get_path merged ["segments"; k; "content"; "dialogue"]
              = get_own (get_own intro_instance "customizedDialogue") k
              ∧ (∀ f, f ≠ "dialogue" →
                   get_path merged ["segments"; k; "content"; f]
                   = get_path (json_value OriginalChallengeTemplate)
                       ["segments"; k; "content"; f])
              ∧ (∀ f, f ≠ "content" →
                   get_path merged ["segments"; k; f]
                   = get_path (json_value OriginalChallengeTemplate) ["segments"; k; f])
         else get_path merged ["segments"; k]
              = get_path (json_value OriginalChallengeTemplate) ["segments"; k])
  ∧ (json_stable OriginalChallengeTemplate = true
     → json_value OriginalChallengeTemplate = OriginalChallengeTemplate).
Proof.
  apply (dialogue_replacement starts_with_scheme fixture_engine
           (run (createInstance (VStr "find-key-escape-room") intro_customizations
                   first_entropy) fixture_engine).2
           "find-key-escape-room" OriginalChallengeTemplate intro_customizations
           intro_instance first_entropy);
    [apply fixture_engine_reachable|reflexivity|reflexivity].
Defined.

(** ** The renderer *)

Lemma append_assoc (a b c : string) : (a +:+ b) +:+ c = a +:+ (b +:+ c).
Proof.
  induction a as [|x a IH]; [done|].
  change (String x ((a +:+ b) +:+ c) = String x (a +:+ b +:+ c)). by rewrite IH.
Qed.

Lemma dialogue_lines_ok l :
  Forall (λ x, is_nullish x = false) l →
  dialogue_lines (VArr l) = Ok (concat_str (map line_of l)).
Proof.
  intros Hl. unfold dialogue_lines.
  cut (mapM (λ d, speaker ← get d "speaker"; text ← get d "text";
                  Ok ("**" +:+ to_string speaker +:+ ":** " +:+ quoted (to_string text)
                      +:+ str1 10)) l = Ok (map line_of l)).
  { by intros ->. }
  induction Hl as [|d l Hd _ IH]; [done|].
  rewrite mapM_cons, !get_defined by done. rewrite !bind_Ok, IH. done.
Qed.

Lemma segment_lines_ok segment :
  is_object segment = true →
  is_object (get_own segment "content") = true →
  dialogue_ok (get_path segment ["content"; "dialogue"]) →
  segment_lines segment = Ok (lines_of segment).
Proof.
  intros Hseg Hcontent Hd. unfold segment_lines, lines_of. cbn [get_path] in *.
  repeat (first [rewrite bind_Ok; cbv beta
                | rewrite get_defined by (by apply is_object_defined)]).
  cbv zeta. destruct (truthy _) eqn:Htruthy; [|done].
  destruct (Hd Htruthy) as (l & -> & Hl). by apply dialogue_lines_ok.
Qed.

Lemma try_catch_Ok {A} (a : A) h : try_catch (Ok a) h = Ok a.
Proof. reflexivity. Qed.

Lemma createVideoScript_renderable m :
  renderable m →
  createVideoScript m
  = Ok (script_before_objective m +:+ to_string (get_path m ["challenge"; "objective"])
        +:+ script_after_objective m).
Proof.
  intros (Hm & Hch & Henv & Hps & (_ & Hsegs & Hall) & Hd).
  apply Forall_cons in Hall as [[Hi Hic] Hall]. apply Forall_cons in Hall as [[Hg Hgc] Hall].
  apply Forall_cons in Hall as [[Hc Hcc] _].
  apply Forall_cons in Hd as [Hid Hd]. apply Forall_cons in Hd as [Hgd Hd].
  apply Forall_cons in Hd as [Hcd _].
  cbn [get_path] in *.
  unfold createVideoScript.
  repeat (first [rewrite bind_Ok; cbv beta zeta
                | rewrite get_defined by (first [done | by apply is_object_defined])
                | rewrite segment_lines_ok by done ]).
  rewrite try_catch_Ok. f_equal.
  unfold script_before_objective, script_after_objective. cbn [get_path]. cbv zeta.
  rewrite !append_assoc. done.
Qed.

(** ** The resolved view can be rendered *)

Lemma truthy_defined v : truthy v = true → is_nullish v = false.
Proof. by destruct v. Qed.

Lemma has_segments_resolved t inst :
  is_ChallengeTemplate t = true → has_segments (resolved t inst).
Proof.
  intros (_ & _ & _ & Hsegs%has_segments_json)%is_ChallengeTemplate_objects.
  unfold resolved. cbv zeta.
  set (m1 := if truthy (get_own inst "customizedChallenge") then _ else _).
  assert (has_segments m1) as H1.
  { unfold m1. destruct (truthy (get_own inst "customizedChallenge")); [|done].
    by apply has_segments_set_field. }
  set (m2 := if truthy (get_own inst "customizedParticipants") then _ else _).
  assert (has_segments m2) as H2.
  { unfold m2. destruct (truthy (get_own inst "customizedParticipants")); [|done].
    by apply has_segments_set_field. }
  set (m3 := if truthy (get_own inst "customizedEnvironment") then _ else _).
  assert (has_segments m3) as H3.
  { unfold m3. destruct (truthy (get_own inst "customizedEnvironment")); [|done].
    by apply has_segments_set_field. }
  destruct (truthy (get_own inst "customizedDialogue")); [|done].
  generalize (own_keys (get_own inst "customizedDialogue")) as keys.
  clearbody m3. clear -H3. intros keys. revert m3 H3.
  induction keys as [|k keys IH]; intros m Hm; [done|].
  cbn [fold_left]. apply IH. by apply has_segments_set_dialogue.
Qed.

Lemma elements_dialogue_ok v :
  array_of is_DialogueElement v = true → dialogue_ok v.
Proof.
  intros (l & -> & Hl)%array_of_inv _. exists l. split; [done|].
  apply Forall_forall. intros d Hd%list_elem_of_In.
  eapply forallb_forall in Hl; [|exact Hd].
  unfold is_DialogueElement in Hl. andb_split. by apply is_object_defined.
Qed.

Lemma json_dialogue_ok v :
  array_of is_DialogueElement v = true → dialogue_ok (json_value v).
Proof.
  intros (l & -> & Hl)%array_of_inv _. cbn [json_value]. eexists. split; [done|].
  apply Forall_forall. intros d (x & -> & Hx%list_elem_of_In)%list_elem_of_fmap.
  eapply forallb_forall in Hl; [|exact Hx].
  unfold is_DialogueElement in Hl. andb_split. by destruct x.
Qed.

Lemma is_DialogueMap_member cd k :
  is_DialogueMap cd = true → k ∈ own_keys cd →
  array_of is_DialogueElement (get_own cd k) = true.
Proof.
  destruct cd as [| | | | | | |ps]; try discriminate. cbn [is_DialogueMap].
  intros Hps Hk. rewrite get_own_obj. unfold own_keys in Hk. cbn [own_props] in Hk.
  induction ps as [|[k0 v] ps IH]; [by apply elem_of_nil in Hk|].
  cbn in Hps. apply andb_prop in Hps as [Hv Hps]. cbn [assoc].
  destruct (String.eqb_spec k k0) as [->|Hne]; [done|].
  apply IH; [done|]. cbn in Hk. apply elem_of_cons in Hk as [?|?]; [congruence|done].
Qed.

Lemma is_ChallengeTemplate_dialogues t :
  is_ChallengeTemplate t = true →
  Forall (λ k, array_of is_DialogueElement
                 (get_path t ["segments"; k; "content"; "dialogue"]) = true)
    segment_names.
Proof.
  intros Ht. unfold is_ChallengeTemplate, member in Ht. andb_split.
  repeat match goal with
         | H : is_Segments _ = true |- _ => unfold is_Segments, member in H; andb_split
         | H : is_TimeSegment _ = true |- _ => unfold is_TimeSegment, member in H; andb_split
         | H : is_SegmentContent _ = true |- _ =>
             unfold is_SegmentContent, member in H; andb_split
         end.
  repeat constructor; done.
Qed.

Lemma resolved_renderable t inst c tid iid :
  is_ChallengeTemplate t = true →
  is_Customizations c = true →
  inst = new_instance tid iid (get_own c "challenge") (get_own c "participants")
           (get_own c "environment") (get_own c "dialogue") →
  renderable (resolved t inst).
Proof.
  intros Htyped Hc ->.
  set (inst := new_instance _ _ _ _ _ _).
  pose proof Htyped as (Ht & Hch & Henv & _ & Hsegs & Hall)%is_ChallengeTemplate_objects.
  pose proof (is_ChallengeTemplate_dialogues t Htyped) as Hdialogues.
  assert (∃ ps, get_own t "participants" = VArr ps) as [ps Hps].
  { unfold is_ChallengeTemplate, member in Htyped. andb_split.
    match goal with H : array_of _ _ = true |- _ => apply array_of_inv in H as (? & ? & _) end.
    eauto. }
  split; [by apply resolved_object|].
  split. { rewrite resolved_challenge by done.
           destruct (truthy _); apply is_object_defined;
             by rewrite ?is_object_assigned, is_object_json_value. }
  split. { rewrite resolved_environment by done.
           destruct (truthy _); apply is_object_defined;
             by rewrite ?is_object_assigned, is_object_json_value. }
  split. { rewrite resolved_participants by done.
           destruct (truthy _) eqn:E; [by apply truthy_defined|by rewrite Hps]. }
  split; [by apply has_segments_resolved|].
  rewrite Forall_forall in Hall, Hdialogues. apply Forall_forall. intros k Hk.
  destruct (Hall k Hk) as [Hseg Hcontent]. specialize (Hdialogues k Hk).
  change (get_path (resolved t inst) ["segments"; k; "content"; "dialogue"])
    with (get_path (get_path (resolved t inst) ["segments"; k]) ["content"; "dialogue"]).
  rewrite resolved_segment by done. cbn [get_path] in *.
  change (get_own inst "customizedDialogue") with (get_own c "dialogue").
  destruct (bool_decide (k ∈ own_keys (get_own c "dialogue"))) eqn:Hin.
  - apply bool_decide_eq_true in Hin.
    assert (is_object (json_value (get_own (get_own t "segments") k)) = true) as Hseg'
      by (by rewrite is_object_json_value).
    assert (is_object (get_own (json_value (get_own (get_own t "segments") k)) "content")
            = true) as Hcontent'
      by (by rewrite get_own_json, is_object_json_value).
    rewrite get_own_set_path, String.eqb_refl by done.
    rewrite get_own_set_path, String.eqb_refl by done. cbn [set_path].
    apply elements_dialogue_ok, is_DialogueMap_member; [|done].
    unfold is_Customizations, member in Hc. andb_split.
    destruct (get_own c "dialogue"); try done. by apply elem_of_nil in Hin.
  - rewrite !get_own_json by done. by apply json_dialogue_ok.
Qed.

(** ** Generated instance ids are not blank *)

Lemma ends_with_i_inv a w :
  ends_with_i (String a w) → (a = "i"%char ∧ w = EmptyString) ∨ ends_with_i w.
Proof. inversion 1; auto. Qed.

Lemma ends_with_i_nonempty w : ends_with_i w → w ≠ EmptyString.
Proof. by inversion 1. Qed.

Lemma trimStart_rev_anchored n w :
  (String.length w ≤ n)%nat → ends_with_i w → trimStart_rev w ≠ EmptyString.
Proof.
  revert w. induction n as [|n IH]; intros w Hlen Hw.
  { destruct w; [by inversion Hw|cbn in Hlen; lia]. }
  destruct w as [|c s1]; [by inversion Hw|]. cbn in Hlen.
  apply ends_with_i_inv in Hw as [[-> ->]|Hs1]; [done|].
  cbn [trimStart_rev]. destruct (ws1 c); [apply IH; [lia|done]|].
  destruct s1 as [|b s2]; [done|]. cbn in Hlen.
  destruct (ws2 b c) eqn:E2.
  { apply ends_with_i_inv in Hs1 as [[-> ->]|Hs2]; [done|]. apply IH; [lia|done]. }
  destruct s2 as [|a s3]; [done|]. cbn in Hlen.
  destruct (ws3 a b c) eqn:E3; [|done].
  apply ends_with_i_inv in Hs1 as [[_ [=]]|Hs2].
  apply ends_with_i_inv in Hs2 as [[-> ->]|Hs3]; [done|]. apply IH; [lia|done].
Qed.

Lemma rev_app_anchored s acc : ends_with_i acc → ends_with_i (String.rev_app s acc).
Proof.
  revert acc. induction s as [|a s IH]; intros acc Hacc; [done|].
  cbn. apply IH. by constructor.
Qed.

Lemma rev_app_nonempty s acc :
  s ≠ EmptyString ∨ acc ≠ EmptyString → String.rev_app s acc ≠ EmptyString.
Proof.
  revert acc. induction s as [|a s IH]; intros acc H; cbn.
  - by destruct H.
  - apply IH. by right.
Qed.

Lemma generateInstanceId_nonblank en :
  nonblank_text (VStr (generateInstanceId en)) = true.
Proof.
  unfold nonblank_text, generateInstanceId. apply negb_true_iff, String.eqb_neq.
  set (rest := pretty (now en) +:+ "_" +:+ substr 2 9 (random36 en)).
  change ("instance_" +:+ rest)
    with (String "i" (String "n" (String "s" ("tance_" +:+ rest)))).
  unfold trim. change (trimStart (String "i" (String "n" (String "s" ("tance_" +:+ rest)))))
    with (String "i" (String "n" (String "s" ("tance_" +:+ rest)))).
  unfold trimEnd, String.rev. apply rev_app_nonempty. left.
  apply (trimStart_rev_anchored _ _ (Nat.le_refl _)).
  cbn [String.rev_app]. apply rev_app_anchored. do 2 constructor. constructor.
Qed.

(** ** Script generation *)

Lemma stored_instance URL e id inst :
  reachable URL e → assoc id (instances e) = Some inst →
  instance_ok (templates e) (id, inst).
Proof.
  intros [_ His]%reachable_engine_ok Hassoc%assoc_elem_of.
  rewrite Forall_forall in His. exact (His _ Hassoc).
Qed.

Lemma map_get_assoc m k v : assoc k m = Some v → map_get m (VStr k) = v.
Proof. unfold map_get. by intros ->. Qed.

Lemma getTemplate_registered e id t :
  nonblank_text (VStr id) = true → assoc id (templates e) = Some t → truthy t = true →
  run (getTemplate (VStr id)) e = (Ok t, e).
Proof.
  intros Hid Ht Htruthy. unfold getTemplate. do 2 run_step.
  rewrite validateInput_string_ok by done. run_step. cbn [run this].
  rewrite (map_get_assoc _ _ _ Ht), Htruthy. done.
Qed.

(** When every step succeeds, the script is what the merge and the renderer
    make of the template and the instance, whatever else the engine holds. *)
Lemma generateScript_renders e id inst tid t script :
  nonblank_text (VStr id) = true →
  assoc id (instances e) = Some inst →
  truthy inst = true →
  get_own inst "templateId" = VStr tid →
  nonblank_text (VStr tid) = true →
  assoc tid (templates e) = Some t →
  truthy t = true →
  (mergeTemplateWithCustomizations t inst ≫= createVideoScript) = Ok script →
  run (generateScript (VStr id)) e = (Ok script, e).
Proof.
  intros Hid Hinst Htruthy Htid Hnonblank Ht Htemplate Hscript.
  unfold generateScript. do 2 run_step. rewrite validateInput_string_ok by done.
  run_step. cbn [run this]. rewrite (map_get_assoc _ _ _ Hinst), Htruthy. cbn [negb].
  unfold try_catchM. cbn [run]. do 2 run_step.
  rewrite get_defined by (by apply truthy_defined). rewrite Htid. run_step.
  rewrite (getTemplate_registered e tid t) by done.
  destruct (mergeTemplateWithCustomizations t inst) as [merged| |]; try discriminate.
  rewrite bind_Ok in Hscript. do 2 run_step. by rewrite run_lift, Hscript.
Qed.

(** The script of a stored instance: the rendering of the resolved view. *)
Lemma generateScript_stored URL e id inst :
  reachable URL e →
  assoc id (instances e) = Some inst →
  ∃ tid t,
    get_own inst "templateId" = VStr tid
    ∧ assoc tid (templates e) = Some t
    ∧ is_ChallengeTemplate t = true
    ∧ run (generateScript (VStr id)) e
      = (Ok (script_before_objective (resolved t inst)
             +:+ to_string (get_path (resolved t inst) ["challenge"; "objective"])
             +:+ script_after_objective (resolved t inst)), e).
Proof.
  intros Hreach Hassoc.
  destruct (stored_instance URL e id inst Hreach Hassoc)
    as (tid & c & t & en & Hid & Hinst & Htid & Hc & Ht & Hvalid).
  cbn [fst snd] in *.
  destruct (registered_template URL e tid t Hreach Ht) as (Htyped & _ & _).
  exists tid, t. split; [by rewrite Hinst|]. split; [done|]. split; [done|].
  unfold generateScript. do 2 run_step.
  rewrite validateInput_string_ok by (rewrite Hid; apply generateInstanceId_nonblank).
  run_step. cbn [run this]. rewrite (map_get_assoc _ _ _ Hassoc).
  assert (is_object inst = true) as Hobj by (by rewrite Hinst).
  rewrite is_object_truthy by done. cbn [negb].
  unfold try_catchM. cbn [run]. do 2 run_step.
  rewrite get_defined by (by apply is_object_defined).
  replace (get_own inst "templateId") with (VStr tid) by (by rewrite Hinst).
  run_step.
  assert (run (getTemplate (VStr tid)) e = (Ok t, e)) as ->.
  { unfold getTemplate. do 2 run_step. rewrite validateInput_string_ok by done.
    run_step. cbn [run this]. rewrite (map_get_assoc _ _ _ Ht).
    rewrite is_object_truthy by (by apply is_ChallengeTemplate_objects). done. }
  do 2 run_step.
  rewrite mergeTemplateWithCustomizations_resolved; [|done|done|].
  2:{ rewrite Hinst. by eapply validateCustomizations_dialogue_keys. }
  rewrite run_lift.
  rewrite createVideoScript_renderable; [done|].
  by eapply resolved_renderable.
Qed.

(** C7. Idempotent read.  [generateScript] leaves the engine, registry and
    instance store, as it found it, so that a second call in succession
    returns what the first returned, whatever the argument; and for the id
    of an instance that the store of a reachable engine holds, what it
    returns is the text of the script. *)
Theorem generateScript_idempotent (URL_parses : string → bool) :
  (∀ e instanceId,
     (run (generateScript instanceId) e).2 = e
     ∧ run (generateScript instanceId) (run (generateScript instanceId) e).2
       = run (generateScript instanceId) e)
  ∧ (∀ e id instance,
       reachable URL_parses e →
       assoc id (instances e) = Some instance →
       ∃ script,
         run (generateScript (VStr id)) e = (Ok script, e)
         ∧ run (generateScript (VStr id)) (run (generateScript (VStr id)) e).2
           = (Ok script, e)).
Proof.
  split.
  - intros e instanceId. pose proof (generateScript_reads_only instanceId e) as H.
    split; [done|]. by rewrite H.
  - intros e id instance Hreach Hassoc.
    destruct (generateScript_stored _ _ _ _ Hreach Hassoc) as (tid & t & _ & _ & _ & Hrun).
    eexists. rewrite Hrun. split; [done|]. cbn [snd]. exact Hrun.
Qed.

Lemma two_instances_engine_reachable : reachable starts_with_scheme two_instances_engine.
Proof.
  apply reachable_call; [|reflexivity].
  apply reachable_call; [|reflexivity].
  apply fixture_engine_reachable.
Qed.

Lemma generateScript_idempotent_witness :
  ∃ script,
    run (generateScript (VStr (generateInstanceId first_entropy))) two_instances_engine
    = (Ok script, two_instances_engine)
    ∧ run (generateScript (VStr (generateInstanceId first_entropy)))
        (run (generateScript (VStr (generateInstanceId first_entropy)))
           two_instances_engine).2
      = (Ok script, two_instances_engine).
Proof.
  eapply (proj2 (generateScript_idempotent starts_with_scheme) two_instances_engine
            (generateInstanceId first_entropy));
    [apply two_instances_engine_reachable|reflexivity].
Defined.

(** ** Instances that differ in the objective *)

Lemma assoc_key k v (ps : list (string * value)) : assoc k ps = Some v → k ∈ ps.*1.
Proof.
  intros H%assoc_elem_of. apply list_elem_of_fmap. by exists (k, v).
Qed.

(** An override that holds an objective text is an override that is there. *)
Lemma objective_present cc o :
  get_own cc "objective" = VStr o →
  truthy cc = true ∧ "objective" ∈ own_keys cc.
Proof.
  intros H. assert ("objective" ∈ own_keys cc) as Hin.
  { unfold get_own in H. destruct (assoc "objective" (own_props cc)) eqn:E.
    - by eapply assoc_key.
    - cbn in H. discriminate. }
  split; [|done]. destruct (truthy cc) eqn:E; [done|].
  rewrite own_keys_falsy in Hin by done. by apply elem_of_nil in Hin.
Qed.

Lemma resolved_objective t inst o :
  is_ChallengeTemplate t = true →
  get_path inst ["customizedChallenge"; "objective"] = VStr o →
  get_path (resolved t inst) ["challenge"; "objective"] = VStr o.
Proof.
  intros (Ht & Hch & _)%is_ChallengeTemplate_objects Ho. cbn [get_path] in *.
  destruct (objective_present _ _ Ho) as [Htruthy Hin].
  rewrite resolved_challenge, Htruthy by done.
  destruct (is_object_inv (json_value (get_own t "challenge"))) as [ps ->];
    [by rewrite is_object_json_value|].
  rewrite get_own_assigned. by rewrite bool_decide_eq_true_2.
Qed.

(** The text around the objective is read from the name, the environment, the
    participants and the segments of the view. *)
Lemma script_around_objective m m' :
  get_own m "name" = get_own m' "name" →
  get_own m "environment" = get_own m' "environment" →
  get_own m "participants" = get_own m' "participants" →
  get_own m "segments" = get_own m' "segments" →
  script_before_objective m = script_before_objective m'
  ∧ script_after_objective m = script_after_objective m'.
Proof.
  intros Hn He Hp Hs. unfold script_before_objective, script_after_objective.
  cbn [get_path]. by rewrite Hn, He, Hp, Hs.
Qed.

Lemma resolved_agree t instA instB :
  is_object t = true →
  get_own instA "customizedParticipants" = get_own instB "customizedParticipants" →
  get_own instA "customizedEnvironment" = get_own instB "customizedEnvironment" →
  get_own instA "customizedDialogue" = get_own instB "customizedDialogue" →
  script_before_objective (resolved t instA) = script_before_objective (resolved t instB)
  ∧ script_after_objective (resolved t instA) = script_after_objective (resolved t instB).
Proof.
  intros Ht Hp He Hd. apply script_around_objective.
  - by rewrite !resolved_name.
  - by rewrite !resolved_environment, He.
  - by rewrite !resolved_participants, Hp.
  - by rewrite !resolved_segments, Hd.
Qed.

(** C6, as stated, fails, by a coincidence of texts: of two instances of
    the fixture that differ in the objective only, [Test] and [Test 2], the
    script of the second contains the objective text of the first, as its own
    objective does. *)
Lemma objective_text_occurs_in_other_script :
  let first := VStr (generateInstanceId first_entropy) in
  let second := VStr (generateInstanceId second_entropy) in
  get_path (map_get (instances two_instances_engine) first)
    ["customizedChallenge"; "objective"] = VStr "Test"
  ∧ get_path (map_get (instances two_instances_engine) second)
      ["customizedChallenge"; "objective"] = VStr "Test 2"
  ∧ omit "customizedChallenge" (omit "instanceId"
      (map_get (instances two_instances_engine) first))
    = omit "customizedChallenge" (omit "instanceId"
        (map_get (instances two_instances_engine) second))
  ∧ ∃ script,
      run (generateScript second) two_instances_engine = (Ok script, two_instances_engine)
      ∧ includes_str "Test" script = true.
Proof.
  cbv zeta. split; [reflexivity|]. split; [reflexivity|]. split; [reflexivity|].
  eexists. split; [vm_compute; reflexivity|]. vm_compute. reflexivity.
Qed.

(** On the objectives of the repository's own test, [Test 1] and [Test 2],
    neither text occurs in the other script: each script holds its own
    objective and not the other one. *)
Lemma test_objectives_stay_apart :
  ∃ script1 script2,
    run (generateScript (VStr (generateInstanceId first_entropy))) test_instances_engine
    = (Ok script1, test_instances_engine)
    ∧ run (generateScript (VStr (generateInstanceId second_entropy))) test_instances_engine
      = (Ok script2, test_instances_engine)
    ∧ includes_str "Test 1" script1 = true
    ∧ includes_str "Test 2" script2 = true
    ∧ includes_str "Test 2" script1 = false
    ∧ includes_str "Test 1" script2 = false.
Proof.
  do 2 eexists. split; [vm_compute; reflexivity|]. split; [vm_compute; reflexivity|].
  repeat split; vm_compute; reflexivity.
Qed.

(** The scripts of two stored instances of one template whose overrides agree
    outside the challenge are the same text around their objectives. *)
Lemma scripts_differ_in_objective URL e idA idB instA instB oA oB :
  reachable URL e →
  assoc idA (instances e) = Some instA →
  assoc idB (instances e) = Some instB →
  get_own instA "templateId" = get_own instB "templateId" →
  get_own instA "customizedParticipants" = get_own instB "customizedParticipants" →
  get_own instA "customizedEnvironment" = get_own instB "customizedEnvironment" →
  get_own instA "customizedDialogue" = get_own instB "customizedDialogue" →
  get_path instA ["customizedChallenge"; "objective"] = VStr oA →
  get_path instB ["customizedChallenge"; "objective"] = VStr oB →
  ∃ before after,
    run (generateScript (VStr idA)) e = (Ok (before +:+ oA +:+ after), e)
    ∧ run (generateScript (VStr idB)) e = (Ok (before +:+ oB +:+ after), e).
Proof.
  intros Hreach HA HB Htid Hp He Hd HoA HoB.
  destruct (generateScript_stored _ _ _ _ Hreach HA) as (tid & t & HtidA & Ht & Htyped & HrunA).
  destruct (generateScript_stored _ _ _ _ Hreach HB)
    as (tid' & t' & HtidB & Ht' & _ & HrunB).
  assert (tid' = tid) as -> by congruence.
  assert (t' = t) as -> by congruence.
  rewrite (resolved_objective t instA oA) in HrunA by done.
  rewrite (resolved_objective t instB oB) in HrunB by done.
  destruct (resolved_agree t instA instB) as [Hbefore Hafter]; try done.
  { by apply is_ChallengeTemplate_objects. }
  rewrite <- Hbefore, <- Hafter in HrunB.
  exists (script_before_objective (resolved t instA)),
         (script_after_objective (resolved t instA)).
  by split.
Qed.

(** * The merge on the heap *)

(** ** Cells and writes *)

Lemma lookup_write_ne h c k y l : l ≠ c → Heap.write h c k y !! l = h !! l.
Proof.
  intros Hne. unfold Heap.write. destruct (h !! c) as [[]|]; [done| |done].
  by rewrite list_lookup_insert_ne.
Qed.

Lemma length_write h c k y : length (Heap.write h c k y) = length h.
Proof.
  unfold Heap.write. destruct (h !! c) as [[]|]; [done| |done].
  by rewrite length_insert.
Qed.

Lemma lookup_write_eq h c k y ps :
  h !! c = Some (Heap.CObj ps) →
  Heap.write h c k y !! c = Some (Heap.CObj (update k y ps)).
Proof.
  intros H. unfold Heap.write. rewrite H. apply list_lookup_insert_eq.
  by eapply lookup_lt_Some.
Qed.

(** ** Aligned property lists *)

Lemma aligned_assoc {A B} (R : A → B → Prop) xps vps k :
  Heap.aligned R xps vps → option_Forall2 R (assoc k xps) (assoc k vps).
Proof.
  induction 1 as [|[k1 x] [k2 v] xps vps [Hk HR] _ IH]; cbn in *; [constructor|].
  subst k2. destruct (String.eqb k k1); [by constructor|done].
Qed.

Lemma aligned_keys {A B} (R : A → B → Prop) xps vps :
  Heap.aligned R xps vps → xps.*1 = vps.*1.
Proof.
  induction 1 as [|[k1 x] [k2 v] xps vps [Hk HR] _ IH]; cbn in *; [done|].
  by rewrite Hk, IH.
Qed.

Lemma aligned_indexed {A B A' B'} (R : A → B → Prop) (R' : A' → B' → Prop) f f' xs vs :
  (∀ x v, R x v → R' (f x) (f' v)) →
  Forall2 R xs vs → Heap.aligned R' (indexed f xs) (indexed f' vs).
Proof.
  intros Hf H. unfold indexed. generalize key_of_index.
  induction H as [|x v xs vs HR _ IH]; intros g; cbn; [constructor|].
  constructor; [by split; [|apply Hf]|]. apply IH.
Qed.

(** ** Values from before *)

Lemma old_mono base h h' x v :
  (∀ l, (l < base)%nat → h' !! l = h !! l) →
  Heap.old base h x v → Heap.old base h' x v.
Proof.
  intros Hagree. revert x v.
  apply (Heap.old_mut base h (λ x v, Heap.old base h' x v)
           (λ xps vps, Heap.olds base h' xps vps)); try by constructor.
  - intros l xs vs Hl Hc _ IH. eapply Heap.old_arr; [done|by rewrite Hagree|done].
  - intros l xps vps Hl Hc _ IH. eapply Heap.old_obj; [done|by rewrite Hagree|done].
Qed.

Lemma olds_aligned base h xps vps :
  Heap.olds base h xps vps → Heap.aligned (Heap.old base h) xps vps.
Proof. induction 1; constructor; done. Qed.

Lemma olds_anon base h xs vs :
  Heap.olds base h (Heap.anon xs) (Heap.anon vs) → Forall2 (Heap.old base h) xs vs.
Proof.
  revert vs. induction xs as [|x xs IH]; intros [|v vs] H; inversion H; subst;
    constructor; [done|by apply IH].
Qed.

Lemma old_get_own base h x v k :
  Heap.old base h x v → Heap.old base h (Heap.get_own h x k) (get_own v k).
Proof.
  assert (∀ xps vps xl vl,
            Heap.aligned (Heap.old base h) xps vps → Heap.old base h xl vl →
            Heap.old base h
              (match assoc k xps with
               | Some y => y
               | None => if String.eqb k "length" then xl else Heap.HUndef
               end)
              (match assoc k vps with
               | Some y => y
               | None => if String.eqb k "length" then vl else VUndef
               end)) as Hsel.
  { intros xps vps xl vl Hal Hl.
    destruct (aligned_assoc _ _ _ k Hal); [done|].
    destruct (String.eqb k "length"); [done|constructor]. }
  destruct 1 as [| | | | |s|l xs vs Hl Hc Hxs|l xps vps Hl Hc Hps];
    unfold Heap.get_own, get_own; cbn [Heap.own_props own_props].
  1-5: apply (Hsel [] []); constructor.
  - apply Hsel; [|constructor].
    eapply (aligned_indexed eq); [|apply Forall_Forall2_diag, Forall_true; done].
    intros ? ? ->. constructor.
  - rewrite Hc. apply olds_anon in Hxs. apply Hsel.
    + by eapply aligned_indexed.
    + rewrite (Forall2_length _ _ _ Hxs). constructor.
  - rewrite Hc. apply (Hsel xps vps Heap.HUndef VUndef); [|constructor].
    by apply olds_aligned.
Qed.

Lemma old_truthy base h x v : Heap.old base h x v → Heap.truthy x = truthy v.
Proof. by destruct 1. Qed.

Lemma old_nullish base h x v : Heap.old base h x v → Heap.is_nullish x = is_nullish v.
Proof. by destruct 1. Qed.

Lemma old_own_keys base h x v : Heap.old base h x v → Heap.own_keys h x = own_keys v.
Proof.
  destruct 1 as [| | | | |s|l xs vs Hl Hc Hxs|l xps vps Hl Hc Hps];
    unfold Heap.own_keys, own_keys; cbn [Heap.own_props own_props]; try done.
  - eapply (aligned_keys (Heap.old base h)), (aligned_indexed eq);
      [|apply Forall_Forall2_diag, Forall_true; done].
    intros ? ? ->. constructor.
  - rewrite Hc. eapply aligned_keys, aligned_indexed; [|by apply olds_anon]. done.
  - rewrite Hc. eapply aligned_keys. by apply olds_aligned.
Qed.

Lemma old_get_path base h x v p :
  Heap.old base h x v → Heap.old base h (Heap.get_path h x p) (get_path v p).
Proof.
  revert x v. induction p as [|k p IH]; intros x v H; [done|].
  cbn. by apply IH, old_get_own.
Qed.

Lemma old_ref_lt base h l v : Heap.old base h (Heap.HRef l) v → (l < base)%nat.
Proof. by inversion 1. Qed.

(** ** What a value reaches *)

Lemma assoc_imap_elem_of {A V} (f : A → V) (g : nat → string) k l y :
  assoc k (imap (λ i x, (g i, f x)) l) = Some y → ∃ x, x ∈ l ∧ y = f x.
Proof.
  revert g. induction l as [|x l IH]; intros g; cbn; [done|].
  destruct (String.eqb k (g 0%nat)).
  - intros [= <-]. exists x. split; [left|done].
  - intros (x' & Hin & ->)%IH. exists x'. split; [by right|done].
Qed.

Lemma assoc_Some_elem_of {V} k (ps : list (string * V)) y :
  assoc k ps = Some y → (k, y) ∈ ps.
Proof.
  induction ps as [|[k' v] ps IH]; cbn; [done|].
  destruct (String.eqb_spec k k') as [->|Hne].
  - intros [= ->]. left.
  - intros H. right. by apply IH.
Qed.

(** What a property read returns: a primitive, or a part of the cell. *)
Lemma get_own_cases h x k :
  (∀ l, Heap.get_own h x k ≠ Heap.HRef l)
  ∨ ∃ m, x = Heap.HRef m
         ∧ ((∃ xs, h !! m = Some (Heap.CArr xs) ∧ Heap.get_own h x k ∈ xs)
            ∨ (∃ ps, h !! m = Some (Heap.CObj ps) ∧ (k, Heap.get_own h x k) ∈ ps)).
Proof.
  unfold Heap.get_own. destruct x as [| | | | |s|m]; cbn [Heap.own_props].
  1-5: left; cbn; by destruct (String.eqb k "length").
  - left. intros l.
    destruct (assoc k _) as [y|] eqn:E.
    + apply assoc_imap_elem_of in E as (c & _ & ->). done.
    + by destruct (String.eqb k "length").
  - destruct (h !! m) as [[xs|ps]|] eqn:Hc.
    + destruct (assoc k _) as [y|] eqn:E.
      * apply assoc_imap_elem_of in E as (y' & Hin & ->).
        right. exists m. split; [done|]. left. by exists xs.
      * left. by destruct (String.eqb k "length").
    + destruct (assoc k ps) as [y|] eqn:E.
      * right. exists m. split; [done|]. right. exists ps. split; [done|].
        by apply assoc_Some_elem_of.
      * left. by destruct (String.eqb k "length").
    + left. cbn. by destruct (String.eqb k "length").
Qed.

Lemma reaches_get_own h x k l :
  Heap.reaches h (Heap.get_own h x k) l → Heap.reaches h x l.
Proof.
  destruct (get_own_cases h x k) as [Hprim|(m & -> & [(xs & Hc & Hin)|(ps & Hc & Hin)])].
  - inversion 1; subst; by edestruct Hprim.
  - intros Hr. by eapply Heap.reaches_elt.
  - intros Hr. by eapply Heap.reaches_prop.
Qed.

Lemma reaches_get_path h x p l :
  Heap.reaches h (Heap.get_path h x p) l → Heap.reaches h x l.
Proof.
  revert x. induction p as [|k p IH]; intros x; [done|].
  cbn. intros Hr. by eapply reaches_get_own, IH.
Qed.

Lemma olds_elem_of base h xps k x :
  ∀ vps, Heap.olds base h xps vps → (k, x) ∈ xps → ∃ v, Heap.old base h x v.
Proof.
  induction xps as [|[k' x'] xps IH]; intros vps Holds Hin; [by inversion Hin|].
  inversion Holds; subst. apply elem_of_cons in Hin as [[= -> ->]|Hin]; eauto.
Qed.

Lemma olds_anon_elem_of base h xs vs x :
  Heap.olds base h (Heap.anon xs) (Heap.anon vs) → x ∈ xs → ∃ v, Heap.old base h x v.
Proof.
  intros Holds Hin. eapply (olds_elem_of _ _ _ EmptyString); [exact Holds|].
  unfold Heap.anon. apply list_elem_of_fmap. by exists x.
Qed.

(** An old value reaches old cells only, and the same ones in every heap that
    has the old cells. *)
Lemma old_reaches base h h' x v l :
  (∀ l, (l < base)%nat → h' !! l = h !! l) →
  Heap.old base h x v → Heap.reaches h x l →
  (l < base)%nat ∧ Heap.reaches h' x l.
Proof.
  intros Hagree Hold Hr. revert v Hold.
  induction Hr as [l|m xs y l Hc Hin Hr IH|m ps k y l Hc Hin Hr IH]; intros v Hold.
  - apply old_ref_lt in Hold. split; [done|constructor].
  - inversion Hold as [| | | | | |? xs' vs Hm Hc' Holds|? xps vps Hm Hc' Holds];
      simplify_eq.
    destruct (olds_anon_elem_of _ _ _ _ _ Holds Hin) as [vy Hy].
    destruct (IH _ Hy) as [Hl Hr']. split; [done|].
    eapply Heap.reaches_elt; [by rewrite Hagree|done|done].
  - inversion Hold as [| | | | | |? xs' vs Hm Hc' Holds|? xps vps Hm Hc' Holds];
      simplify_eq.
    destruct (olds_elem_of _ _ _ _ _ _ Holds Hin) as [vy Hy].
    destruct (IH _ Hy) as [Hl Hr']. split; [done|].
    eapply Heap.reaches_prop; [by rewrite Hagree|done|done].
Qed.

(** ** Reading a value back *)

Lemma each_Some {A B} (f : A → option B) l k :
  Heap.each f l = Some k ↔ Forall2 (λ x y, f x = Some y) l k.
Proof.
  revert k. induction l as [|x l IH]; intros k; cbn.
  - split; [intros [= <-]; constructor|by inversion 1].
  - destruct (f x) as [y|] eqn:Hx.
    + fold (Heap.each f l). destruct (Heap.each f l) as [ys|] eqn:Hl.
      * split.
        -- intros [= <-]. constructor; [done|]. by apply IH.
        -- inversion 1 as [|? y' ? ys' Hy Hys]; subst.
           apply IH in Hys. by simplify_eq.
      * split; [done|]. inversion 1 as [|? y' ? ys' Hy Hys]; subst.
        apply IH in Hys. done.
    + split; [by destruct (Heap.each f l)|]. inversion 1; congruence.
Qed.

Lemma aligned_olds base h xps vps :
  Heap.aligned (Heap.old base h) xps vps → Heap.olds base h xps vps.
Proof.
  induction 1 as [|[k x] [k' v] xps vps [Hk Hold] _ IH]; cbn in *; subst; by constructor.
Qed.

Lemma Forall2_olds_anon base h xs vs :
  Forall2 (Heap.old base h) xs vs → Heap.olds base h (Heap.anon xs) (Heap.anon vs).
Proof. induction 1; cbn; by constructor. Qed.

Lemma read_old fuel h x v : Heap.read fuel h x = Some v → Heap.old (length h) h x v.
Proof.
  revert x v. induction fuel as [|fuel IH]; intros x v.
  - destruct x; cbn; intros [= <-]; constructor.
  - destruct x as [| | | | | |l]; cbn; try (intros [= <-]; constructor).
    destruct (h !! l) as [[xs|ps]|] eqn:Hc; [| |done].
    + destruct (Heap.each _ xs) as [vs|] eqn:E; [|done]. cbn. intros [= <-].
      apply each_Some in E. eapply Heap.old_arr; [by eapply lookup_lt_Some|done|].
      apply Forall2_olds_anon. eapply Forall2_impl; [exact E|]. apply IH.
    + destruct (Heap.each _ ps) as [vps|] eqn:E; [|done]. cbn. intros [= <-].
      apply each_Some in E. eapply Heap.old_obj; [by eapply lookup_lt_Some|done|].
      apply aligned_olds. eapply Forall2_impl; [exact E|].
      intros [k y] [k' vy]. cbn. destruct (Heap.read fuel h y) eqn:Hy; [|done].
      intros [= <- <-]. split; [done|]. by apply IH.
Qed.

Lemma old_read base h x v :
  Heap.old base h x v → ∃ n, ∀ fuel, (n ≤ fuel)%nat → Heap.read fuel h x = Some v.
Proof.
  revert x v.
  apply (Heap.old_mut base h
           (λ x v, ∃ n, ∀ fuel, (n ≤ fuel)%nat → Heap.read fuel h x = Some v)
           (λ xps vps, ∃ n, ∀ fuel, (n ≤ fuel)%nat →
              Forall2 (λ p q, p.1 = q.1 ∧ Heap.read fuel h p.2 = Some q.2) xps vps)).
  1-6: intros; exists 0%nat; intros [|fuel] _; reflexivity.
  - intros l xs vs Hl Hc _ [n Hn]. exists (S n). intros [|fuel] Hle; [lia|].
    cbn. rewrite Hc.
    assert (Heap.each (Heap.read fuel h) xs = Some vs) as ->; [|done].
    apply each_Some. specialize (Hn fuel ltac:(lia)).
    clear -Hn. revert vs Hn. induction xs as [|x xs IH]; intros [|v vs] H;
      inversion H; subst; constructor; [by destruct_and?|by apply IH].
  - intros l xps vps Hl Hc _ [n Hn]. exists (S n). intros [|fuel] Hle; [lia|].
    cbn. rewrite Hc.
    match goal with |- _ <$> ?e = _ => assert (e = Some vps) as ->; [|done] end.
    apply each_Some. eapply Forall2_impl; [apply (Hn fuel); lia|].
    intros [k y] [k' vy] [Hk Hy]. cbn in *. by rewrite Hy, Hk.
  - exists 0%nat. constructor.
  - intros k x v xps vps _ [n Hn] _ [n' Hn']. exists (n `max` n')%nat.
    intros fuel Hle. constructor; [split; [done|apply Hn; lia]|apply Hn'; lia].
Qed.

(** ** Fresh trees *)

Section fresh_trees.
Variable leaf : Heap.hval → Prop.
Variable base : nat.
Hypothesis leaf_prim : ∀ x, (∀ l, x ≠ Heap.HRef l) → leaf x.

Local Abbreviation rep := (Heap.rep leaf base).
Local Abbreviation reps := (Heap.reps leaf base).
Local Abbreviation old := (Heap.old base).

Lemma rep_reps_le h :
  (∀ lo hi x v, rep h lo hi x v → (lo ≤ hi)%nat)
  ∧ (∀ lo hi xps vps, reps h lo hi xps vps → (lo ≤ hi)%nat).
Proof. apply Heap.rep_reps_ind; intros; lia. Qed.

Lemma rep_le h lo hi x v : rep h lo hi x v → (lo ≤ hi)%nat.
Proof. apply rep_reps_le. Qed.

Lemma reps_le h lo hi xps vps : reps h lo hi xps vps → (lo ≤ hi)%nat.
Proof. apply rep_reps_le. Qed.

(** A fresh tree depends on its own cells and on the old ones only. *)
Lemma rep_reps_mono h h' :
  (∀ lo hi x v, rep h lo hi x v →
     (∀ l, (l < base ∨ lo ≤ l < hi)%nat → h' !! l = h !! l) → rep h' lo hi x v)
  ∧ (∀ lo hi xps vps, reps h lo hi xps vps →
       (∀ l, (l < base ∨ lo ≤ l < hi)%nat → h' !! l = h !! l) → reps h' lo hi xps vps).
Proof.
  apply Heap.rep_reps_ind.
  - intros lo x v Hold Hleaf Hagree. apply Heap.rep_old; [|done].
    eapply old_mono; [|done]. intros l Hl. apply Hagree. lia.
  - intros lo mid xs vs Hlo Hreps IH Hc Hagree. apply reps_le in Hreps.
    apply Heap.rep_arr with xs; [done| |].
    + apply IH. intros l Hl. apply Hagree. lia.
    + rewrite Hagree; [done|lia].
  - intros lo mid xps vps Hlo Hreps IH Hc Hagree. apply reps_le in Hreps.
    apply Heap.rep_obj with xps; [done| |].
    + apply IH. intros l Hl. apply Hagree. lia.
    + rewrite Hagree; [done|lia].
  - intros. by constructor.
  - intros lo lo1 hi1 hi k x v xps vps Hlo Hrep IH Hreps IHs Hagree.
    apply rep_le in Hrep. apply reps_le in Hreps.
    eapply Heap.reps_cons; [done| |].
    + apply IH. intros l Hl. apply Hagree. lia.
    + apply IHs. intros l Hl. apply Hagree. lia.
Qed.

Lemma rep_mono h h' lo hi x v :
  (∀ l, (l < base ∨ lo ≤ l < hi)%nat → h' !! l = h !! l) →
  rep h lo hi x v → rep h' lo hi x v.
Proof. intros Hagree H. by eapply rep_reps_mono. Qed.

Lemma reps_mono h h' lo hi xps vps :
  (∀ l, (l < base ∨ lo ≤ l < hi)%nat → h' !! l = h !! l) →
  reps h lo hi xps vps → reps h' lo hi xps vps.
Proof. intros Hagree H. by eapply rep_reps_mono. Qed.

(** The properties of a fresh object, by key and by membership. *)
Lemma reps_assoc h lo hi xps vps k :
  reps h lo hi xps vps →
  match assoc k xps, assoc k vps with
  | Some x, Some v => ∃ lo' hi', (lo ≤ lo' ∧ hi' ≤ hi)%nat ∧ rep h lo' hi' x v
  | None, None => True
  | _, _ => False
  end.
Proof.
  induction 1 as [|lo lo1 hi1 hi k0 x v xps vps Hlo Hrep Hreps IH]; cbn; [done|].
  pose proof (rep_le _ _ _ _ _ Hrep). pose proof (reps_le _ _ _ _ _ Hreps).
  destruct (String.eqb k k0).
  - exists lo1, hi1. split; [lia|done].
  - destruct (assoc k xps), (assoc k vps); try done.
    destruct IH as (lo' & hi' & ? & ?). exists lo', hi'. split; [lia|done].
Qed.

Lemma reps_elem_of h lo hi xps vps k x :
  reps h lo hi xps vps → (k, x) ∈ xps →
  ∃ v lo' hi', (lo ≤ lo' ∧ hi' ≤ hi)%nat ∧ rep h lo' hi' x v.
Proof.
  induction 1 as [|lo lo1 hi1 hi k0 x0 v xps vps Hlo Hrep Hreps IH]; [by inversion 1|].
  pose proof (rep_le _ _ _ _ _ Hrep). pose proof (reps_le _ _ _ _ _ Hreps).
  intros [[= -> ->]|Hin]%elem_of_cons.
  - exists v, lo1, hi1. split; [lia|done].
  - destruct (IH Hin) as (v' & lo' & hi' & ? & ?). exists v', lo', hi'. split; [lia|done].
Qed.

(** Two properties of a fresh object with different keys hold trees that
    lie apart. *)
Lemma reps_assoc_apart h lo hi xps vps k1 k2 x1 x2 :
  reps h lo hi xps vps → k1 ≠ k2 →
  assoc k1 xps = Some x1 → assoc k2 xps = Some x2 →
  ∃ v1 v2 lo1 hi1 lo2 hi2,
    assoc k1 vps = Some v1 ∧ assoc k2 vps = Some v2
    ∧ rep h lo1 hi1 x1 v1 ∧ rep h lo2 hi2 x2 v2
    ∧ (lo ≤ lo1 ∧ hi1 ≤ hi ∧ lo ≤ lo2 ∧ hi2 ≤ hi ∧ (hi1 ≤ lo2 ∨ hi2 ≤ lo1))%nat.
Proof.
  intros Hreps Hne.
  induction Hreps as [|lo lo1 hi1 hi k0 x v xps vps Hlo Hrep Hreps IH]; [done|].
  pose proof (rep_le _ _ _ _ _ Hrep). pose proof (reps_le _ _ _ _ _ Hreps).
  cbn. destruct (String.eqb_spec k1 k0) as [->|Hne1], (String.eqb_spec k2 k0) as [->|Hne2];
    [done| | |].
  - intros [= <-] H2. pose proof (reps_assoc _ _ _ _ _ k2 Hreps) as Ha.
    rewrite H2 in Ha. destruct (assoc k2 vps) as [v2|]; [|done].
    destruct Ha as (lo' & hi' & ? & ?).
    exists v, v2, lo1, hi1, lo', hi'. repeat split; try done; lia.
  - intros H1 [= <-]. pose proof (reps_assoc _ _ _ _ _ k1 Hreps) as Ha.
    rewrite H1 in Ha. destruct (assoc k1 vps) as [v1|]; [|done].
    destruct Ha as (lo' & hi' & ? & ?).
    exists v1, v, lo', hi', lo1, hi1. repeat split; try done; lia.
  - intros H1 H2. destruct (IH H1 H2) as (v1 & v2 & a1 & b1 & a2 & b2 & ? & ? & ? & ? & ?).
    exists v1, v2, a1, b1, a2, b2. repeat split; try done; lia.
Qed.

(** A property written with an old value *)
Lemma reps_update h lo hi xps vps k y vy :
  reps h lo hi xps vps → old h y vy → leaf y →
  reps h lo hi (update k y xps) (update k vy vps).
Proof.
  intros Hreps Hy Hleaf.
  induction Hreps as [lo hi Hle|lo lo1 hi1 hi k0 x v xps vps Hlo Hrep Hreps IH]; cbn.
  - eapply (Heap.reps_cons _ _ _ lo hi hi hi); [done|by apply Heap.rep_old|by constructor].
  - pose proof (rep_le _ _ _ _ _ Hrep). destruct (String.eqb k k0).
    + eapply (Heap.reps_cons _ _ _ lo hi1 hi1 hi); [lia|by apply Heap.rep_old|done].
    + by eapply Heap.reps_cons.
Qed.

(** A value is old, or the root of a fresh tree. *)
Lemma rep_cases h lo hi x v :
  rep h lo hi x v →
  (old h x v ∧ leaf x ∧ lo = hi)
  ∨ ∃ m, x = Heap.HRef m ∧ hi = S m ∧ (base ≤ lo ∧ lo ≤ m)%nat
         ∧ ((∃ xs vs, v = VArr vs ∧ h !! m = Some (Heap.CArr xs)
                      ∧ reps h lo m (Heap.anon xs) (Heap.anon vs))
            ∨ (∃ xps vps, v = VObj vps ∧ h !! m = Some (Heap.CObj xps)
                          ∧ reps h lo m xps vps)).
Proof.
  destruct 1 as [lo x v Hold Hleaf|lo mid xs vs Hlo Hreps Hc|lo mid xps vps Hlo Hreps Hc].
  - by left.
  - pose proof (reps_le _ _ _ _ _ Hreps). right. exists mid.
    repeat split; try done. left. by exists xs, vs.
  - pose proof (reps_le _ _ _ _ _ Hreps). right. exists mid.
    repeat split; try done. right. by exists xps, vps.
Qed.

Lemma rep_fresh_obj h lo hi m vps :
  rep h lo hi (Heap.HRef m) (VObj vps) → (base ≤ m)%nat →
  hi = S m ∧ (base ≤ lo ∧ lo ≤ m)%nat
  ∧ ∃ xps, h !! m = Some (Heap.CObj xps) ∧ reps h lo m xps vps.
Proof.
  intros [(Hold & _)|(m' & [= <-] & -> & Hlo & [(xs & vs & ? & _)|(xps & vps' & [= <-] & Hc & Hreps)])]%rep_cases Hm;
    [apply old_ref_lt in Hold; lia|done|].
  repeat split; try done; try lia. by exists xps.
Qed.

(** What a fresh tree reaches: its own cells, and what its leaves reach. *)
Lemma rep_reaches h x l :
  Heap.reaches h x l → ∀ lo hi v, rep h lo hi x v →
  (base ≤ l ∧ lo ≤ l < hi)%nat
  ∨ ((l < base)%nat ∧ ∃ y vy, leaf y ∧ old h y vy ∧ Heap.reaches h y l).
Proof.
  induction 1 as [l|m xs y l Hc Hin Hr IH|m ps k y l Hc Hin Hr IH]; intros lo hi v Hrep.
  - apply rep_cases in Hrep as [(Hold & Hleaf & _)|(m' & [= <-] & -> & Hlo & _)].
    + right. split; [by eapply old_ref_lt|]. exists (Heap.HRef l), v.
      repeat split; try done. constructor.
    + left. lia.
  - apply rep_cases in Hrep
      as [(Hold & Hleaf & _)|(m' & [= <-] & -> & Hlo & [(xs' & vs & -> & Hc' & Hreps)|(xps & vps & -> & Hc' & Hreps)])];
      simplify_eq.
    + right. assert (Heap.reaches h (Heap.HRef m) l) as Hr' by by eapply Heap.reaches_elt.
      split; [by eapply (old_reaches base h h)|]. by exists (Heap.HRef m), v.
    + assert ((EmptyString, y) ∈ Heap.anon xs) as Hin'
        by (unfold Heap.anon; apply list_elem_of_fmap; by exists y).
      destruct (reps_elem_of _ _ _ _ _ _ _ Hreps Hin') as (vy & lo' & hi' & ? & Hy).
      destruct (IH _ _ _ Hy) as [?|?]; [left; lia|by right].
  - apply rep_cases in Hrep
      as [(Hold & Hleaf & _)|(m' & [= <-] & -> & Hlo & [(xs' & vs & -> & Hc' & Hreps)|(xps & vps & -> & Hc' & Hreps)])];
      simplify_eq.
    + right. assert (Heap.reaches h (Heap.HRef m) l) as Hr' by by eapply Heap.reaches_prop.
      split; [by eapply (old_reaches base h h)|]. by exists (Heap.HRef m), v.
    + destruct (reps_elem_of _ _ _ _ _ _ _ Hreps Hin) as (vy & lo' & hi' & ? & Hy).
      destruct (IH _ _ _ Hy) as [?|?]; [left; lia|by right].
Qed.

Lemma rep_reaches_range h lo hi x v l :
  rep h lo hi x v → Heap.reaches h x l → (l < base ∨ lo ≤ l < hi)%nat.
Proof.
  intros Hrep Hr. destruct (rep_reaches _ _ _ Hr _ _ _ Hrep) as [?|[? _]]; lia.
Qed.

(** ** Paths into a fresh tree *)

Lemma old_get_path_lt h x v p c :
  old h x v → Heap.get_path h x p = Heap.HRef c → (c < base)%nat.
Proof.
  intros Hold Hp. apply (old_ref_lt base h c (get_path v p)).
  rewrite <-Hp. by apply old_get_path.
Qed.

Lemma get_own_agree h h' x k :
  (∀ m, x = Heap.HRef m → h' !! m = h !! m) →
  Heap.get_own h' x k = Heap.get_own h x k.
Proof.
  intros H. unfold Heap.get_own, Heap.own_props. destruct x; try done.
  by rewrite (H _ eq_refl).
Qed.

Lemma get_path_agree h h' p x :
  (∀ l, Heap.reaches h x l → h' !! l = h !! l) →
  Heap.get_path h' x p = Heap.get_path h x p.
Proof.
  revert x. induction p as [|k p IH]; intros x H; [done|].
  cbn. rewrite (get_own_agree h h'); [|intros m ->; apply H; constructor].
  apply IH. intros l Hr. apply H. by eapply reaches_get_own.
Qed.

Lemma rep_get_path_agree h h' lo hi x v p :
  rep h lo hi x v →
  (∀ l, (l < base ∨ lo ≤ l < hi)%nat → h' !! l = h !! l) →
  Heap.get_path h' x p = Heap.get_path h x p.
Proof.
  intros Hrep H. apply get_path_agree. intros l Hr. apply H.
  by eapply rep_reaches_range.
Qed.

Lemma get_path_range h lo hi x v p c :
  rep h lo hi x v → Heap.get_path h x p = Heap.HRef c → (base ≤ c)%nat →
  (lo ≤ c < hi)%nat.
Proof.
  intros Hrep Hp Hc.
  assert (Heap.reaches h x c) as Hr by (eapply reaches_get_path; rewrite Hp; constructor).
  pose proof (rep_reaches_range _ _ _ _ _ _ Hrep Hr). lia.
Qed.

Lemma get_own_fresh_obj h m xps k :
  h !! m = Some (Heap.CObj xps) →
  Heap.get_own h (Heap.HRef m) k = default Heap.HUndef (assoc k xps).
Proof.
  intros Hc. unfold Heap.get_own. cbn [Heap.own_props]. rewrite Hc.
  by destruct (assoc k xps), (String.eqb k "length").
Qed.

Lemma rep_obj_child h lo hi m vps k :
  rep h lo hi (Heap.HRef m) (VObj vps) → (base ≤ m)%nat →
  ∃ lo' hi', (lo ≤ lo' ∧ hi' ≤ m)%nat
             ∧ rep h lo' hi' (Heap.get_own h (Heap.HRef m) k) (get_own (VObj vps) k).
Proof.
  intros Hrep Hm. destruct (rep_fresh_obj _ _ _ _ _ Hrep Hm) as (-> & Hlo & xps & Hc & Hreps).
  rewrite (get_own_fresh_obj _ _ _ _ Hc), get_own_obj.
  pose proof (reps_assoc _ _ _ _ _ k Hreps) as Ha.
  destruct (assoc k xps), (assoc k vps); try done.
  exists lo, lo. split; [lia|]. apply Heap.rep_old; [constructor|by apply leaf_prim].
Qed.

(** A path through objects that ends on a fresh cell goes through fresh
    cells, and ends on a fresh tree. *)
Lemma rep_get_path h p :
  ∀ lo hi x v c,
    rep h lo hi x v → objects_along v p →
    Heap.get_path h x p = Heap.HRef c → (base ≤ c)%nat →
    ∃ lo', (lo ≤ lo' ∧ S c ≤ hi)%nat ∧ rep h lo' (S c) (Heap.HRef c) (get_path v p).
Proof.
  induction p as [|k p IH]; intros lo hi x v c Hrep Hobj Hp Hc.
  - cbn in Hp. subst x.
    pose proof Hrep as [(Hold & _)|(m & [= <-] & -> & Hlo & _)]%rep_cases;
      [apply old_ref_lt in Hold; lia|].
    exists lo. split; [lia|done].
  - destruct Hobj as [[vps ->]%is_object_inv Hobj].
    pose proof Hrep as [(Hold & _)|(m & -> & -> & Hlo & _)]%rep_cases;
      [pose proof (old_get_path_lt _ _ _ _ _ Hold Hp); lia|].
    destruct (rep_obj_child _ _ _ _ _ k Hrep ltac:(lia)) as (lo' & hi' & ? & Hchild).
    destruct (IH _ _ _ _ _ Hchild Hobj Hp Hc) as (lo'' & ? & ?).
    exists lo''. split; [lia|done].
Qed.

(** ** Writes into a fresh tree *)

Lemma get_own_write h c k y x k' :
  (x = Heap.HRef c → k ≠ k') →
  Heap.get_own (Heap.write h c k y) x k' = Heap.get_own h x k'.
Proof.
  intros Hne. destruct x as [| | | | | |m]; try done.
  destruct (decide (m = c)) as [->|Hm].
  - unfold Heap.write. destruct (h !! c) as [[xs|ps]|] eqn:Hc; [done| |done].
    rewrite (get_own_fresh_obj _ _ (update k y ps)), (get_own_fresh_obj _ _ ps); [|done|].
    + rewrite assoc_update_ne; [done|by apply Hne].
    + apply list_lookup_insert_eq. by eapply lookup_lt_Some.
  - apply get_own_agree. intros ? [= <-]. by apply lookup_write_ne.
Qed.

(** The properties of a fresh object after a write inside one of them. *)
Lemma reps_child_update h h' c k1 x1 v1 v1' lo hi xps vps :
  reps h lo hi xps vps →
  assoc k1 xps = Some x1 → assoc k1 vps = Some v1 →
  (∀ lo' hi', rep h lo' hi' x1 v1 → (lo' ≤ c < hi')%nat ∧ rep h' lo' hi' x1 v1') →
  (∀ l, l ≠ c → h' !! l = h !! l) → (base ≤ c)%nat →
  reps h' lo hi xps (update k1 v1' vps).
Proof.
  intros Hreps Hx Hv Hin Hagree Hc.
  induction Hreps as [|lo lo1 hi1 hi k0 x v xps vps Hlo Hrep Hreps IH]; [done|].
  pose proof (rep_le _ _ _ _ _ Hrep). pose proof (reps_le _ _ _ _ _ Hreps).
  cbn in Hx, Hv |- *. destruct (String.eqb_spec k1 k0) as [->|Hne].
  - simplify_eq. destruct (Hin _ _ Hrep) as [? Hrep'].
    eapply Heap.reps_cons; [done|exact Hrep'|].
    eapply reps_mono; [|done]. intros l Hl. apply Hagree. lia.
  - pose proof (reps_assoc _ _ _ _ _ k1 Hreps) as Ha. rewrite Hx, Hv in Ha.
    destruct Ha as (lo' & hi' & ? & Hrep1). destruct (Hin _ _ Hrep1) as [? _].
    eapply Heap.reps_cons; [done| |by apply IH].
    eapply rep_mono; [|done]. intros l Hl. apply Hagree. lia.
Qed.

(** The write [x.p.k = y] of an old value to a fresh object of a fresh tree:
    the tree denotes what it denoted, with [p.k] set. *)
Lemma rep_write h p :
  ∀ lo hi x v c k y vy,
    rep h lo hi x v → objects_along v p →
    Heap.get_path h x p = Heap.HRef c → (base ≤ c)%nat →
    old h y vy → leaf y →
    rep (Heap.write h c k y) lo hi x (set_path v (p ++ [k]) vy).
Proof.
  induction p as [|k1 p IH]; intros lo hi x v c k y vy Hrep Hobj Hp Hc Hy Hleaf.
  - cbn in Hp. subst x. apply is_object_inv in Hobj as [vps ->].
    destruct (rep_fresh_obj _ _ _ _ _ Hrep Hc) as (-> & Hlo & xps & Hcell & Hreps).
    cbn [app set_path]. apply Heap.rep_obj with (update k y xps); [lia| |].
    + apply reps_update; [| |done].
      * eapply reps_mono; [|done]. intros l Hl. apply lookup_write_ne. lia.
      * eapply old_mono; [|done]. intros l Hl. apply lookup_write_ne. lia.
    + by apply lookup_write_eq.
  - destruct Hobj as [[vps ->]%is_object_inv Hobj].
    pose proof Hrep as [(Hold & _)|(m & -> & -> & Hlo & _)]%rep_cases;
      [pose proof (old_get_path_lt _ _ _ _ _ Hold Hp); lia|].
    destruct (rep_fresh_obj _ _ _ _ _ Hrep ltac:(lia)) as (_ & _ & xps & Hcell & Hreps).
    cbn [Heap.get_path] in Hp. rewrite (get_own_fresh_obj _ _ _ _ Hcell) in Hp.
    rewrite get_own_obj in Hobj.
    pose proof (reps_assoc _ _ _ _ _ k1 Hreps) as Ha.
    destruct (assoc k1 xps) as [x1|] eqn:Hx1, (assoc k1 vps) as [v1|] eqn:Hv1; try done.
    2:{ pose proof (old_get_path_lt _ _ _ _ _ (Heap.old_undef base h) Hp). lia. }
    destruct Ha as (lo' & hi' & ? & Hchild). cbn [default] in Hp, Hobj.
    pose proof (get_path_range _ _ _ _ _ _ _ Hchild Hp Hc).
    change ((k1 :: p) ++ [k]) with (k1 :: (p ++ [k])). cbn [set_path].
    rewrite get_own_obj, Hv1. cbn [default].
    apply Heap.rep_obj with xps; [lia| |].
    + eapply reps_child_update; [done|done|done| |by intros; apply lookup_write_ne|done].
      intros lo1 hi1 Hrep1. split.
      * by eapply get_path_range.
      * by apply IH.
    + rewrite lookup_write_ne; [done|lia].
Qed.

(** The write [x.p.k = y] leaves every path that does not pass by [p.k]
    where it was. *)
Lemma get_path_write h q :
  ∀ lo hi x v p c k y,
    rep h lo hi x v → objects_along v p →
    Heap.get_path h x p = Heap.HRef c → (base ≤ c)%nat →
    ¬ (p ++ [k]) `prefix_of` q →
    Heap.get_path (Heap.write h c k y) x q = Heap.get_path h x q.
Proof.
  induction q as [|k' q IH]; intros lo hi x v p c k y Hrep Hobj Hp Hc Hpre; [done|].
  cbn [Heap.get_path]. destruct p as [|k1 p].
  - cbn in Hp. subst x. apply is_object_inv in Hobj as [vps ->].
    assert (k ≠ k') as Hne.
    { intros ->. apply Hpre. by apply (prefix_cons k' []), prefix_nil. }
    rewrite get_own_write by done.
    destruct (rep_obj_child _ _ _ _ _ k' Hrep Hc) as (lo' & hi' & ? & Hchild).
    eapply rep_get_path_agree; [exact Hchild|].
    intros l Hl. apply lookup_write_ne. lia.
  - destruct Hobj as [[vps ->]%is_object_inv Hobj].
    pose proof Hrep as [(Hold & _)|(m & -> & -> & Hlo & _)]%rep_cases;
      [pose proof (old_get_path_lt _ _ _ _ _ Hold Hp); lia|].
    destruct (rep_fresh_obj _ _ _ _ _ Hrep ltac:(lia)) as (_ & _ & xps & Hcell & Hreps).
    cbn [Heap.get_path] in Hp.
    destruct (rep_obj_child _ _ _ _ _ k1 Hrep ltac:(lia)) as (lo1 & hi1 & ? & Hchild1).
    pose proof (get_path_range _ _ _ _ _ _ _ Hchild1 Hp Hc).
    rewrite get_own_write by (intros [= ->]; lia).
    destruct (String.eqb_spec k1 k') as [->|Hne].
    + eapply IH; [exact Hchild1|done|done|done|].
      intros Hpre'. apply Hpre. by apply (prefix_cons k').
    + rewrite (get_own_fresh_obj _ _ _ k1 Hcell) in Hp.
      rewrite (get_own_fresh_obj _ _ _ k' Hcell).
      destruct (assoc k1 xps) as [x1|] eqn:Hx1.
      2:{ pose proof (old_get_path_lt _ _ _ _ _ (Heap.old_undef base h) Hp). lia. }
      destruct (assoc k' xps) as [x'|] eqn:Hx';
        [|apply get_path_agree; intros l Hr; inversion Hr].
      destruct (reps_assoc_apart _ _ _ _ _ _ _ _ _ Hreps Hne Hx1 Hx')
        as (v1 & v' & a1 & b1 & a2 & b2 & _ & _ & Hr1 & Hr' & ?).
      cbn [default] in Hp |- *.
      pose proof (get_path_range _ _ _ _ _ _ _ Hr1 Hp Hc).
      eapply rep_get_path_agree; [exact Hr'|].
      intros l Hl. apply lookup_write_ne. lia.
Qed.

End fresh_trees.

(** ** The deep copy on the heap *)

Section deep_copy.
Variable leaf : Heap.hval → Prop.
Variable base : nat.
Hypothesis leaf_prim : ∀ x, (∀ l, x ≠ Heap.HRef l) → leaf x.

Local Abbreviation rep := (Heap.rep leaf base).
Local Abbreviation reps := (Heap.reps leaf base).

Lemma build_each_reps {A B} (g : A → list Heap.cell → B * list Heap.cell)
    (key : A → string) (val : A → value) (key' : B → string) (out : B → Heap.hval) l :
  Forall (λ a, ∀ h, (base ≤ length h)%nat →
                 (∃ ext, (g a h).2 = h ++ ext)
                 ∧ key' (g a h).1 = key a
                 ∧ rep (g a h).2 (length h) (length (g a h).2) (out (g a h).1) (val a)) l →
  ∀ h, (base ≤ length h)%nat →
    (∃ ext, (Heap.build_each g l h).2 = h ++ ext)
    ∧ reps (Heap.build_each g l h).2 (length h) (length (Heap.build_each g l h).2)
        (map (λ b, (key' b, out b)) (Heap.build_each g l h).1)
        (map (λ a, (key a, val a)) l).
Proof.
  induction 1 as [|a l Ha _ IH]; intros h Hh; cbn.
  - split; [exists []; by rewrite app_nil_r|]. by constructor.
  - destruct (Ha h Hh) as ([ext1 Hext1] & Hk & Hrep).
    destruct (g a h) as [b h1]. cbn in Hext1, Hk, Hrep. subst h1.
    destruct (IH (h ++ ext1)) as ([ext2 Hext2] & Hreps); [rewrite length_app; lia|].
    fold (Heap.build_each g l (h ++ ext1)).
    destruct (Heap.build_each g l (h ++ ext1)) as [bs h2]. cbn in Hext2, Hreps |- *.
    subst h2. split; [exists (ext1 ++ ext2); by rewrite app_assoc|].
    rewrite Hk. eapply Heap.reps_cons; [done| |exact Hreps].
    eapply rep_mono; [|exact Hrep]. intros l' Hl'.
    apply lookup_app_l. rewrite length_app in *. pose proof (rep_le _ _ _ _ _ _ _ Hrep).
    rewrite length_app in *. lia.
Qed.

(** What [build] allocates: the heap grows at its end, and the value built
    is the root of a fresh tree that occupies the new cells. *)
Lemma build_rep v :
  ∀ h, (base ≤ length h)%nat →
    (∃ ext, (Heap.build v h).2 = h ++ ext)
    ∧ rep (Heap.build v h).2 (length h) (length (Heap.build v h).2) (Heap.build v h).1 v.
Proof.
  induction v as [| | | | | |l IH|ps IH] using value_ind_nested; intros h Hh.
  1-6: split; [exists []; by rewrite app_nil_r|];
       apply Heap.rep_old; [constructor|by apply leaf_prim].
  - cbn [Heap.build].
    destruct (build_each_reps Heap.build (λ _, EmptyString) id (λ _, EmptyString) id l)
      with (h := h) as ([ext Hext] & Hreps); [|done|].
    { eapply Forall_impl; [exact IH|]. intros v Hv h' Hh'.
      destruct (Hv h' Hh') as [? ?]. done. }
    destruct (Heap.build_each Heap.build l h) as [xs h1]. cbn in Hext, Hreps |- *. subst h1.
    split; [exists (ext ++ [Heap.CArr xs]); by rewrite app_assoc|].
    pose proof (reps_le _ _ _ _ _ _ _ Hreps) as Hle.
    rewrite length_app, Nat.add_1_r.
    apply Heap.rep_arr with xs; [done| |].
    + eapply reps_mono; [|exact Hreps].
      intros l' Hl'. apply lookup_app_l. lia.
    + by apply list_lookup_middle.
  - cbn [Heap.build].
    destruct (build_each_reps
                (λ p h, let '(x, h1) := Heap.build p.2 h in ((p.1, x), h1))
                fst snd fst snd ps)
      with (h := h) as ([ext Hext] & Hreps); [|done|].
    { eapply Forall_impl; [exact IH|]. intros [k v] Hv h' Hh'. cbn in Hv |- *.
      destruct (Hv h' Hh') as [? ?]. by destruct (Heap.build v h'). }
    destruct (Heap.build_each _ ps h) as [xps h1]. cbn in Hext, Hreps |- *. subst h1.
    split; [exists (ext ++ [Heap.CObj xps]); by rewrite app_assoc|].
    pose proof (reps_le _ _ _ _ _ _ _ Hreps) as Hle.
    rewrite length_app, Nat.add_1_r.
    apply Heap.rep_obj with xps; [done| |].
    + eapply reps_mono; [|].
      { intros l' Hl'. apply lookup_app_l. lia. }
      assert (∀ {V} (qs : list (string * V)), map (λ b, (b.1, b.2)) qs = qs) as Heta.
      { intros V qs. induction qs as [|[] qs IHq]; cbn; [done|]. by rewrite IHq. }
      by rewrite !Heta in Hreps.
    + by apply list_lookup_middle.
Qed.

(** A fresh tree reads back as the tree it denotes. *)
Lemma rep_read h lo hi x v :
  rep h lo hi x v → ∃ n, ∀ fuel, (n ≤ fuel)%nat → Heap.read fuel h x = Some v.
Proof.
  revert lo hi x v.
  apply (Heap.rep_mut leaf base h
           (λ _ _ x v, ∃ n, ∀ fuel, (n ≤ fuel)%nat → Heap.read fuel h x = Some v)
           (λ _ _ xps vps, ∃ n, ∀ fuel, (n ≤ fuel)%nat →
              Forall2 (λ p q, p.1 = q.1 ∧ Heap.read fuel h p.2 = Some q.2) xps vps)).
  - intros _ x v Hold _. by eapply old_read.
  - intros lo mid xs vs _ _ [n Hn] Hc. exists (S n). intros [|fuel] Hle; [lia|].
    cbn. rewrite Hc.
    assert (Heap.each (Heap.read fuel h) xs = Some vs) as ->; [|done].
    apply each_Some. specialize (Hn fuel ltac:(lia)).
    clear -Hn. revert vs Hn. induction xs as [|x xs IH]; intros [|v vs] H;
      inversion H; subst; constructor; [by destruct_and?|by apply IH].
  - intros lo mid xps vps _ _ [n Hn] Hc. exists (S n). intros [|fuel] Hle; [lia|].
    cbn. rewrite Hc.
    match goal with |- _ <$> ?e = _ => assert (e = Some vps) as ->; [|done] end.
    apply each_Some. eapply Forall2_impl; [apply (Hn fuel); lia|].
    intros [k y] [k' vy] [Hk Hy]. cbn in *. by rewrite Hy, Hk.
  - intros. exists 0%nat. constructor.
  - intros lo lo1 hi1 hi k x v xps vps _ _ [n Hn] _ [n' Hn']. exists (n `max` n')%nat.
    intros fuel Hle. constructor; [split; [done|apply Hn; lia]|apply Hn'; lia].
Qed.

End deep_copy.

(** A tree without old objects: every object on a path is fresh. *)
Lemma copy_get_path base h p :
  ∀ lo hi x v,
    Heap.rep (λ y, ∀ l, y ≠ Heap.HRef l) base h lo hi x v → objects_along v p →
    ∃ c, Heap.get_path h x p = Heap.HRef c ∧ (base ≤ c)%nat.
Proof.
  assert (∀ lo hi x vps,
            Heap.rep (λ y, ∀ l, y ≠ Heap.HRef l) base h lo hi x (VObj vps) →
            ∃ m, x = Heap.HRef m ∧ (base ≤ m)%nat) as Href.
  { intros lo hi x vps [(Hold & Hleaf & _)|(m & -> & _ & Hlo & _)]%rep_cases.
    - inversion Hold; subst. by edestruct Hleaf.
    - exists m. split; [done|lia]. }
  induction p as [|k p IH]; intros lo hi x v Hrep Hobj.
  - apply is_object_inv in Hobj as [vps ->]. exact (Href _ _ _ _ Hrep).
  - destruct Hobj as [[vps ->]%is_object_inv Hobj].
    destruct (Href _ _ _ _ Hrep) as (m & -> & Hm).
    destruct (rep_obj_child _ _ (λ _ H, H) _ _ _ _ _ k Hrep Hm) as (lo' & hi' & _ & Hchild).
    by eapply IH.
Qed.

(** ** Paths through objects, on trees *)

Lemma objects_along_is_object v p : objects_along v p → is_object (get_path v p) = true.
Proof.
  revert v. induction p as [|k p IH]; intros v; [done|]. intros [_ H]. by apply IH.
Qed.

(** A write at a path keeps the objects of every path that does not pass by
    it. *)
Lemma objects_along_set_path v p q y :
  ¬ p `prefix_of` q → objects_along v q → objects_along (set_path v p y) q.
Proof.
  revert v p. induction q as [|k' q IH]; intros v p Hpre Hobj.
  - destruct p as [|k p]; [destruct Hpre; apply prefix_nil|].
    unfold objects_along in *. by rewrite is_object_set_path.
  - destruct p as [|k p]; [destruct Hpre; apply prefix_nil|].
    destruct Hobj as [Hv Hobj]. split; [by rewrite is_object_set_path|].
    rewrite get_own_set_path by done.
    destruct (String.eqb_spec k k') as [->|Hne]; [|done].
    apply IH; [|done]. intros Hpre'. apply Hpre. by apply prefix_cons.
Qed.

Lemma not_prefix_snoc (p q : list string) k :
  ¬ (p `prefix_of` q ∧ (length p < length q)%nat) → ¬ (p ++ [k]) `prefix_of` q.
Proof.
  intros H [r Hr]. apply H. split.
  - exists ([k] ++ r). by rewrite Hr, <-app_assoc.
  - rewrite Hr, !length_app. cbn. lia.
Qed.

Lemma update_same {V} k (x : V) ps : assoc k ps = Some x → update k x ps = ps.
Proof.
  induction ps as [|[k' v] ps IH]; cbn; [done|].
  destruct (String.eqb_spec k k') as [->|Hne].
  - by intros [= ->].
  - intros H. by rewrite IH.
Qed.

Lemma update_update {V} k (x y : V) ps : update k x (update k y ps) = update k x ps.
Proof.
  induction ps as [|[k' v] ps IH]; cbn.
  - by rewrite String.eqb_refl.
  - destruct (String.eqb k k') eqn:E; cbn.
    + by rewrite String.eqb_refl.
    + by rewrite E, IH.
Qed.

(** The writes of [Object.assign(v.field, source)] one by one amount to one
    write of the assigned object. *)
Lemma fold_set_path_assigned field source keys :
  ∀ ps cps,
    assoc field ps = Some (VObj cps) →
    fold_left (λ v k, set_path v ([field] ++ [k]) (get_own source k)) keys (VObj ps)
    = set_path (VObj ps) [field]
        (VObj (fold_left (λ ps k, update k (get_own source k) ps) keys cps)).
Proof.
  induction keys as [|k keys IH]; intros ps cps Hf.
  - cbn. by rewrite update_same.
  - cbn [fold_left]. cbn [app set_path]. rewrite get_own_obj, Hf. cbn [default].
    rewrite (IH _ (update k (get_own source k) cps)) by apply assoc_update_eq.
    cbn [set_path]. by rewrite update_update.
Qed.

(** ** The merge on the heap *)

(** One round of the dialogue loop, when the objects on the way are there. *)
Lemma replace_dialogue_step instance cd h c0 c1 c2 c3 ps s :
  Heap.get h instance "customizedDialogue" = Ok cd →
  Heap.is_nullish cd = false →
  Heap.get_own h (Heap.HRef c0) "segments" = Heap.HRef c1 →
  Heap.get_own h (Heap.HRef c1) s = Heap.HRef c2 →
  Heap.get_own h (Heap.HRef c2) "content" = Heap.HRef c3 →
  h !! c3 = Some (Heap.CObj ps) →
  Heap.replace_dialogue instance (Heap.HRef c0) h s
  = Ok (Heap.write h c3 "dialogue" (Heap.get_own h cd s)).
Proof.
  intros Hcd Hnn Hc1 Hc2 Hc3 Hcell. unfold Heap.replace_dialogue. rewrite Hcd.
  unfold Heap.get.
  repeat first [rewrite bind_Ok|rewrite Hc1|rewrite Hc2|rewrite Hc3|rewrite Hnn
               |progress cbn [Heap.is_nullish Heap.truthy Heap.set_prop]].
  by rewrite Hcell.
Qed.

Section merge_on_heap.
Variables (h0 : list Heap.cell) (template instance : Heap.hval) (t i : value).
Hypothesis Htemplate : Heap.old (length h0) h0 template t.
Hypothesis Hinstance : Heap.old (length h0) h0 instance i.
Hypothesis Hobject : is_object i = true.

Let base : nat := length h0.

(** What the merge may share with the heap it started from: what the
    instance reaches. *)
Let leaf (y : Heap.hval) : Prop :=
  ∀ l, Heap.reaches h0 y l → Heap.reaches h0 instance l.

(** The objects of the view that the merge writes to, or goes through. *)
Let paths : list (list string) :=
  [ []; ["challenge"]; ["environment"]; ["segments"];
    ["segments"; "intro"]; ["segments"; "intro"; "content"];
    ["segments"; "gameplay"]; ["segments"; "gameplay"; "content"];
    ["segments"; "conclusion"]; ["segments"; "conclusion"; "content"] ].

(** What holds of the heap [h] between two steps of the merge: the heap it
    started from is untouched, the view is a fresh tree that denotes [m], and
    the objects it will write to are fresh. *)
Let inv (merged : Heap.hval) (hi : nat) (h : list Heap.cell) (m : value) : Prop :=
  h0 `prefix_of` h
  ∧ Heap.rep leaf base h base hi merged m
  ∧ Forall (λ q, objects_along m q
                 ∧ ∃ c, Heap.get_path h merged q = Heap.HRef c ∧ (base ≤ c)%nat) paths.

Lemma leaf_primitive x : (∀ l, x ≠ Heap.HRef l) → leaf x.
Proof. intros H l Hr. inversion Hr; subst; by edestruct H. Qed.

Lemma leaf_get_own x k : leaf x → leaf (Heap.get_own h0 x k).
Proof. intros H l Hr. by eapply H, reaches_get_own. Qed.

Lemma leaf_instance : leaf instance.
Proof. by intros l Hr. Qed.

Lemma get_instance h k : Heap.get h instance k = Ok (Heap.get_own h instance k).
Proof.
  unfold Heap.get. destruct (is_object_inv _ Hobject) as [ps Hps].
  rewrite Hps in Hinstance. by inversion Hinstance.
Qed.

Lemma truthy_defined_on_heap x : Heap.truthy x = true → Heap.is_nullish x = false.
Proof. by destruct x. Qed.

Lemma prefix_agree h l : h0 `prefix_of` h → (l < base)%nat → h !! l = h0 !! l.
Proof. intros [ext ->] Hl. by apply lookup_app_l. Qed.

Lemma old_now h y vy : h0 `prefix_of` h → Heap.old base h0 y vy → Heap.old base h y vy.
Proof. intros Hpre. apply old_mono. intros l Hl. by apply prefix_agree. Qed.

Lemma get_own_now h y vy k :
  h0 `prefix_of` h → Heap.old base h0 y vy → Heap.get_own h y k = Heap.get_own h0 y k.
Proof.
  intros Hpre Hold. apply get_own_agree. intros m ->.
  apply prefix_agree; [done|]. by eapply old_ref_lt.
Qed.

Lemma prefix_write h c k y :
  h0 `prefix_of` h → (base ≤ c)%nat → h0 `prefix_of` Heap.write h c k y.
Proof.
  intros [ext ->] Hc. unfold Heap.write.
  destruct ((h0 ++ ext) !! c) as [[xs|ps]|]; [by exists ext| |by exists ext].
  rewrite insert_app_r_alt by done. by eexists.
Qed.

(** The target of a write is a fresh object. *)
Lemma inv_target merged hi h m p :
  inv merged hi h m → p ∈ paths →
  ∃ c ps, Heap.get_path h merged p = Heap.HRef c ∧ (base ≤ c)%nat
          ∧ h !! c = Some (Heap.CObj ps).
Proof.
  intros (Hpre & Hrep & Hpaths) Hp.
  rewrite Forall_forall in Hpaths. destruct (Hpaths p Hp) as (Hobj & c & Hc & Hfresh).
  destruct (rep_get_path leaf base leaf_primitive _ _ _ _ _ _ _ Hrep Hobj Hc Hfresh)
    as (lo' & _ & Hrep').
  pose proof (objects_along_is_object _ _ Hobj) as [vps Hvps]%is_object_inv.
  rewrite Hvps in Hrep'.
  destruct (rep_fresh_obj _ _ _ _ _ _ _ Hrep' Hfresh) as (_ & _ & ps & Hcell & _).
  by exists c, ps.
Qed.

(** One write of the merge. *)
Lemma inv_write merged hi h m p c k y vy :
  inv merged hi h m → p ∈ paths →
  Forall (λ q, ¬ (p ++ [k]) `prefix_of` q) paths →
  Heap.get_path h merged p = Heap.HRef c →
  Heap.old base h0 y vy → leaf y →
  inv merged hi (Heap.write h c k y) (set_path m (p ++ [k]) vy)
  ∧ ∀ q, q ∈ paths →
      Heap.get_path (Heap.write h c k y) merged q = Heap.get_path h merged q.
Proof.
  intros (Hpre & Hrep & Hpaths) Hp Hnot Hc Hy Hleaf.
  rewrite Forall_forall in Hpaths, Hnot.
  destruct (Hpaths p Hp) as (Hobj & c' & Hc' & Hfresh).
  rewrite Hc in Hc'. injection Hc' as <-.
  assert (∀ q, q ∈ paths →
            Heap.get_path (Heap.write h c k y) merged q = Heap.get_path h merged q) as Hsame.
  { intros q Hq. eapply (get_path_write leaf base leaf_primitive); try done.
    by apply Hnot. }
  split; [|done]. split; [by apply prefix_write|]. split.
  - apply (rep_write leaf base); try done. by apply old_now.
  - apply Forall_forall. intros q Hq. destruct (Hpaths q Hq) as (Hobjq & cq & Hcq & Hfq).
    split; [apply objects_along_set_path; [by apply Hnot|done]|].
    exists cq. by rewrite Hsame.
Qed.

(** The writes of [Object.assign] to an object of the view *)
Lemma inv_fold_write merged hi p c src vsrc keys :
  p ∈ paths →
  (∀ k, Forall (λ q, ¬ (p ++ [k]) `prefix_of` q) paths) →
  Heap.old base h0 src vsrc → leaf src →
  ∀ h m,
    inv merged hi h m →
    Heap.get_path h merged p = Heap.HRef c →
    inv merged hi
      (fold_left (λ h k, Heap.write h c k (Heap.get_own h src k)) keys h)
      (fold_left (λ m k, set_path m (p ++ [k]) (get_own vsrc k)) keys m).
Proof.
  intros Hp Hnot Hsrc Hleaf. induction keys as [|k keys IH]; intros h m Hinv Hc; [done|].
  cbn [fold_left]. rewrite (get_own_now h src vsrc) by (done || apply Hinv).
  destruct (inv_write merged hi h m p c k (Heap.get_own h0 src k) (get_own vsrc k))
    as [Hinv' Hsame]; try done.
  - by apply old_get_own.
  - by apply leaf_get_own.
  - apply IH; [done|]. by rewrite Hsame.
Qed.

Lemma inv_object_assign merged hi h m field src vsrc :
  inv merged hi h m → [field] ∈ paths →
  (∀ k, Forall (λ q, ¬ ([field] ++ [k]) `prefix_of` q) paths) →
  Heap.old base h0 src vsrc → leaf src →
  ∃ h',
    Heap.object_assign h (Heap.get_own h merged field) src = Ok h'
    ∧ inv merged hi h' (set_path m [field] (assigned (get_own m field) vsrc)).
Proof.
  intros Hinv Hp Hnot Hsrc Hleaf.
  destruct (inv_target _ _ _ _ _ Hinv Hp) as (c & ps & Hc & Hfresh & Hcell).
  pose proof Hinv as (Hpre & Hrep & Hpaths). rewrite Forall_forall in Hpaths.
  destruct (Hpaths _ Hp) as ([Hm Hf] & _).
  cbn [Heap.get_path] in Hc. rewrite Hc. cbn [Heap.object_assign]. rewrite Hcell.
  eexists. split; [done|].
  rewrite (old_own_keys base h src vsrc) by by apply old_now.
  apply is_object_inv in Hm as [mps ->]. cbn [objects_along] in Hf.
  apply is_object_inv in Hf as [cps Hcps]. rewrite Hcps. unfold assigned.
  rewrite get_own_obj in Hcps.
  destruct (assoc field mps) as [v|] eqn:Hv; [|done]. cbn in Hcps. subst v.
  rewrite <-(fold_set_path_assigned field vsrc (own_keys vsrc) mps cps Hv).
  by apply (inv_fold_write merged hi [field] c src vsrc).
Qed.

Lemma inv_set_prop merged hi h m k y vy :
  inv merged hi h m →
  Forall (λ q, ¬ [k] `prefix_of` q) paths →
  Heap.old base h0 y vy → leaf y →
  ∃ h', Heap.set_prop h merged k y = Ok h' ∧ inv merged hi h' (set_path m [k] vy).
Proof.
  intros Hinv Hnot Hy Hleaf.
  assert ([] ∈ paths) as Hp by apply list_elem_of_here.
  destruct (inv_target _ _ _ _ _ Hinv Hp) as (c & ps & Hc & Hfresh & Hcell).
  cbn [Heap.get_path] in Hc. subst merged. cbn [Heap.set_prop]. rewrite Hcell.
  eexists. split; [done|].
  by apply (inv_write (Heap.HRef c) hi h m [] c k y vy).
Qed.

Lemma inv_replace_dialogue merged hi keys :
  truthy (get_own i "customizedDialogue") = true →
  Forall (λ s, s ∈ segment_names) keys →
  ∀ h m,
    inv merged hi h m →
    ∃ h', Heap.for_each (Heap.replace_dialogue instance merged) h keys = Ok h'
          ∧ inv merged hi h'
              (fold_left (λ m s, set_path m (dialogue_path s)
                                   (get_own (get_own i "customizedDialogue") s)) keys m).
Proof.
  intros Htruthy. pose proof (old_get_own _ _ _ _ "customizedDialogue" Hinstance) as Hcd.
  induction 1 as [|s keys Hs _ IH]; intros h m Hinv; [by exists h|].
  cbn [Heap.for_each fold_left].
  assert (["segments"; s; "content"] ∈ paths ∧ ["segments"; s] ∈ paths
          ∧ ["segments"] ∈ paths ∧ [] ∈ paths) as (Hp3 & Hp2 & Hp1 & Hp0).
  { unfold segment_names in Hs. unfold paths.
    repeat (apply elem_of_cons in Hs as [->|Hs]); [| | |by inversion Hs];
      repeat split;
      solve [repeat first [apply list_elem_of_here|apply list_elem_of_further]]. }
  destruct (inv_target _ _ _ _ _ Hinv Hp0) as (c0 & ps0 & Hc0 & _ & _).
  cbn [Heap.get_path] in Hc0. subst merged.
  destruct (inv_target _ _ _ _ _ Hinv Hp1) as (c1 & ps1 & Hc1 & _ & _).
  destruct (inv_target _ _ _ _ _ Hinv Hp2) as (c2 & ps2 & Hc2 & _ & _).
  destruct (inv_target _ _ _ _ _ Hinv Hp3) as (c3 & ps3 & Hc3 & _ & Hcell3).
  cbn [Heap.get_path] in Hc1, Hc2, Hc3. rewrite Hc1 in Hc2, Hc3. rewrite Hc2 in Hc3.
  rewrite (replace_dialogue_step instance (Heap.get_own h0 instance "customizedDialogue")
             h c0 c1 c2 c3 ps3 s); try done.
  2:{ rewrite get_instance. f_equal. apply (get_own_now h instance i); [apply Hinv|done]. }
  2:{ apply truthy_defined_on_heap. by rewrite (old_truthy _ _ _ _ Hcd). }
  rewrite bind_Ok.
  rewrite (get_own_now h _ (get_own i "customizedDialogue")) by (done || apply Hinv).
  destruct (inv_write (Heap.HRef c0) hi h m ["segments"; s; "content"] c3 "dialogue"
              (Heap.get_own h0 (Heap.get_own h0 instance "customizedDialogue") s)
              (get_own (get_own i "customizedDialogue") s)) as [Hinv' _]; try done.
  - apply Forall_forall. intros q Hq. apply not_prefix_snoc. intros [_ Hlen].
    assert (Forall (λ q, (length q ≤ 3)%nat) paths) as Hall
      by (unfold paths; repeat constructor).
    rewrite Forall_forall in Hall. specialize (Hall q Hq). cbn in Hlen. lia.
  - cbn [Heap.get_path]. by rewrite Hc1, Hc2.
  - by apply old_get_own.
  - apply leaf_get_own, leaf_get_own, leaf_instance.
  - by apply IH.
Qed.

Lemma not_prefix_paths p :
  Forall (λ q, ¬ (p `prefix_of` q ∧ (length p < length q)%nat)) paths →
  ∀ k, Forall (λ q, ¬ (p ++ [k]) `prefix_of` q) paths.
Proof.
  intros H k. eapply Forall_impl; [exact H|]. intros q Hq. by apply not_prefix_snoc.
Qed.

(** [Object.assign(merged[field], instance[name])], when the override is
    there. *)
Lemma inv_assign_step merged hi h m field name :
  inv merged hi h m → [field] ∈ paths →
  Forall (λ q, ¬ ([field] `prefix_of` q ∧ (1 < length q)%nat)) paths →
  ∃ h',
    (if Heap.truthy (Heap.get_own h instance name)
     then target ← Heap.get h merged field;
          source ← Heap.get h instance name;
          Heap.object_assign h target source
     else Ok h) = Ok h'
    ∧ inv merged hi h'
        (if truthy (get_own i name)
         then set_path m [field] (assigned (get_own m field) (get_own i name))
         else m).
Proof.
  intros Hinv Hp Hnot. rewrite get_instance.
  rewrite (get_own_now h instance i) by (done || apply Hinv).
  pose proof (old_get_own _ _ _ _ name Hinstance) as Hsrc.
  rewrite (old_truthy _ _ _ _ Hsrc).
  destruct (truthy (get_own i name)); [|by exists h].
  destruct (inv_target _ _ _ _ _ Hinv (list_elem_of_here _ _)) as (c & ps & Hc & _ & _).
  cbn [Heap.get_path] in Hc.
  assert (Heap.get h merged field = Ok (Heap.get_own h merged field)) as ->
    by (unfold Heap.get; by rewrite Hc).
  rewrite !bind_Ok.
  eapply inv_object_assign; try done.
  - by apply (not_prefix_paths [field]).
  - apply leaf_get_own, leaf_instance.
Qed.

(** [merged.participants = instance.customizedParticipants], when the
    override is there. *)
Lemma inv_participants_step merged hi h m :
  inv merged hi h m →
  ∃ h',
    (if Heap.truthy (Heap.get_own h instance "customizedParticipants")
     then replacement ← Heap.get h instance "customizedParticipants";
          Heap.set_prop h merged "participants" replacement
     else Ok h) = Ok h'
    ∧ inv merged hi h'
        (if truthy (get_own i "customizedParticipants")
         then set_path m ["participants"] (get_own i "customizedParticipants")
         else m).
Proof.
  intros Hinv. rewrite get_instance.
  rewrite (get_own_now h instance i) by (done || apply Hinv).
  pose proof (old_get_own _ _ _ _ "customizedParticipants" Hinstance) as Hsrc.
  rewrite (old_truthy _ _ _ _ Hsrc).
  destruct (truthy (get_own i "customizedParticipants")); [|by exists h].
  rewrite bind_Ok.
  eapply inv_set_prop; try done.
  - unfold paths. repeat constructor; by intros (? & [=]).
  - apply leaf_get_own, leaf_instance.
Qed.

(** The dialogue loop, when the override is there. *)
Lemma inv_dialogue_step merged hi h m :
  inv merged hi h m →
  dialogue_keys_ok (get_own i "customizedDialogue") →
  ∃ h',
    (if Heap.truthy (Heap.get_own h instance "customizedDialogue")
     then listed ← Heap.get h instance "customizedDialogue";
          Heap.for_each (Heap.replace_dialogue instance merged) h (Heap.own_keys h listed)
     else Ok h) = Ok h'
    ∧ inv merged hi h'
        (if truthy (get_own i "customizedDialogue")
         then fold_left (λ m s, set_path m (dialogue_path s)
                                  (get_own (get_own i "customizedDialogue") s))
                (own_keys (get_own i "customizedDialogue")) m
         else m).
Proof.
  intros Hinv Hkeys. rewrite get_instance.
  rewrite (get_own_now h instance i) by (done || apply Hinv).
  pose proof (old_get_own _ _ _ _ "customizedDialogue" Hinstance) as Hsrc.
  rewrite (old_truthy _ _ _ _ Hsrc).
  destruct (truthy (get_own i "customizedDialogue")) eqn:Hcd; [|by exists h].
  destruct (Hkeys Hcd) as [_ Hall]. rewrite bind_Ok.
  rewrite (old_own_keys base h _ (get_own i "customizedDialogue"))
    by (apply old_now; [apply Hinv|done]).
  by apply inv_replace_dialogue.
Qed.

(** What the view shares with the heap the merge started from *)
Lemma inv_shares merged hi h m l :
  inv merged hi h m → Heap.reaches h merged l → (l < base)%nat →
  Heap.reaches h0 instance l.
Proof.
  intros (Hpre & Hrep & _) Hr Hl.
  destruct (rep_reaches leaf base h merged l Hr _ _ _ Hrep)
    as [?|(_ & y & vy & Hleaf & Hold & Hry)]; [lia|].
  apply Hleaf. eapply (old_reaches base h h0); [|exact Hold|exact Hry].
  intros l' Hl'. symmetry. by apply prefix_agree.
Qed.

(** The merge on the heap, from the copy to the last write *)
Lemma merge_on_heap_inv :
  is_ChallengeTemplate t = true →
  dialogue_keys_ok (get_own i "customizedDialogue") →
  ∃ n merged hi h',
    (∀ fuel, (n ≤ fuel)%nat →
       Heap.mergeTemplateWithCustomizations fuel h0 template instance = Ok (merged, h'))
    ∧ inv merged hi h' (resolved t i).
Proof.
  intros (Ht & Hch & Henv & Hsegs)%is_ChallengeTemplate_objects Hkeys.
  apply has_segments_json in Hsegs.
  assert (is_object (get_own (json_value t) "challenge") = true) as Hch'
    by (by rewrite get_own_json, is_object_json_value).
  assert (is_object (get_own (json_value t) "environment") = true) as Henv'
    by (by rewrite get_own_json, is_object_json_value).
  assert (is_object (json_value t) = true) as Ht'
    by (by rewrite is_object_json_value).
  destruct (old_read _ _ _ _ Htemplate) as [n Hn].
  pose proof (build_rep leaf base leaf_primitive (json_value t) h0 (le_n _))
    as ([ext Hext] & Hrep).
  pose proof (build_rep (λ y, ∀ l, y ≠ Heap.HRef l) base (λ _ H, H) (json_value t) h0 (le_n _))
    as (_ & Hcopy).
  destruct (Heap.build (json_value t) h0) as [merged h1] eqn:Hb.
  cbn [fst snd] in Hext, Hrep, Hcopy.
  assert (inv merged (length h1) h1 (json_value t)) as Hinv1.
  { split; [by exists ext|]. split; [done|].
    assert (Forall (objects_along (json_value t)) paths) as Hobjs.
    { destruct Hsegs as (_ & Hs & Hall). unfold segment_names in Hall.
      repeat match goal with
             | H : Forall _ (_ :: _) |- _ => apply Forall_cons in H as [[? ?] H]
             end.
      unfold paths. repeat constructor; done. }
    eapply Forall_impl; [exact Hobjs|]. intros q Hq. split; [done|].
    by eapply copy_get_path. }
  destruct (inv_assign_step merged (length h1) h1 _ "challenge" "customizedChallenge" Hinv1)
    as (h2 & Heq2 & Hinv2).
  { apply list_elem_of_further, list_elem_of_here. }
  { unfold paths. repeat constructor; cbn; intros [Hpre ?]; try lia;
      by apply prefix_cons_inv_1 in Hpre. }
  destruct (inv_participants_step merged (length h1) h2 _ Hinv2) as (h3 & Heq3 & Hinv3).
  destruct (inv_assign_step merged (length h1) h3 _ "environment" "customizedEnvironment" Hinv3)
    as (h4 & Heq4 & Hinv4).
  { do 2 apply list_elem_of_further. apply list_elem_of_here. }
  { unfold paths. repeat constructor; cbn; intros [Hpre ?]; try lia;
      by apply prefix_cons_inv_1 in Hpre. }
  destruct (inv_dialogue_step merged (length h1) h4 _ Hinv4 Hkeys) as (h5 & Heq5 & Hinv5).
  exists n, merged, (length h1), h5. split; [|exact Hinv5].
  intros fuel Hfuel. unfold Heap.mergeTemplateWithCustomizations.
  rewrite (Hn fuel Hfuel), bind_Ok.
  assert (json_clone t = Ok (json_value t)) as -> by (by destruct t).
  rewrite bind_Ok, Hb.
  rewrite get_instance in Heq2, Heq3, Heq4, Heq5.
  rewrite get_instance, bind_Ok, Heq2, bind_Ok.
  rewrite get_instance, bind_Ok, Heq3, bind_Ok.
  rewrite get_instance, bind_Ok, Heq4, bind_Ok.
  rewrite get_instance, bind_Ok, Heq5, bind_Ok.
  done.
Qed.

(** The merge on the heap.  The heap [h0] holds the template and the
    instance.  With fuel enough, the merge returns; the heap it leaves is [h0]
    with cells added at its end; the view reads back as the resolved view of
    the trees; and of the cells of [h0] the view reaches those only that the
    instance reaches. *)
Lemma merge_on_heap :
  is_ChallengeTemplate t = true →
  dialogue_keys_ok (get_own i "customizedDialogue") →
  ∃ n, ∀ fuel, (n ≤ fuel)%nat →
    ∃ merged h',
      Heap.mergeTemplateWithCustomizations fuel h0 template instance = Ok (merged, h')
      ∧ h0 `prefix_of` h'
      ∧ Heap.read fuel h' merged = Some (resolved t i)
      ∧ ∀ l, Heap.reaches h' merged l → (l < length h0)%nat → Heap.reaches h0 instance l.
Proof.
  intros Ht Hkeys.
  destruct (merge_on_heap_inv Ht Hkeys) as (n & merged & hi & h' & Hrun & Hinv).
  pose proof Hinv as (Hpre & Hrep & _).
  destruct (rep_read _ _ _ _ _ _ _ Hrep) as [n' Hn'].
  exists (n `max` n')%nat. intros fuel Hfuel. exists merged, h'.
  split; [apply Hrun; lia|]. split; [done|]. split; [apply Hn'; lia|].
  intros l Hr Hl. by eapply inv_shares.
Qed.

End merge_on_heap.

(** C6 (amended).  Override isolation, for a reachable engine.

    The deep copy: on a heap that holds a registered template and a stored
    instance of it, the merge, with fuel enough, returns; the heap it leaves
    is the heap it found with cells added at its end, so that no cell that was
    there, of the template, of an instance or of anything else, is written
    to; of the cells that were there the view reaches those only that the
    instance reaches, the override objects that the view holds by reference;
    and the view reads back as the resolved view of the trees, which is what
    the merge on trees returns.

    The script depends on the template and on the instance itself only: the
    script of a stored instance is what the merge and the renderer make of
    its template and of the instance, and [generateScript] returns that very
    script, leaving the engine as it was, in every engine whatsoever that
    holds the instance under its id and the template under its id, whatever
    other instances and templates that engine holds.

    The scripts of two instances: for two stored instances of one template
    whose overrides agree outside the challenge, with the objectives [oA] and
    [oB], there are two texts [before] and [after] such that the script of the
    one is [before], [oA], [after] and the script of the other is [before],
    [oB], [after]. *)
Theorem override_isolation (URL_parses : string → bool) (e : TemplateEngine) :
  reachable URL_parses e →
  (∀ (id tid : string) (inst t : value) (h : list Heap.cell)
     (template instance : Heap.hval) (n : nat),
     assoc id (instances e) = Some inst →
     get_own inst "templateId" = VStr tid →
     assoc tid (templates e) = Some t →
     Heap.read n h template = Some t →
     Heap.read n h instance = Some inst →
     ∃ enough, ∀ fuel, (enough ≤ fuel)%nat →
       ∃ merged h',
         Heap.mergeTemplateWithCustomizations fuel h template instance = Ok (merged, h')
         ∧ h `prefix_of` h'
         ∧ (∀ l, Heap.reaches h' merged l → (l < length h)%nat → Heap.reaches h instance l)
         ∧ Heap.read fuel h' merged = Some (resolved t inst)
         ∧ mergeTemplateWithCustomizations t inst = Ok (resolved t inst))
  ∧ (∀ (id : string) (inst : value),
       assoc id (instances e) = Some inst →
       ∃ tid t script,
         get_own inst "templateId" = VStr tid
         ∧ assoc tid (templates e) = Some t
         ∧ (mergeTemplateWithCustomizations t inst ≫= createVideoScript) = Ok script
         ∧ ∀ other : TemplateEngine,
             assoc id (instances other) = Some inst →
             assoc tid (templates other) = Some t →
             run (generateScript (VStr id)) other = (Ok script, other))
  ∧ (∀ (idA idB : string) (instA instB : value) (oA oB : string),
       assoc idA (instances e) = Some instA →
       assoc idB (instances e) = Some instB →
       get_own instA "templateId" = get_own instB "templateId" →
       get_own instA "customizedParticipants" = get_own instB "customizedParticipants" →
       get_own instA "customizedEnvironment" = get_own instB "customizedEnvironment" →
       get_own instA "customizedDialogue" = get_own instB "customizedDialogue" →
       get_path instA ["customizedChallenge"; "objective"] = VStr oA →
       get_path instB ["customizedChallenge"; "objective"] = VStr oB →
       ∃ before after,
         run (generateScript (VStr idA)) e = (Ok (before +:+ oA +:+ after), e)
         ∧ run (generateScript (VStr idB)) e = (Ok (before +:+ oB +:+ after), e)).
Proof.
  intros Hreach. split; [|split].
  - intros id tid inst t h template instance n Hassoc Htid Ht Hrt Hri.
    destruct (stored_instance URL_parses e id inst Hreach Hassoc)
      as (tid' & c & t' & en & Hid & Hinst & _ & Hc & Ht' & Hvalid).
    cbn [fst snd] in *.
    assert (tid' = tid) as -> by (rewrite Hinst in Htid; by injection Htid).
    assert (t' = t) as -> by congruence.
    destruct (registered_template URL_parses e tid t Hreach Ht) as (Htyped & _ & _).
    assert (is_object inst = true) as Hobj by (by rewrite Hinst).
    assert (dialogue_keys_ok (get_own inst "customizedDialogue")) as Hkeys
      by (rewrite Hinst; by eapply validateCustomizations_dialogue_keys).
    apply read_old in Hrt, Hri.
    destruct (merge_on_heap h template instance t inst Hrt Hri Hobj Htyped Hkeys)
      as [enough Hmerge].
    exists enough. intros fuel Hfuel.
    destruct (Hmerge fuel Hfuel) as (merged & h' & Hrun & Hpre & Hread & Hshare).
    exists merged, h'. repeat split; try done.
    by apply mergeTemplateWithCustomizations_resolved.
  - intros id inst Hassoc.
    destruct (stored_instance URL_parses e id inst Hreach Hassoc)
      as (tid & c & t & en & Hid & Hinst & Htid & Hc & Ht & Hvalid).
    cbn [fst snd] in *.
    destruct (registered_template URL_parses e tid t Hreach Ht) as (Htyped & _ & _).
    assert (is_object inst = true) as Hobj by (by rewrite Hinst).
    assert ((mergeTemplateWithCustomizations t inst ≫= createVideoScript)
            = Ok (script_before_objective (resolved t inst)
                  +:+ to_string (get_path (resolved t inst) ["challenge"; "objective"])
                  +:+ script_after_objective (resolved t inst))) as Hscript.
    { rewrite mergeTemplateWithCustomizations_resolved; [|done|done|].
      2:{ rewrite Hinst. by eapply validateCustomizations_dialogue_keys. }
      rewrite bind_Ok. apply createVideoScript_renderable. by eapply resolved_renderable. }
    exists tid, t. eexists. split; [by rewrite Hinst|]. split; [done|].
    split; [exact Hscript|]. intros other Hother Htemplate.
    apply (generateScript_renders other id inst tid t); try done.
    + rewrite Hid. apply generateInstanceId_nonblank.
    + by apply is_object_truthy.
    + by rewrite Hinst.
    + by apply is_object_truthy, is_ChallengeTemplate_objects.
  - intros idA idB instA instB oA oB. by apply (scripts_differ_in_objective URL_parses).
Qed.

Lemma override_isolation_witness :
  (∃ enough, ∀ fuel, (enough ≤ fuel)%nat →
     ∃ merged h',
       Heap.mergeTemplateWithCustomizations fuel first_stored.2 first_stored.1.1
         first_stored.1.2 = Ok (merged, h')
       ∧ first_stored.2 `prefix_of` h'
       ∧ (∀ l, Heap.reaches h' merged l → (l < length first_stored.2)%nat →
               Heap.reaches first_stored.2 first_stored.1.2 l)
       ∧ Heap.read fuel h' merged = Some (resolved OriginalChallengeTemplate first_instance)
       ∧ mergeTemplateWithCustomizations OriginalChallengeTemplate first_instance
         = Ok (resolved OriginalChallengeTemplate first_instance))
  ∧ (∃ tid t script,
       get_own first_instance "templateId" = VStr tid
       ∧ assoc tid (templates two_instances_engine) = Some t
       ∧ (mergeTemplateWithCustomizations t first_instance ≫= createVideoScript) = Ok script
       ∧ ∀ other : TemplateEngine,
           assoc (generateInstanceId first_entropy) (instances other) = Some first_instance →
           assoc tid (templates other) = Some t →
           run (generateScript (VStr (generateInstanceId first_entropy))) other
           = (Ok script, other))
  ∧ ∃ before after,
      run (generateScript (VStr (generateInstanceId first_entropy))) two_instances_engine
      = (Ok (before +:+ "Test" +:+ after), two_instances_engine)
      ∧ run (generateScript (VStr (generateInstanceId second_entropy))) two_instances_engine
        = (Ok (before +:+ "Test 2" +:+ after), two_instances_engine).
Proof.
  pose proof (override_isolation starts_with_scheme two_instances_engine
                two_instances_engine_reachable) as (Hcopy & Hown & Hscripts).
  split; [|split].
  - apply (Hcopy (generateInstanceId first_entropy) "find-key-escape-room"
             first_instance OriginalChallengeTemplate
             first_stored.2 first_stored.1.1 first_stored.1.2 10%nat);
      vm_compute; reflexivity.
  - apply (Hown (generateInstanceId first_entropy) first_instance).
    vm_compute; reflexivity.
  - apply (Hscripts (generateInstanceId first_entropy) (generateInstanceId second_entropy)
             first_instance
             (map_get (instances two_instances_engine)
                (VStr (generateInstanceId second_entropy))));
      vm_compute; reflexivity.
Defined.

(** The view holds the overrides by reference: when the participants
    override of the instance is the participants array of the registered
    template itself, the participants of the view are that array, a cell of
    the heap the merge started from. *)
Lemma view_shares_aliased_override :
  let '(template, instance, h) := aliased in
  ∃ merged h' l,
    Heap.mergeTemplateWithCustomizations 10 h template instance = Ok (merged, h')
    ∧ Heap.get_own h' merged "participants" = Heap.HRef l
    ∧ Heap.get_own h template "participants" = Heap.HRef l
    ∧ (l < length h)%nat
    ∧ Heap.read 10 h template = Some OriginalChallengeTemplate
    ∧ Heap.read 10 h instance
      = Some (new_instance (VStr "find-key-escape-room")
                (VStr (generateInstanceId first_entropy))
                VUndef (get_own OriginalChallengeTemplate "participants") VUndef VUndef).
Proof.
  vm_compute. do 3 eexists. repeat split; try reflexivity. lia.
Qed.

(** * Further properties of the code *)

(** ** The validators *)

(** X1. [validateInput] lets a value through exactly when it is neither
    [null] nor [undefined] and, for the expected types [string], [object] and
    [array], is a text that is not blank, a record that is not an array, an
    array; every other expected type is not checked.  What it rejects it
    rejects with [InvalidInputError] for the parameter it was given, and
    [null] and [undefined] are reported as [null/undefined] whatever was
    expected. *)
Theorem validateInput_accepts (v : value) (parameterName expectedType : string) :
  if accepted_input v expectedType
  then ValidationUtils.validateInput v parameterName expectedType = Ok ()
  else ∃ expected received,
         ValidationUtils.validateInput v parameterName expectedType
         = Throw (InvalidInputError parameterName expected received)
         ∧ (is_nullish v = true → expected = expectedType ∧ received = "null/undefined").
Proof.
  unfold accepted_input, ValidationUtils.validateInput.
  destruct (String.eqb expectedType "string") eqn:Es,
           (String.eqb expectedType "object") eqn:Eo,
           (String.eqb expectedType "array") eqn:Ea;
    destruct v as [| |b|n| |s|l|ps]; cbn;
    try destruct (String.eqb (trim s) EmptyString);
    cbn; try reflexivity; do 2 eexists; (split; [reflexivity|done]).
Qed.

Lemma required_text_check v :
  negb (truthy v) || ValidationUtils.not_string v = negb (nonempty_text v).
Proof. destruct v as [| |[]|n| |s|l|ps]; try reflexivity; cbn.
  - by destruct (is_zero n).
  - by destruct (String.eqb s EmptyString).
Qed.

Lemma role_check v :
  negb (truthy v) || negb (includes ["gamemaster"; "player"] v)
  = negb (includes ["gamemaster"; "player"] v).
Proof.
  destruct v as [| |[]|n| |s|l|ps]; try reflexivity; cbn.
  - by destruct (is_zero n).
  - by destruct s.
Qed.

Lemma optional_text_check v :
  ValidationUtils.defined v && ValidationUtils.not_string_or_blank v = negb (optional_text v).
Proof. destruct v; try reflexivity. cbn. by rewrite negb_involutive. Qed.

Lemma optional_array_check v :
  ValidationUtils.defined v && negb (isArray v) = negb (optional_array v).
Proof. by destruct v. Qed.

Lemma push_if_length c msg issues :
  length (ValidationUtils.push_if c msg issues) = (length issues + (if c then 1 else 0))%nat.
Proof. unfold ValidationUtils.push_if. destruct c; [by rewrite length_app|lia]. Qed.

(** X2. [validateParticipant] of a participant that is neither [null] nor
    [undefined] returns a list of at most four issues, which is empty exactly
    when the id and the name are texts with at least one character, the role
    is [gamemaster] or [player], and the equipment is absent (falsy) or an
    array.  White space counts as characters, and the elements of the
    equipment are not looked at. *)
Theorem validateParticipant_accepts (participant : value) :
  is_nullish participant = false →
  ∃ issues,
    ValidationUtils.validateParticipant participant = Ok issues
    ∧ (length issues ≤ 4)%nat
    ∧ (issues = [] ↔
       nonempty_text (get_own participant "id") = true
       ∧ nonempty_text (get_own participant "name") = true
       ∧ includes ["gamemaster"; "player"] (get_own participant "role") = true
       ∧ (truthy (get_own participant "equipment") = false
          ∨ isArray (get_own participant "equipment") = true)).
Proof.
  intros Hp. unfold ValidationUtils.validateParticipant.
  rewrite !get_defined by done. rewrite !bind_Ok.
  rewrite !required_text_check, role_check.
  eexists. split; [reflexivity|].
  destruct (nonempty_text (get_own participant "id")),
           (nonempty_text (get_own participant "name")),
           (includes ["gamemaster"; "player"] (get_own participant "role")),
           (truthy (get_own participant "equipment")),
           (isArray (get_own participant "equipment")); cbn;
    (split; [lia|]);
    (split; [intros ?; try done; repeat split; auto|intros (? & ? & ? & [?|?]); done]).
Qed.

Lemma validateParticipant_accepts_witness :
  ∃ issues,
    ValidationUtils.validateParticipant (participant "player1" "player" "Player 1") = Ok issues
    ∧ (length issues ≤ 4)%nat
    ∧ (issues = [] ↔
       nonempty_text (get_own (participant "player1" "player" "Player 1") "id") = true
       ∧ nonempty_text (get_own (participant "player1" "player" "Player 1") "name") = true
       ∧ includes ["gamemaster"; "player"]
           (get_own (participant "player1" "player" "Player 1") "role") = true
       ∧ (truthy (get_own (participant "player1" "player" "Player 1") "equipment") = false
          ∨ isArray (get_own (participant "player1" "player" "Player 1") "equipment") = true)).
Proof. apply (validateParticipant_accepts (participant "player1" "player" "Player 1")). reflexivity. Defined.

Lemma validateChallenge_issues challenge :
  is_nullish challenge = false →
  ∃ issues,
    ValidationUtils.validateChallenge challenge = Ok issues
    ∧ (length issues ≤ 5)%nat
    ∧ (issues = [] ↔
       optional_text (get_own challenge "objective") = true
       ∧ optional_array (get_own challenge "targetObjects") = true
       ∧ optional_array (get_own challenge "rules") = true
       ∧ optional_text (get_own challenge "successCondition") = true
       ∧ optional_text (get_own challenge "failureConsequence") = true).
Proof.
  intros Hc. unfold ValidationUtils.validateChallenge.
  rewrite !get_defined by done. rewrite !bind_Ok.
  rewrite !optional_text_check, !optional_array_check.
  eexists. split; [reflexivity|].
  destruct (optional_text (get_own challenge "objective")),
           (optional_array (get_own challenge "targetObjects")),
           (optional_array (get_own challenge "rules")),
           (optional_text (get_own challenge "successCondition")),
           (optional_text (get_own challenge "failureConsequence")); cbn;
    (split; [lia|]);
    (split; [intros ?; try done; repeat split; auto|intros (? & ? & ? & ? & ?); done]).
Qed.

Lemma validateEnvironment_issues environment :
  is_nullish environment = false →
  ∃ issues,
    ValidationUtils.validateEnvironment environment = Ok issues
    ∧ (length issues ≤ 3)%nat
    ∧ (issues = [] ↔
       optional_text (get_own environment "location") = true
       ∧ optional_array (get_own environment "props") = true
       ∧ optional_array (get_own environment "constraints") = true).
Proof.
  intros Hc. unfold ValidationUtils.validateEnvironment.
  rewrite !get_defined by done. rewrite !bind_Ok.
  rewrite !optional_text_check, !optional_array_check.
  eexists. split; [reflexivity|].
  destruct (optional_text (get_own environment "location")),
           (optional_array (get_own environment "props")),
           (optional_array (get_own environment "constraints")); cbn;
    (split; [lia|]);
    (split; [intros ?; try done; repeat split; auto|intros (? & ? & ?); done]).
Qed.

(** X3. [validateChallenge] of a partial challenge that is neither [null] nor
    [undefined] returns a list of at most five issues, which is empty exactly
    when each of [objective], [successCondition] and [failureConsequence] is
    absent or a text that is not blank, and each of [targetObjects] and
    [rules] is absent or an array.  An absent member is never an issue, a
    [null] one always is; no other member is looked at. *)
Theorem validateChallenge_accepts (challenge : value) :
  is_nullish challenge = false →
  ∃ issues,
    ValidationUtils.validateChallenge challenge = Ok issues
    ∧ (length issues ≤ 5)%nat
    ∧ (issues = [] ↔
       optional_text (get_own challenge "objective") = true
       ∧ optional_array (get_own challenge "targetObjects") = true
       ∧ optional_array (get_own challenge "rules") = true
       ∧ optional_text (get_own challenge "successCondition") = true
       ∧ optional_text (get_own challenge "failureConsequence") = true).
Proof. apply validateChallenge_issues. Qed.

Lemma validateChallenge_accepts_witness :
  ∃ issues,
    ValidationUtils.validateChallenge (VObj [("objective", VStr "Reach the finish line first")])
    = Ok issues
    ∧ (length issues ≤ 5)%nat
    ∧ (issues = [] ↔
       optional_text (get_own (VObj [("objective", VStr "Reach the finish line first")])
                        "objective") = true
       ∧ optional_array (get_own (VObj [("objective", VStr "Reach the finish line first")])
                           "targetObjects") = true
       ∧ optional_array (get_own (VObj [("objective", VStr "Reach the finish line first")])
                           "rules") = true
       ∧ optional_text (get_own (VObj [("objective", VStr "Reach the finish line first")])
                          "successCondition") = true
       ∧ optional_text (get_own (VObj [("objective", VStr "Reach the finish line first")])
                          "failureConsequence") = true).
Proof.
  apply (validateChallenge_accepts (VObj [("objective", VStr "Reach the finish line first")])).
  reflexivity.
Defined.

(** X4. [validateEnvironment] of a partial environment that is neither [null]
    nor [undefined] returns a list of at most three issues, which is empty
    exactly when [location] is absent or a text that is not blank and each of
    [props] and [constraints] is absent or an array. *)
Theorem validateEnvironment_accepts (environment : value) :
  is_nullish environment = false →
  ∃ issues,
    ValidationUtils.validateEnvironment environment = Ok issues
    ∧ (length issues ≤ 3)%nat
    ∧ (issues = [] ↔
       optional_text (get_own environment "location") = true
       ∧ optional_array (get_own environment "props") = true
       ∧ optional_array (get_own environment "constraints") = true).
Proof. apply validateEnvironment_issues. Qed.

Lemma validateEnvironment_accepts_witness :
  ∃ issues,
    ValidationUtils.validateEnvironment (VObj [("location", VStr "racing track")]) = Ok issues
    ∧ (length issues ≤ 3)%nat
    ∧ (issues = [] ↔
       optional_text (get_own (VObj [("location", VStr "racing track")]) "location") = true
       ∧ optional_array (get_own (VObj [("location", VStr "racing track")]) "props") = true
       ∧ optional_array (get_own (VObj [("location", VStr "racing track")]) "constraints")
         = true).
Proof.
  apply (validateEnvironment_accepts (VObj [("location", VStr "racing track")])).
  reflexivity.
Defined.
Lemma fold_push_if_empty {A} (c : A → bool) (msg : A → string) keys issues :
  fold_left (λ issues k, ValidationUtils.push_if (c k) (msg k) issues) keys issues = []
  ↔ issues = [] ∧ forallb (λ k, negb (c k)) keys = true.
Proof.
  revert issues. induction keys as [|k keys IH]; intros issues; cbn [fold_left forallb].
  - naive_solver.
  - rewrite IH, push_if_nil, andb_true_iff, negb_true_iff. naive_solver.
Qed.

(** X5. [validateCustomizations] without a participants override (absent,
    or falsy) does not look at the template: it passes exactly when the
    challenge override is absent or [validateChallenge] finds nothing, the
    environment override is absent or [validateEnvironment] finds nothing, and
    the dialogue override is absent or an object (an array counts) whose keys
    are all among [intro], [gameplay], [conclusion].  The values of the
    dialogue override are not looked at.  Otherwise it throws
    [CustomizationValidationError] for the id of the template with a list of
    issues that is not empty. *)
Theorem validateCustomizations_without_participants (template customizations : value) :
  is_nullish template = false →
  is_nullish customizations = false →
  truthy (get_own customizations "participants") = false →
  let challenge := get_own customizations "challenge" in
  let environment := get_own customizations "environment" in
  let dialogue := get_own customizations "dialogue" in
  if (negb (truthy challenge) || valid_challenge challenge)
     && (negb (truthy environment) || valid_environment environment)
     && (negb (truthy dialogue)
         || (String.eqb (typeof dialogue) "object"
             && forallb (λ k, includes ["intro"; "gameplay"; "conclusion"] (VStr k))
                  (own_keys dialogue)))
  then ValidationUtils.validateCustomizations template customizations = Ok ()
  else ∃ issues,
         issues ≠ []
         ∧ ValidationUtils.validateCustomizations template customizations
           = Throw (CustomizationValidationError (get_own template "id") issues).
Proof.
  intros Ht Hc Hp challenge environment dialogue.
  unfold ValidationUtils.validateCustomizations.
  rewrite !(get_defined customizations) by done. rewrite bind_Ok, Hp, !bind_Ok.
  fold challenge environment dialogue.
  match goal with
  | |- context [(if truthy challenge then ?a else ?b) ≫= _] =>
      assert (∃ A, (if truthy challenge then a else b) = Ok A
                   ∧ (A = [] ↔ negb (truthy challenge) || valid_challenge challenge = true))
        as (A & -> & HA)
  end.
  { destruct (truthy challenge) eqn:Hch; [|by exists []].
    destruct (validateChallenge_issues challenge (truthy_defined _ Hch))
      as (found & Hfound & _ & _).
    unfold valid_challenge. rewrite Hfound, bind_Ok. eexists. split; [reflexivity|].
    destruct found; cbn; naive_solver. }
  rewrite !bind_Ok.
  match goal with
  | |- context [(if truthy environment then ?a else ?b) ≫= _] =>
      assert (∃ B, (if truthy environment then a else b) = Ok B
                   ∧ (B = [] ↔ A = []
                        ∧ negb (truthy environment) || valid_environment environment = true))
        as (B & -> & HB)
  end.
  { destruct (truthy environment) eqn:Henv; [|exists A; cbn; naive_solver].
    destruct (validateEnvironment_issues environment (truthy_defined _ Henv))
      as (found & Hfound & _ & _).
    unfold valid_environment. rewrite Hfound, bind_Ok. eexists. split; [reflexivity|].
    rewrite app_nil. destruct found; cbn; naive_solver. }
  rewrite !bind_Ok.
  match goal with
  | |- context [(0 <? length ?D)%nat] =>
      assert (D = [] ↔ B = []
                ∧ negb (truthy dialogue)
                  || (String.eqb (typeof dialogue) "object"
                      && forallb (λ k, includes ["intro"; "gameplay"; "conclusion"] (VStr k))
                           (own_keys dialogue)) = true) as HD;
      [|destruct D as [|issue rest]]
  end.
  { destruct (truthy dialogue); [|cbn; naive_solver].
    destruct (String.eqb (typeof dialogue) "object"); cbn [negb orb andb].
    - rewrite fold_push_if_empty.
      replace (forallb (λ k, negb (negb (includes ["intro"; "gameplay"; "conclusion"] (VStr k))))
                 (own_keys dialogue))
        with (forallb (λ k, includes ["intro"; "gameplay"; "conclusion"] (VStr k))
                (own_keys dialogue)); [done|].
      induction (own_keys dialogue) as [|k l IH]; cbn [forallb]; [done|].
      by rewrite negb_involutive, IH.
    - rewrite app_nil. naive_solver. }
  - destruct HD as [HD _]. destruct (HD eq_refl) as [HB' ->].
    apply HB in HB' as [HA' ->]. apply HA in HA' as ->. done.
  - cbn [length Nat.ltb Nat.leb]. rewrite get_defined by done. rewrite bind_Ok.
    match goal with
    | |- if ?b then _ else _ =>
        destruct b eqn:Hacc; [|eexists; split; [|reflexivity]; done]
    end.
    apply andb_true_iff in Hacc as [[H1 H2]%andb_true_iff H3].
    destruct HD as [_ HD]. discriminate HD. split; [|done].
    apply HB. split; [|done]. by apply HA.
Qed.

Lemma validateCustomizations_without_participants_witness :
  ValidationUtils.validateCustomizations OriginalChallengeTemplate intro_customizations = Ok ().
Proof.
  apply (validateCustomizations_without_participants
           OriginalChallengeTemplate intro_customizations); reflexivity.
Defined.
Ltac bind_inv H :=
  repeat match type of H with
         | (Ok _ ≫= _) = _ => rewrite bind_Ok in H
         | (?m ≫= _) = _ =>
             let E := fresh "Hstep" in
             destruct m eqn:E; [rewrite bind_Ok in H|discriminate..]
         end.

(** What a template that [validateTemplate] lets through has, whatever its
    type. *)
Lemma validateTemplate_Ok_inv URL t :
  ValidationUtils.validateTemplate URL t = Ok () →
  is_nullish t = false
  ∧ nonempty_text (get_own t "id") = true
  ∧ nonempty_text (get_own t "name") = true
  ∧ nonempty_text (get_own t "description") = true
  ∧ truthy (get_own t "metadata") = true
  ∧ URL (to_string (get_path t ["metadata"; "originalVideo"])) = true
  ∧ (∃ ps, get_own t "participants" = VArr ps ∧ ps ≠ []
           ∧ gamemasters ps = 1%nat ∧ forallb valid_participant ps = true)
  ∧ truthy (get_own t "segments") = true
  ∧ Forall (λ k, truthy (get_path t ["segments"; k]) = true) segment_names.
Proof.
  intros H. unfold ValidationUtils.validateTemplate in H.
  destruct (is_nullish t) eqn:Ht; [unfold get in H; rewrite Ht in H; discriminate|].
  rewrite !(get_defined t) in H by done. rewrite !bind_Ok in H.
  rewrite !required_text_check in H.
  match type of H with
  | (?m ≫= _) = _ => destruct m as [i4| |] eqn:H4; [|discriminate..]
  end.
  rewrite !bind_Ok in H.
  match type of H with
  | (?m ≫= _) = _ => destruct m as [i5| |] eqn:H5; [|discriminate..]
  end.
  rewrite !bind_Ok in H.
  match type of H with
  | (?m ≫= _) = _ => destruct m as [i6| |] eqn:H6; [|discriminate..]
  end.
  rewrite bind_Ok in H.
  destruct (0 <? length i6)%nat eqn:Hany; [rewrite bind_Ok in H; discriminate|].
  apply has_issues_false in Hany. subst i6. clear H.
  (* the segments *)
  destruct (truthy (get_own t "segments")) eqn:Hsegs; cbn [negb] in H6.
  2:{ injection H6 as H6. by apply app_nil in H6 as [_ [=]]. }
  bind_inv H6. injection H6 as H6.
  apply push_if_nil in H6 as [_ H6]. rewrite !push_if_nil in H6.
  destruct H6 as (Hc%negb_false_iff & Hg%negb_false_iff & Hi%negb_false_iff & ->).
  (* the participants *)
  destruct (negb (isArray (get_own t "participants"))
            || (length (elements (get_own t "participants")) =? 0)%nat) eqn:Hps.
  { injection H5 as H5. by apply app_nil in H5 as [_ [=]]. }
  apply orb_false_iff in Hps as [Harr%negb_false_iff Hlen%Nat.eqb_neq].
  destruct (get_own t "participants") as [| | | | | |ps|] eqn:Hparts; try discriminate.
  cbn [elements] in *.
  destruct (ValidationUtils.gamemaster_count ps) as [gm| |] eqn:Hgm; try discriminate.
  rewrite bind_Ok in H5.
  pose proof (gamemaster_count_Ok_inv _ _ Hgm) as Hdefined.
  rewrite (gamemaster_count_spec ps Hdefined) in Hgm. injection Hgm as <-.
  destruct (each_participant_spec "Participant" ps Hdefined) as (found & Hfound & Hvalid).
  rewrite Hfound, bind_Ok in H5. injection H5 as H5.
  apply app_nil in H5 as [H5 ->]. rewrite !push_if_nil in H5.
  destruct H5 as (Hmany%Nat.ltb_ge & Hnone%Nat.eqb_neq & ->).
  (* the metadata *)
  destruct (truthy (get_own t "metadata")) eqn:Hmd; cbn [negb] in H4.
  2:{ injection H4 as H4. by apply app_nil in H4 as [_ [=]]. }
  rewrite !(get_defined (get_own t "metadata")) in H4 by (by apply truthy_defined).
  bind_inv H4. injection H4 as H4.
  rewrite !push_if_nil in H4.
  destruct H4 as (_ & _ & _ & Hurl & Hdesc%negb_false_iff & Hname%negb_false_iff
                  & Hid%negb_false_iff & _).
  apply orb_false_iff in Hurl as [_ Hurl%negb_false_iff].
  repeat split; try done.
  - exists ps. repeat split; try done.
    + by destruct ps.
    + lia.
    + by apply Hvalid.
  - unfold segment_names. repeat constructor; done.
Qed.


(** X6. A template that [validateTemplate] lets through, whatever its static
    type, is a value with: an id, a name and a description that are texts
    with at least one character; a metadata member whose [originalVideo] the
    URL parser accepts; an array of participants that is not empty, has
    exactly one gamemaster, and in which [validateParticipant] finds nothing;
    and a segments member with the three segments [intro], [gameplay] and
    [conclusion]. *)
Theorem validateTemplate_sound (URL_parses : string → bool) (template : value) :
  ValidationUtils.validateTemplate URL_parses template = Ok () →
  nonempty_text (get_own template "id") = true
  ∧ nonempty_text (get_own template "name") = true
  ∧ nonempty_text (get_own template "description") = true
  ∧ truthy (get_own template "metadata") = true
  ∧ URL_parses (to_string (get_path template ["metadata"; "originalVideo"])) = true
  ∧ (∃ ps, get_own template "participants" = VArr ps ∧ ps ≠ []
           ∧ gamemasters ps = 1%nat ∧ forallb valid_participant ps = true)
  ∧ truthy (get_own template "segments") = true
  ∧ Forall (λ k, truthy (get_path template ["segments"; k]) = true) segment_names.
Proof. intros H. by apply validateTemplate_Ok_inv in H as (_ & H). Qed.

Lemma validateTemplate_sound_witness :
  nonempty_text (get_own OriginalChallengeTemplate "id") = true
  ∧ nonempty_text (get_own OriginalChallengeTemplate "name") = true
  ∧ nonempty_text (get_own OriginalChallengeTemplate "description") = true
  ∧ truthy (get_own OriginalChallengeTemplate "metadata") = true
  ∧ starts_with_scheme
      (to_string (get_path OriginalChallengeTemplate ["metadata"; "originalVideo"])) = true
  ∧ (∃ ps, get_own OriginalChallengeTemplate "participants" = VArr ps ∧ ps ≠ []
           ∧ gamemasters ps = 1%nat ∧ forallb valid_participant ps = true)
  ∧ truthy (get_own OriginalChallengeTemplate "segments") = true
  ∧ Forall (λ k, truthy (get_path OriginalChallengeTemplate ["segments"; k]) = true)
      segment_names.
Proof.
  apply (validateTemplate_sound starts_with_scheme OriginalChallengeTemplate).
  vm_compute. reflexivity.
Defined.

(** ** The registry invariant *)













(** ** The registry *)

Lemma update_absent {V} k (x : V) m : assoc k m = None → update k x m = m ++ [(k, x)].
Proof.
  induction m as [|[k' v] m IH]; cbn; [done|].
  destruct (String.eqb k k'); [done|]. intros H. by rewrite IH.
Qed.

Lemma update_present {V} k (x : V) m :
  is_Some (assoc k m) → (update k x m).*1 = m.*1.
Proof.
  induction m as [|[k' v] m IH]; cbn; [by intros [? [=]]|].
  destruct (String.eqb_spec k k') as [->|Hne]; [done|]. intros H. cbn. by rewrite IH.
Qed.

Lemma assoc_app_l {V} k (m m' : list (string * V)) v :
  assoc k m = Some v → assoc k (m ++ m') = Some v.
Proof.
  induction m as [|[k' v'] m IH]; cbn; [done|]. by destruct (String.eqb k k').
Qed.

Lemma getTemplate_unknown e id :
  nonblank_text (VStr id) = true → assoc id (templates e) = None →
  run (getTemplate (VStr id)) e = (Throw (TemplateNotFoundError id), e).
Proof.
  intros Hid Ht. unfold getTemplate. do 2 run_step.
  rewrite validateInput_string_ok by done. run_step. cbn [run this].
  unfold map_get. rewrite Ht. done.
Qed.

Lemma validateInput_string_rejects {A} v p (k : M A) e :
  nonblank_text v = false →
  is_InvalidInputError
    (run (lift (ValidationUtils.validateInput v p "string");; k) e).1 = true
  ∧ (run (lift (ValidationUtils.validateInput v p "string");; k) e).2 = e.
Proof.
  intros H. run_step. rewrite run_lift.
  pose proof (validateInput_string_throw v p H) as Hthrow.
  destruct (ValidationUtils.validateInput v p "string") as [[]|x|]; try discriminate.
  by destruct x.
Qed.

(** X7. A registration that returns stores the template under its id, which
    was free, after the templates that were there, and touches nothing else:
    the id is listed last by [getAvailableTemplates] and, when the id is not
    blank, [getTemplate] returns the very template and [hasTemplate] answers
    [true]. *)
Theorem registerTemplate_then_lookup (URL_parses : string → bool)
    (e e' : TemplateEngine) (template : value) :
  run (registerTemplate URL_parses template) e = (Ok (), e') →
  ∃ id,
    get_own template "id" = VStr id
    ∧ assoc id (templates e) = None
    ∧ templates e' = templates e ++ [(id, template)]
    ∧ instances e' = instances e
    ∧ run getAvailableTemplates e' = (Ok ((templates e).*1 ++ [id]), e')
    ∧ (nonblank_text (VStr id) = true →
       run (getTemplate (VStr id)) e' = (Ok template, e')
       ∧ run (hasTemplate (VStr id)) e' = (Ok true, e')).
Proof.
  intros Hrun.
  assert (is_object template = true) as Hobj.
  { destruct (is_object template) eqn:Hobj; [done|].
    unfold registerTemplate in Hrun.
    rewrite run_bind, run_lift, validateInput_object, Hobj in Hrun. discriminate. }
  destruct (registerTemplate_spec URL_parses template e)
    as [[_ Hfail]|(id & Hid & Hfree & Hvalid & Hrun')].
  { rewrite Hrun in Hfail. by destruct Hfail. }
  rewrite Hrun in Hrun'. injection Hrun' as ->.
  cbn [templates instances].
  exists id. split; [done|]. split; [done|]. split; [by apply update_absent|].
  split; [done|]. split.
  { unfold getAvailableTemplates. cbn. by rewrite update_absent, fmap_app. }
  intros Hnonblank. split.
  - apply getTemplate_registered; [done| |by apply is_object_truthy].
    cbn [templates]. apply assoc_update_eq.
  - unfold hasTemplate. do 2 run_step. rewrite validateInput_string_ok by done.
    run_step. cbn [run this mret M_ret templates]. f_equal. f_equal.
    unfold map_has. apply bool_decide_eq_true. rewrite assoc_update_eq. by eexists.
Qed.

Lemma registerTemplate_then_lookup_witness :
  ∃ id,
    get_own OriginalChallengeTemplate "id" = VStr id
    ∧ assoc id (templates new_engine) = None
    ∧ templates fixture_engine = templates new_engine ++ [(id, OriginalChallengeTemplate)]
    ∧ instances fixture_engine = instances new_engine
    ∧ run getAvailableTemplates fixture_engine
      = (Ok ((templates new_engine).*1 ++ [id]), fixture_engine)
    ∧ (nonblank_text (VStr id) = true →
       run (getTemplate (VStr id)) fixture_engine = (Ok OriginalChallengeTemplate, fixture_engine)
       ∧ run (hasTemplate (VStr id)) fixture_engine = (Ok true, fixture_engine)).
Proof.
  apply (registerTemplate_then_lookup starts_with_scheme new_engine fixture_engine
           OriginalChallengeTemplate).
  vm_compute. reflexivity.
Defined.

(** X8. A template whose id is white space only passes [validateTemplate],
    so that it can be registered; it is then listed by
    [getAvailableTemplates], but [getTemplate], [hasTemplate] and
    [createInstance] reject its id as an empty string: the template cannot be
    looked up or instantiated. *)
Theorem blank_id_template_is_out_of_reach (URL_parses : string → bool)
    (e e' : TemplateEngine) (template : value) (id : string) :
  run (registerTemplate URL_parses template) e = (Ok (), e') →
  get_own template "id" = VStr id →
  nonblank_text (VStr id) = false →
  (∃ ids, run getAvailableTemplates e' = (Ok ids, e') ∧ id ∈ ids)
  ∧ run (getTemplate (VStr id)) e'
    = (Throw (InvalidInputError "templateId" "non-empty string" "empty string"), e')
  ∧ run (hasTemplate (VStr id)) e'
    = (Throw (InvalidInputError "templateId" "non-empty string" "empty string"), e')
  ∧ ∀ customizations en,
      run (createInstance (VStr id) customizations en) e'
      = (Throw (InvalidInputError "templateId" "non-empty string" "empty string"), e').
Proof.
  intros Hrun Hid Hblank.
  destruct (registerTemplate_spec URL_parses template e)
    as [[_ Hfail]|(id' & Hid' & Hfree & Hvalid & Hrun')].
  { rewrite Hrun in Hfail. by destruct Hfail. }
  rewrite Hid in Hid'. injection Hid' as <-.
  rewrite Hrun in Hrun'. injection Hrun' as ->.
  assert (ValidationUtils.validateInput (VStr id) "templateId" "string"
          = Throw (InvalidInputError "templateId" "non-empty string" "empty string")) as Hin.
  { cbn in Hblank |- *. apply negb_false_iff in Hblank. by rewrite Hblank. }
  split; [|split; [|split]].
  - eexists. split; [reflexivity|]. cbn [templates].
    rewrite update_absent, fmap_app by done. apply elem_of_app. right. cbn. left.
  - unfold getTemplate. do 2 run_step. by rewrite Hin.
  - unfold hasTemplate. do 2 run_step. by rewrite Hin.
  - intros customizations en. unfold createInstance. do 2 run_step. by rewrite Hin.
Qed.

Lemma blank_id_template_is_out_of_reach_witness :
  ∃ e',
    run (registerTemplate starts_with_scheme blank_id_template) new_engine = (Ok (), e')
    ∧ (∃ ids, run getAvailableTemplates e' = (Ok ids, e') ∧ " " ∈ ids)
    ∧ run (getTemplate (VStr " ")) e'
      = (Throw (InvalidInputError "templateId" "non-empty string" "empty string"), e').
Proof.
  eexists. split; [vm_compute; reflexivity|].
  match goal with
  | |- (∃ ids, run getAvailableTemplates ?e = _ ∧ _) ∧ _ =>
      destruct (blank_id_template_is_out_of_reach starts_with_scheme new_engine e
                  blank_id_template " ") as (H1 & H2 & _);
      [vm_compute; reflexivity|reflexivity|reflexivity|]
  end.
  split; [exact H1|exact H2].
Defined.

(** X9. No call removes or replaces a registered template: after any call of
    a public method, with any arguments and whatever its outcome, the
    registry holds the templates it held, in the same order and under the
    same ids, followed by at most one new template.  (The engine has no
    method that unregisters, although the message of
    [DuplicateTemplateError] suggests one.) *)
Theorem registry_only_grows (URL_parses : string → bool) (c : call) (e : TemplateEngine) :
  templates e `prefix_of` templates (after URL_parses c e)
  ∧ (length (templates (after URL_parses c e)) ≤ S (length (templates e)))%nat
  ∧ ∀ id template,
      assoc id (templates e) = Some template →
      assoc id (templates (after URL_parses c e)) = Some template.
Proof.
  assert (templates (after URL_parses c e) = templates e
          ∨ ∃ id t, templates (after URL_parses c e) = templates e ++ [(id, t)]) as Hcases.
  { destruct c; cbn [after].
    - destruct (registerTemplate_spec URL_parses template e)
        as [[-> _]|(id & _ & Hfree & _ & ->)]; [by left|].
      right. exists id, template. cbn [snd templates]. by apply update_absent.
    - left. by rewrite getTemplate_reads_only.
    - left. by rewrite getAvailableTemplates_reads_only.
    - left. by rewrite hasTemplate_reads_only.
    - left. destruct (createInstance_spec templateId customizations en e)
        as [[-> _]|(id & t & _ & _ & _ & _ & _ & ->)]; done.
    - left. by rewrite validateCustomizations_reads_only.
    - left. by rewrite generateScript_reads_only.
    - left. by rewrite getInstance_reads_only.
    - left. destruct (deleteInstance_spec instanceId e) as [->| ->]; done.
    - left. by rewrite getAvailableInstances_reads_only. }
  destruct Hcases as [->|(id & t & ->)].
  - split; [done|]. split; [lia|done].
  - split; [by apply prefix_app_r|]. split; [rewrite length_app; cbn; lia|].
    intros id' t' H. by apply assoc_app_l.
Qed.

(** X10. A call that does not return leaves no trace: when
    [registerTemplate], [createInstance] or [deleteInstance] throws, the
    engine is as it was before the call; the other public methods never
    change the engine. *)
Theorem failed_call_changes_nothing (URL_parses : string → bool) (e : TemplateEngine) :
  (∀ template,
     (run (registerTemplate URL_parses template) e).1 ≠ Ok () →
     (run (registerTemplate URL_parses template) e).2 = e)
  ∧ (∀ templateId customizations en,
       (∀ instance, (run (createInstance templateId customizations en) e).1 ≠ Ok instance) →
       (run (createInstance templateId customizations en) e).2 = e)
  ∧ (∀ instanceId,
       (∀ existed, (run (deleteInstance instanceId) e).1 ≠ Ok existed) →
       (run (deleteInstance instanceId) e).2 = e)
  ∧ (∀ id customizations,
       (run (getTemplate id) e).2 = e
       ∧ (run (hasTemplate id) e).2 = e
       ∧ (run getAvailableTemplates e).2 = e
       ∧ (run (validateCustomizations id customizations) e).2 = e
       ∧ (run (generateScript id) e).2 = e
       ∧ (run (getInstance id) e).2 = e
       ∧ (run getAvailableInstances e).2 = e).
Proof.
  split; [|split; [|split]].
  - intros template Hfail.
    destruct (registerTemplate_spec URL_parses template e)
      as [[-> _]|(id & _ & _ & _ & Hrun)]; [done|].
    rewrite Hrun in Hfail. by destruct Hfail.
  - intros templateId customizations en Hfail.
    destruct (createInstance_spec templateId customizations en e)
      as [[-> _]|(id & t & _ & _ & _ & _ & _ & Hrun)]; [done|].
    rewrite Hrun in Hfail. by edestruct Hfail.
  - intros instanceId Hfail. unfold deleteInstance in *.
    revert Hfail. do 2 run_step.
    destruct (ValidationUtils.validateInput instanceId "instanceId" "string") as [[]| |];
      [|done|done].
    intros Hfail. by edestruct Hfail.
  - intros id customizations.
    rewrite getTemplate_reads_only, hasTemplate_reads_only,
      getAvailableTemplates_reads_only, validateCustomizations_reads_only,
      generateScript_reads_only, getInstance_reads_only,
      getAvailableInstances_reads_only. done.
Qed.

Lemma failed_call_changes_nothing_witness :
  (run (registerTemplate starts_with_scheme OriginalChallengeTemplate) fixture_engine).1 ≠ Ok ()
  ∧ (run (registerTemplate starts_with_scheme OriginalChallengeTemplate) fixture_engine).2
    = fixture_engine.
Proof.
  assert ((run (registerTemplate starts_with_scheme OriginalChallengeTemplate)
             fixture_engine).1 ≠ Ok ()) as H by (vm_compute; discriminate).
  split; [exact H|].
  exact (proj1 (failed_call_changes_nothing starts_with_scheme fixture_engine)
           OriginalChallengeTemplate H).
Defined.

Lemma registry_only_grows_witness :
  assoc "find-key-escape-room"
    (templates (after starts_with_scheme (RegisterTemplate blank_id_template) fixture_engine))
  = Some OriginalChallengeTemplate.
Proof.
  apply (registry_only_grows starts_with_scheme (RegisterTemplate blank_id_template)
           fixture_engine).
  reflexivity.
Defined.

(** ** The instance store *)

Lemma getInstance_stored e id instance :
  nonblank_text (VStr id) = true → assoc id (instances e) = Some instance →
  truthy instance = true →
  run (getInstance (VStr id)) e = (Ok instance, e).
Proof.
  intros Hid Hi Htruthy. unfold getInstance. do 2 run_step.
  rewrite validateInput_string_ok by done. run_step. cbn [run this].
  rewrite (map_get_assoc _ _ _ Hi), Htruthy. done.
Qed.

Lemma getInstance_unknown e id :
  nonblank_text (VStr id) = true → assoc id (instances e) = None →
  run (getInstance (VStr id)) e = (Throw (InstanceNotFoundError id), e).
Proof.
  intros Hid Hi. unfold getInstance. do 2 run_step.
  rewrite validateInput_string_ok by done. run_step. cbn [run this].
  unfold map_get. rewrite Hi. done.
Qed.

Lemma generateScript_unknown e id :
  nonblank_text (VStr id) = true → assoc id (instances e) = None →
  run (generateScript (VStr id)) e = (Throw (InstanceNotFoundError id), e).
Proof.
  intros Hid Hi. unfold generateScript. do 2 run_step.
  rewrite validateInput_string_ok by done. run_step. cbn [run this].
  unfold map_get. rewrite Hi. done.
Qed.

(** X11. An instance creation that returns stores the instance it returns
    under the generated id and touches no template and no other instance.
    The instance carries that id, the template id it was given, the four
    overrides as the customizations hold them ([{}] standing for an omitted
    argument) and the fixed generation settings; [getInstance] of the id
    returns it. *)
Theorem createInstance_then_lookup (e e' : TemplateEngine)
    (templateId customizations instance : value) (en : entropy) :
  run (createInstance templateId customizations en) e = (Ok instance, e') →
  let supplied :=
    match customizations with
    | VUndef => VObj []
    | _ => customizations
    end in
  instance = new_instance templateId (VStr (generateInstanceId en))
               (get_own supplied "challenge") (get_own supplied "participants")
               (get_own supplied "environment") (get_own supplied "dialogue")
  ∧ templates e' = templates e
  ∧ assoc (generateInstanceId en) (instances e') = Some instance
  ∧ (∀ id, id ≠ generateInstanceId en → assoc id (instances e') = assoc id (instances e))
  ∧ run (getInstance (VStr (generateInstanceId en))) e' = (Ok instance, e').
Proof.
  intros Hrun supplied.
  destruct (createInstance_spec templateId customizations en e)
    as [[_ Hfail]|(id & t & -> & Hid & Hobj & Ht & Hvalid & Hrun')].
  { rewrite Hrun in Hfail. by edestruct Hfail. }
  rewrite Hrun in Hrun'. injection Hrun' as -> ->. fold supplied.
  split; [done|]. split; [done|]. cbn [instances]. split; [apply assoc_update_eq|].
  split; [intros id' Hne; by apply assoc_update_ne|].
  apply getInstance_stored; [apply generateInstanceId_nonblank| |done].
  cbn [instances]. apply assoc_update_eq.
Qed.

Lemma createInstance_then_lookup_witness :
  ∃ instance e',
    run (createInstance (VStr "find-key-escape-room") racing_customizations first_entropy)
      fixture_engine = (Ok instance, e')
    ∧ templates e' = templates fixture_engine
    ∧ run (getInstance (VStr (generateInstanceId first_entropy))) e' = (Ok instance, e').
Proof.
  do 2 eexists. split; [vm_compute; reflexivity|].
  match goal with
  | |- templates ?e' = _ ∧ run _ _ = (Ok ?i, _) =>
      destruct (createInstance_then_lookup fixture_engine e'
                  (VStr "find-key-escape-room") racing_customizations i first_entropy)
        as (_ & H1 & _ & _ & H2); [vm_compute; reflexivity|]
  end.
  split; [exact H1|exact H2].
Defined.

(** X12. [createInstance] checks its arguments in a fixed order and stores
    nothing when a check fails: a template id that is not a text or is blank
    is reported first, as [InvalidInputError] for [templateId]; then
    customizations that are not a record ([null] and arrays included, an
    omitted argument standing for [{}]), as [InvalidInputError] for
    [customizations]; then a template id that is not registered, as
    [TemplateNotFoundError]; and last what [validateCustomizations] throws. *)
Theorem createInstance_rejections (e : TemplateEngine)
    (templateId customizations : value) (en : entropy) :
  let supplied :=
    match customizations with
    | VUndef => VObj []
    | _ => customizations
    end in
  let outcome := run (createInstance templateId customizations en) e in
  (nonblank_text templateId = false →
   ∃ expected received,
     outcome = (Throw (InvalidInputError "templateId" expected received), e))
  ∧ (nonblank_text templateId = true → is_object supplied = false →
     ∃ received,
       outcome = (Throw (InvalidInputError "customizations" "object" received), e))
  ∧ (∀ id, templateId = VStr id → nonblank_text templateId = true →
       is_object supplied = true → assoc id (templates e) = None →
       outcome = (Throw (TemplateNotFoundError id), e))
  ∧ (∀ id template x, templateId = VStr id → nonblank_text templateId = true →
       is_object supplied = true → assoc id (templates e) = Some template →
       truthy template = true →
       ValidationUtils.validateCustomizations template supplied = Throw x →
       outcome = (Throw x, e)).
Proof.
  intros supplied outcome. subst outcome. unfold createInstance. fold supplied.
  split; [|split; [|split]].
  - intros Hblank. do 2 run_step.
    destruct templateId as [| |b|n| |s|l|ps]; try (cbn; by do 2 eexists).
    cbn in Hblank |- *. apply negb_false_iff in Hblank. rewrite Hblank. by do 2 eexists.
  - intros Hid Hobj. do 2 run_step. rewrite validateInput_string_ok by done.
    do 2 run_step. rewrite validateInput_object, Hobj. by eexists.
  - intros id -> Hid Hobj Hfree. do 2 run_step. rewrite validateInput_string_ok by done.
    do 2 run_step. rewrite validateInput_object, Hobj. run_step.
    by rewrite getTemplate_unknown.
  - intros id template x -> Hid Hobj Ht Htruthy Hx.
    do 2 run_step. rewrite validateInput_string_ok by done.
    do 2 run_step. rewrite validateInput_object, Hobj. run_step.
    rewrite (getTemplate_registered e id template) by done.
    do 2 run_step. by rewrite Hx.
Qed.

Lemma createInstance_rejections_witness :
  (∃ expected received,
     run (createInstance (VStr " ") VNull first_entropy) fixture_engine
     = (Throw (InvalidInputError "templateId" expected received), fixture_engine))
  ∧ (∃ received,
       run (createInstance (VStr "find-key-escape-room") VNull first_entropy) fixture_engine
       = (Throw (InvalidInputError "customizations" "object" received), fixture_engine))
  ∧ run (createInstance (VStr "racing") VUndef first_entropy) fixture_engine
    = (Throw (TemplateNotFoundError "racing"), fixture_engine).
Proof.
  split; [|split].
  - apply (createInstance_rejections fixture_engine (VStr " ") VNull first_entropy).
    reflexivity.
  - apply (createInstance_rejections fixture_engine (VStr "find-key-escape-room") VNull
             first_entropy); reflexivity.
  - apply (createInstance_rejections fixture_engine (VStr "racing") VUndef first_entropy);
      reflexivity.
Defined.

(** X13. The generated id is not checked against the store: when it is
    already taken, the instance creation succeeds all the same and the new
    instance takes the place of the one that was stored under the id, so that
    the ids listed, and their number, stay as they were. *)
Theorem createInstance_replaces_on_collision (e e' : TemplateEngine)
    (templateId customizations instance previous : value) (en : entropy) :
  run (createInstance templateId customizations en) e = (Ok instance, e') →
  assoc (generateInstanceId en) (instances e) = Some previous →
  run getAvailableInstances e' = (Ok (instances e).*1, e')
  ∧ run (getInstance (VStr (generateInstanceId en))) e' = (Ok instance, e').
Proof.
  intros Hrun Hprevious.
  destruct (createInstance_spec templateId customizations en e)
    as [[_ Hfail]|(id & t & -> & Hid & Hobj & Ht & Hvalid & Hrun')].
  { rewrite Hrun in Hfail. by edestruct Hfail. }
  rewrite Hrun in Hrun'. injection Hrun' as -> ->. split.
  - unfold getAvailableInstances. cbn. rewrite update_present; [done|by eexists].
  - apply getInstance_stored; [apply generateInstanceId_nonblank| |done].
    cbn [instances]. apply assoc_update_eq.
Qed.

Lemma createInstance_replaces_on_collision_witness :
  ∃ instance e',
    run (createInstance (VStr "find-key-escape-room") racing_customizations first_entropy)
      two_instances_engine = (Ok instance, e')
    ∧ run getAvailableInstances e' = (Ok (instances two_instances_engine).*1, e')
    ∧ run (getInstance (VStr (generateInstanceId first_entropy))) e' = (Ok instance, e')
    ∧ instance ≠ first_instance.
Proof.
  do 2 eexists. split; [vm_compute; reflexivity|].
  match goal with
  | |- run getAvailableInstances ?e' = _ ∧ run _ _ = (Ok ?i, _) ∧ _ =>
      destruct (createInstance_replaces_on_collision two_instances_engine e'
                  (VStr "find-key-escape-room") racing_customizations i first_instance
                  first_entropy)
        as (H1 & H2); [vm_compute; reflexivity|reflexivity|]
  end.
  split; [exact H1|]. split; [exact H2|]. vm_compute. discriminate.
Defined.

(** X14. Deleting a stored instance returns [true] and removes that instance
    and no other: the templates and the other instances stay, [getInstance]
    and [generateScript] of the id throw [InstanceNotFoundError] from then
    on, and a second deletion returns [false]. *)
Theorem deleteInstance_removes (e : TemplateEngine) (id : string) (instance : value) :
  nonblank_text (VStr id) = true →
  assoc id (instances e) = Some instance →
  ∃ e',
    run (deleteInstance (VStr id)) e = (Ok true, e')
    ∧ templates e' = templates e
    ∧ assoc id (instances e') = None
    ∧ (∀ id', id' ≠ id → assoc id' (instances e') = assoc id' (instances e))
    ∧ run (getInstance (VStr id)) e' = (Throw (InstanceNotFoundError id), e')
    ∧ run (generateScript (VStr id)) e' = (Throw (InstanceNotFoundError id), e')
    ∧ run (deleteInstance (VStr id)) e' = (Ok false, e').
Proof.
  intros Hid Hstored.
  assert (∀ m : list (string * value), assoc id (drop_key id m) = None) as Hgone.
  { intros m. by rewrite assoc_drop_key, String.eqb_refl. }
  exists (mkEngine (templates e) (drop_key id (instances e))).
  split; [|split; [done|split; [apply Hgone|split]]].
  - unfold deleteInstance. do 2 run_step. rewrite validateInput_string_ok by done.
    run_step. cbn. unfold map_has. rewrite Hstored.
    by rewrite bool_decide_eq_true_2 by by eexists.
  - intros id' Hne. cbn [instances]. rewrite assoc_drop_key.
    by rewrite (proj2 (String.eqb_neq id' id)).
  - split; [|split].
    + apply getInstance_unknown; [done|apply Hgone].
    + apply generateScript_unknown; [done|apply Hgone].
    + unfold deleteInstance. do 2 run_step. rewrite validateInput_string_ok by done.
      run_step. cbn. unfold map_has. cbn [instances]. rewrite Hgone.
      rewrite bool_decide_eq_false_2 by (by intros [? [=]]).
      unfold map_delete. by rewrite (drop_key_absent id (drop_key id (instances e))).
Qed.

Lemma deleteInstance_removes_witness :
  ∃ e',
    run (deleteInstance (VStr (generateInstanceId first_entropy))) two_instances_engine
    = (Ok true, e')
    ∧ templates e' = templates two_instances_engine
    ∧ assoc (generateInstanceId first_entropy) (instances e') = None
    ∧ (∀ id', id' ≠ generateInstanceId first_entropy →
         assoc id' (instances e') = assoc id' (instances two_instances_engine))
    ∧ run (getInstance (VStr (generateInstanceId first_entropy))) e'
      = (Throw (InstanceNotFoundError (generateInstanceId first_entropy)), e')
    ∧ run (generateScript (VStr (generateInstanceId first_entropy))) e'
      = (Throw (InstanceNotFoundError (generateInstanceId first_entropy)), e')
    ∧ run (deleteInstance (VStr (generateInstanceId first_entropy))) e' = (Ok false, e').
Proof.
  apply (deleteInstance_removes two_instances_engine (generateInstanceId first_entropy)
           first_instance); reflexivity.
Defined.

(** ** Script generation and the validation wrapper *)

Lemma validateInput_string_cases v p :
  (nonblank_text v = true ∧ ValidationUtils.validateInput v p "string" = Ok ())
  ∨ (nonblank_text v = false
     ∧ ∃ expected received,
         ValidationUtils.validateInput v p "string"
         = Throw (InvalidInputError p expected received)).
Proof.
  destruct v as [| |b|n| |s|l|ps]; try (right; split; [done|]; cbn; by do 2 eexists).
  cbn. destruct (String.eqb (trim s) EmptyString); cbn.
  - right. split; [done|]. by do 2 eexists.
  - by left.
Qed.

(** X15. [generateScript] throws nothing but [InvalidInputError] for its
    parameter (an id that is not a text, or blank), [InstanceNotFoundError]
    with the id (no instance under the id), and [ScriptGenerationError] with
    the id: every failure of the template lookup, of the merge and of the
    rendering is wrapped in the latter. *)
Theorem generateScript_errors (e : TemplateEngine) (instanceId : value) (x : error) :
  (run (generateScript instanceId) e).1 = Throw x →
  (nonblank_text instanceId = false
   ∧ ∃ expected received, x = InvalidInputError "instanceId" expected received)
  ∨ (∃ id, instanceId = VStr id
           ∧ ((truthy (map_get (instances e) instanceId) = false
               ∧ x = InstanceNotFoundError id)
              ∨ (truthy (map_get (instances e) instanceId) = true
                 ∧ ∃ reason, x = ScriptGenerationError id reason))).
Proof.
  unfold generateScript. do 2 run_step.
  destruct (validateInput_string_cases instanceId "instanceId")
    as [[Hid ->]|(Hid & expected & received & ->)].
  2:{ cbn. intros [= <-]. left. split; [done|]. by do 2 eexists. }
  destruct instanceId as [| | | | |id| |]; try discriminate.
  run_step. cbn [run this].
  destruct (truthy (map_get (instances e) (VStr id))) eqn:Hstored; cbn [negb].
  2:{ cbn. intros [= <-]. right. exists id. split; [done|]. by left. }
  intros Hx. right. exists id. split; [done|]. right. split; [done|].
  unfold try_catchM in Hx. cbn [run] in Hx.
  match type of Hx with
  | (match ?body with _ => _ end).1 = _ => destruct body as [[script|y|] e1]
  end; try discriminate.
  destruct (is_TemplateNotFoundError y).
  - revert Hx. run_step. rewrite run_lift.
    assert (is_nullish (map_get (instances e) (VStr id)) = false) as Hnn
      by (by apply truthy_defined).
    rewrite (get_defined _ "templateId" Hnn). cbn. intros [= <-]. by eexists.
  - cbn in Hx. injection Hx as <-. by eexists.
Qed.

Lemma generateScript_errors_witness :
  (run (generateScript (VStr "no such instance")) fixture_engine).1
  = Throw (InstanceNotFoundError "no such instance")
  ∧ ((nonblank_text (VStr "no such instance") = false
      ∧ ∃ expected received,
          InstanceNotFoundError "no such instance"
          = InvalidInputError "instanceId" expected received)
     ∨ (∃ id, VStr "no such instance" = VStr id
              ∧ ((truthy (map_get (instances fixture_engine) (VStr "no such instance"))
                  = false
                  ∧ InstanceNotFoundError "no such instance" = InstanceNotFoundError id)
                 ∨ (truthy (map_get (instances fixture_engine) (VStr "no such instance"))
                    = true
                    ∧ ∃ reason, InstanceNotFoundError "no such instance"
                                = ScriptGenerationError id reason)))).
Proof.
  split; [reflexivity|].
  apply (generateScript_errors fixture_engine (VStr "no such instance")
           (InstanceNotFoundError "no such instance")).
  reflexivity.
Defined.

(** X16. When the template of a stored instance is not in the registry,
    [generateScript] throws [ScriptGenerationError] with the reason that the
    template no longer exists, and changes nothing.  (No sequence of
    well-typed calls leads to such an engine, as no method removes a
    template.) *)
Theorem generateScript_of_orphan (e : TemplateEngine) (id tid : string) (instance : value) :
  nonblank_text (VStr id) = true →
  assoc id (instances e) = Some instance →
  truthy instance = true →
  get_own instance "templateId" = VStr tid →
  nonblank_text (VStr tid) = true →
  assoc tid (templates e) = None →
  run (generateScript (VStr id)) e
  = (Throw (ScriptGenerationError id ("Template '" +:+ tid +:+ "' no longer exists")), e).
Proof.
  intros Hid Hstored Htruthy Htid Hnonblank Hfree.
  unfold generateScript. do 2 run_step. rewrite validateInput_string_ok by done.
  run_step. cbn [run this]. rewrite (map_get_assoc _ _ _ Hstored), Htruthy. cbn [negb].
  unfold try_catchM. cbn [run]. do 2 run_step.
  rewrite get_defined by (by apply truthy_defined). rewrite Htid. run_step.
  rewrite getTemplate_unknown by done. cbn [is_TemplateNotFoundError].
  by do 2 run_step.
Qed.

Lemma generateScript_of_orphan_witness :
  run (generateScript (VStr (generateInstanceId first_entropy))) orphan_engine
  = (Throw (ScriptGenerationError (generateInstanceId first_entropy)
              ("Template '" +:+ "find-key-escape-room" +:+ "' no longer exists")),
     orphan_engine).
Proof.
  apply (generateScript_of_orphan orphan_engine (generateInstanceId first_entropy)
           "find-key-escape-room" first_instance); reflexivity.
Defined.

(** X17. [validateCustomizations] of the engine never throws and changes
    nothing.  For customizations other than [undefined] it returns [true]
    exactly when [createInstance] with the same arguments returns an
    instance.  For [undefined] it returns [false], although [createInstance]
    then takes [{}] and may succeed. *)
Theorem validateCustomizations_predicts_createInstance (e : TemplateEngine)
    (templateId customizations : value) (en : entropy) :
  (run (validateCustomizations templateId customizations) e).2 = e
  ∧ (∀ x, (run (validateCustomizations templateId customizations) e).1 ≠ Throw x)
  ∧ (customizations ≠ VUndef →
     (run (validateCustomizations templateId customizations) e).1 = Ok true
     ↔ ∃ instance, (run (createInstance templateId customizations en) e).1 = Ok instance)
  ∧ (run (validateCustomizations templateId VUndef) e).1 = Ok false.
Proof.
  split; [apply validateCustomizations_reads_only|]. split; [|split].
  - intros x. unfold validateCustomizations, try_catchM. cbn [run].
    match goal with
    | |- (match ?body with _ => _ end).1 ≠ _ => by destruct body as [[b|y|] e1]
    end.
  - intros Hdefined.
    assert (match customizations with VUndef => VObj [] | _ => customizations end
            = customizations) as Hsupplied by (by destruct customizations).
    unfold validateCustomizations, createInstance, try_catchM. cbn [run].
    rewrite Hsupplied. do 2 run_step.
    destruct (validateInput_string_cases templateId "templateId")
      as [[Hid ->]|(Hid & expected & received & ->)].
    2:{ cbn. split; [done|by intros [? ?]]. }
    do 2 run_step. rewrite validateInput_object.
    destruct (is_object customizations) eqn:Hobj.
    2:{ cbn. split; [done|by intros [? ?]]. }
    repeat run_step.
    pose proof (getTemplate_reads_only templateId e) as Hread.
    destruct (run (getTemplate templateId) e) as [[template|y|] e1]; cbn in Hread; subst e1.
    2,3: cbn; split; [done|by intros [? ?]].
    repeat run_step.
    destruct (ValidationUtils.validateCustomizations template customizations) as [[]|y|].
    2,3: cbn; split; [done|by intros [? ?]].
    repeat run_step. rewrite !get_defined by (by apply is_object_defined).
    destruct templateId as [| | | | |id| |]; try discriminate.
    cbn. split; [by eexists|done].
  - unfold validateCustomizations, try_catchM. cbn [run]. do 2 run_step.
    destruct (validateInput_string_cases templateId "templateId")
      as [[Hid ->]|(Hid & expected & received & ->)]; [|done].
    by do 2 run_step.
Qed.

Lemma validateCustomizations_predicts_createInstance_witness :
  (run (validateCustomizations (VStr "find-key-escape-room") racing_customizations)
     fixture_engine).1 = Ok true
  ↔ ∃ instance,
      (run (createInstance (VStr "find-key-escape-room") racing_customizations first_entropy)
         fixture_engine).1 = Ok instance.
Proof.
  apply (validateCustomizations_predicts_createInstance fixture_engine
           (VStr "find-key-escape-room") racing_customizations first_entropy).
  discriminate.
Defined.

(** X18. On an engine that well-typed calls produced, [generateScript] never
    throws [ScriptGenerationError]: an id that is not a text, or is blank,
    gets [InvalidInputError]; a text under which no instance is stored gets
    [InstanceNotFoundError]; and the id of every stored instance gets a
    script. *)
Theorem generateScript_never_fails_to_render (URL_parses : string → bool)
    (e : TemplateEngine) (instanceId : value) :
  reachable URL_parses e →
  (nonblank_text instanceId = false
   ∧ ∃ expected received,
       run (generateScript instanceId) e
       = (Throw (InvalidInputError "instanceId" expected received), e))
  ∨ (∃ id, instanceId = VStr id
           ∧ assoc id (instances e) = None
           ∧ run (generateScript instanceId) e = (Throw (InstanceNotFoundError id), e))
  ∨ (∃ id instance script,
       instanceId = VStr id
       ∧ assoc id (instances e) = Some instance
       ∧ run (generateScript instanceId) e = (Ok script, e)).
Proof.
  intros Hreach.
  destruct (validateInput_string_cases instanceId "instanceId")
    as [[Hid Hvalid]|(Hid & expected & received & Hvalid)].
  - right. destruct instanceId as [| | | | |id| |]; try discriminate.
    destruct (assoc id (instances e)) as [instance|] eqn:Hassoc.
    + right. exists id, instance.
      destruct (generateScript_stored _ _ _ _ Hreach Hassoc) as (tid & t & _ & _ & _ & ->).
      by eexists.
    + left. exists id. by rewrite generateScript_unknown.
  - left. split; [done|]. exists expected, received.
    unfold generateScript. do 2 run_step. by rewrite Hvalid.
Qed.

Lemma generateScript_never_fails_to_render_witness :
  (nonblank_text (VStr "no such instance") = false
   ∧ ∃ expected received,
       run (generateScript (VStr "no such instance")) two_instances_engine
       = (Throw (InvalidInputError "instanceId" expected received), two_instances_engine))
  ∨ (∃ id, VStr "no such instance" = VStr id
           ∧ assoc id (instances two_instances_engine) = None
           ∧ run (generateScript (VStr "no such instance")) two_instances_engine
             = (Throw (InstanceNotFoundError id), two_instances_engine))
  ∨ (∃ id instance script,
       VStr "no such instance" = VStr id
       ∧ assoc id (instances two_instances_engine) = Some instance
       ∧ run (generateScript (VStr "no such instance")) two_instances_engine
         = (Ok script, two_instances_engine)).
Proof.
  apply (generateScript_never_fails_to_render starts_with_scheme two_instances_engine
           (VStr "no such instance")).
  apply two_instances_engine_reachable.
Defined.

(** ** The listings *)

Lemma assoc_None_keys {V} k (m : list (string * V)) : assoc k m = None ↔ k ∉ m.*1.
Proof.
  induction m as [|[k' v] m IH]; cbn.
  - split; [intros _; apply not_elem_of_nil|done].
  - rewrite not_elem_of_cons, <-IH.
    destruct (String.eqb_spec k k') as [->|Hne]; naive_solver.
Qed.

Lemma NoDup_update {V} k (x : V) m : NoDup m.*1 → NoDup (update k x m).*1.
Proof.
  intros Hm. destruct (assoc k m) as [v|] eqn:Hk.
  - by rewrite update_present.
  - rewrite update_absent, fmap_app by done. cbn.
    apply NoDup_app. split; [done|]. split; [|apply NoDup_singleton].
    intros k' Hin Hk'. apply list_elem_of_singleton in Hk' as ->.
    by apply assoc_None_keys in Hk.
Qed.

Lemma NoDup_drop_key {V} k (m : list (string * V)) : NoDup m.*1 → NoDup (drop_key k m).*1.
Proof.
  unfold drop_key. induction m as [|[k' v] m IH]; cbn; [done|].
  rewrite NoDup_cons. intros [Hk' Hm]. destruct (decide (k' ≠ k)); cbn; [|by apply IH].
  apply NoDup_cons. split; [|by apply IH].
  rewrite list_elem_of_fmap in Hk' |- *. intros ([k'' v'] & -> & Hin%list_elem_of_filter).
  apply Hk'. exists (k'', v'). naive_solver.
Qed.

Lemma keys_unique_after URL c e : keys_unique e → keys_unique (after URL c e).
Proof.
  intros [Hts His]. destruct c as [t|id| |id|id c en|id c|id|id|id|]; cbn [after].
  - destruct (registerTemplate_spec URL t e) as [[-> _]|(id & _ & _ & _ & ->)]; [done|].
    split; cbn [templates instances snd]; [by apply NoDup_update|done].
  - by rewrite getTemplate_reads_only.
  - by rewrite getAvailableTemplates_reads_only.
  - by rewrite hasTemplate_reads_only.
  - destruct (createInstance_spec id c en e) as [[-> _]|(tid & t & _ & _ & _ & _ & _ & ->)];
      [done|].
    split; cbn [templates instances snd]; [done|by apply NoDup_update].
  - by rewrite validateCustomizations_reads_only.
  - by rewrite generateScript_reads_only.
  - by rewrite getInstance_reads_only.
  - destruct (deleteInstance_spec id e) as [->| ->]; [done|].
    split; cbn [templates instances]; [done|].
    unfold map_delete. destruct id; try done. by apply NoDup_drop_key.
  - by rewrite getAvailableInstances_reads_only.
Qed.

Lemma reachable_keys_unique URL e : reachable URL e → keys_unique e.
Proof.
  induction 1 as [|e c _ IH _]; [split; constructor|by apply keys_unique_after].
Qed.

Lemma new_instance_instanceId a b c d f g :
  get_own (new_instance a b c d f g) "instanceId" = b.
Proof. done. Qed.

(** X19. On an engine that well-typed calls produced, the listings agree with
    the lookups.  Neither [getAvailableTemplates] nor [getAvailableInstances]
    lists an id twice.  A template id that is not blank is listed exactly
    when [getTemplate] returns a template for it, which then carries that id.
    An instance id is listed exactly when [getInstance] returns an instance
    for it, which then carries that id. *)
Theorem listings_agree_with_lookups (URL_parses : string → bool) (e : TemplateEngine) :
  reachable URL_parses e →
  ∃ templateIds instanceIds,
    run getAvailableTemplates e = (Ok templateIds, e)
    ∧ run getAvailableInstances e = (Ok instanceIds, e)
    ∧ NoDup templateIds
    ∧ NoDup instanceIds
    ∧ (∀ id, nonblank_text (VStr id) = true →
         id ∈ templateIds
         ↔ ∃ template, run (getTemplate (VStr id)) e = (Ok template, e)
                       ∧ get_own template "id" = VStr id)
    ∧ (∀ id, id ∈ instanceIds
             ↔ ∃ instance, run (getInstance (VStr id)) e = (Ok instance, e)
                           ∧ get_own instance "instanceId" = VStr id).
Proof.
  intros Hreach. exists (templates e).*1, (instances e).*1.
  destruct (reachable_keys_unique _ _ Hreach) as [Hts His].
  split; [done|]. split; [done|]. split; [done|]. split; [done|]. split.
  - intros id Hid. split.
    + intros Hin. destruct (assoc id (templates e)) as [t|] eqn:Hassoc.
      2:{ by apply assoc_None_keys in Hassoc. }
      destruct (registered_template URL_parses e id t Hreach Hassoc) as (Htyped & _ & Hkey).
      exists t. split; [|done]. apply getTemplate_registered; [done|done|].
      by apply is_object_truthy, is_ChallengeTemplate_objects.
    + intros (t & Hget & _). destruct (assoc id (templates e)) as [t'|] eqn:Hassoc.
      * by eapply assoc_key.
      * by rewrite getTemplate_unknown in Hget.
  - intros id. split.
    + intros Hin. destruct (assoc id (instances e)) as [inst|] eqn:Hassoc.
      2:{ by apply assoc_None_keys in Hassoc. }
      destruct (stored_instance URL_parses e id inst Hreach Hassoc)
        as (tid & c & t & en & Hkey & Hinst & _).
      cbn [fst snd] in *. exists inst. split.
      * apply getInstance_stored; [|done|].
        -- rewrite Hkey. apply generateInstanceId_nonblank.
        -- by rewrite Hinst.
      * by rewrite Hinst.
    + intros (inst & Hget & _).
      destruct (validateInput_string_cases (VStr id) "instanceId")
        as [[Hid _]|(_ & expected & received & Hthrow)].
      * destruct (assoc id (instances e)) as [inst'|] eqn:Hassoc.
        -- by eapply assoc_key.
        -- by rewrite getInstance_unknown in Hget.
      * unfold getInstance in Hget. revert Hget. do 2 run_step. by rewrite Hthrow.
Qed.

Lemma listings_agree_with_lookups_witness :
  ∃ templateIds instanceIds,
    run getAvailableTemplates two_instances_engine = (Ok templateIds, two_instances_engine)
    ∧ run getAvailableInstances two_instances_engine = (Ok instanceIds, two_instances_engine)
    ∧ NoDup templateIds
    ∧ NoDup instanceIds
    ∧ (∀ id, nonblank_text (VStr id) = true →
         id ∈ templateIds
         ↔ ∃ template, run (getTemplate (VStr id)) two_instances_engine
                       = (Ok template, two_instances_engine)
                       ∧ get_own template "id" = VStr id)
    ∧ (∀ id, id ∈ instanceIds
             ↔ ∃ instance, run (getInstance (VStr id)) two_instances_engine
                           = (Ok instance, two_instances_engine)
                           ∧ get_own instance "instanceId" = VStr id).
Proof.
  apply (listings_agree_with_lookups starts_with_scheme two_instances_engine).
  apply two_instances_engine_reachable.
Defined.

(** ** Instances without overrides *)

Lemma resolved_plain t inst :
  truthy (get_own inst "customizedChallenge") = false →
  truthy (get_own inst "customizedParticipants") = false →
  truthy (get_own inst "customizedEnvironment") = false →
  truthy (get_own inst "customizedDialogue") = false →
  resolved t inst = json_value t.
Proof. intros Hc Hp He Hd. unfold resolved. by rewrite Hc, Hp, He, Hd. Qed.

Lemma json_value_renderable t : is_ChallengeTemplate t = true → renderable (json_value t).
Proof.
  intros Htyped.
  rewrite <-(resolved_plain t (new_instance VUndef VUndef VUndef VUndef VUndef VUndef))
    by done.
  by apply (resolved_renderable t _ (VObj []) VUndef VUndef).
Qed.

(** X20. On an engine that well-typed calls produced, the script of a stored
    instance none of whose four overrides is set (each is absent or falsy) is
    the script of the JSON copy of its template: what [createVideoScript]
    returns for the copy. *)
Theorem plain_instance_renders_template (URL_parses : string → bool)
    (e : TemplateEngine) (id : string) (instance : value) :
  reachable URL_parses e →
  assoc id (instances e) = Some instance →
  truthy (get_own instance "customizedChallenge") = false →
  truthy (get_own instance "customizedParticipants") = false →
  truthy (get_own instance "customizedEnvironment") = false →
  truthy (get_own instance "customizedDialogue") = false →
  ∃ templateId template script,
    get_own instance "templateId" = VStr templateId
    ∧ assoc templateId (templates e) = Some template
    ∧ createVideoScript (json_value template) = Ok script
    ∧ run (generateScript (VStr id)) e = (Ok script, e).
Proof.
  intros Hreach Hassoc Hc Hp He Hd.
  destruct (generateScript_stored _ _ _ _ Hreach Hassoc) as (tid & t & Htid & Ht & Htyped & ->).
  exists tid, t. eexists. split; [done|]. split; [done|].
  rewrite (resolved_plain t instance) by done.
  split; [|done]. by apply createVideoScript_renderable, json_value_renderable.
Qed.

Lemma plain_engine_reachable : reachable starts_with_scheme plain_engine.
Proof. apply reachable_call; [apply fixture_engine_reachable|reflexivity]. Qed.

Lemma plain_instance_renders_template_witness :
  ∃ templateId template script,
    get_own (map_get (instances plain_engine) (VStr (generateInstanceId first_entropy)))
      "templateId" = VStr templateId
    ∧ assoc templateId (templates plain_engine) = Some template
    ∧ createVideoScript (json_value template) = Ok script
    ∧ run (generateScript (VStr (generateInstanceId first_entropy))) plain_engine
      = (Ok script, plain_engine).
Proof.
  apply (plain_instance_renders_template starts_with_scheme plain_engine
           (generateInstanceId first_entropy));
    [apply plain_engine_reachable|reflexivity..].
Defined.

(** ** Instance ids *)

Lemma pretty_N_go_free x s : free_of "_" s = true → free_of "_" (pretty_N_go x s) = true.
Proof.
  revert s. induction (N.lt_wf_0 x) as [x _ IH]; intros s Hs.
  assert (x = 0 ∨ 0 < x)%N as [->|Hpos] by lia.
  - by rewrite pretty_N_go_0.
  - rewrite pretty_N_go_step by done. apply IH; [by apply N.div_lt|].
    cbn [free_of]. rewrite Hs, andb_true_r.
    unfold pretty_N_char. by repeat case_match.
Qed.

Lemma pretty_Z_free (z : Z) : free_of "_" (pretty z) = true.
Proof.
  assert (∀ p : positive, free_of "_" (pretty p) = true) as Hpos.
  { intros p. unfold pretty, pretty_positive, pretty, pretty_N.
    rewrite decide_False by done. by apply pretty_N_go_free. }
  destruct z as [|p|p]; [done|apply Hpos|].
  unfold pretty, pretty_Z. cbn [free_of String.append]. apply Hpos.
Qed.

(** A text is split at its first underscore in one way only. *)
Lemma split_at_underscore a b s t :
  free_of "_" a = true → free_of "_" b = true →
  a +:+ String "_" s = b +:+ String "_" t → a = b ∧ s = t.
Proof.
  revert b. induction a as [|x a IH]; intros [|y b]; cbn; intros Ha Hb Heq.
  - by injection Heq as ->.
  - injection Heq as <- _. by rewrite Ascii.eqb_refl in Hb.
  - injection Heq as -> _. by rewrite Ascii.eqb_refl in Ha.
  - injection Heq as -> Heq.
    apply andb_prop in Ha as [_ Ha]. apply andb_prop in Hb as [_ Hb].
    destruct (IH b Ha Hb Heq) as [-> ->]. done.
Qed.

(** X21. Two generated instance ids are the same text exactly when the
    clock gave the same time for both and the texts of the two random
    numbers agree in the (at most nine) characters after the first two: the
    id tells the time and those characters apart. *)
Theorem generateInstanceId_collision (en1 en2 : entropy) :
  generateInstanceId en1 = generateInstanceId en2
  ↔ now en1 = now en2 ∧ substr 2 9 (random36 en1) = substr 2 9 (random36 en2).
Proof.
  unfold generateInstanceId. split.
  - intros Heq. cbn in Heq. injection Heq as Heq.
    apply split_at_underscore in Heq as [Hnow Hrandom]; [|apply pretty_Z_free..].
    split; [by apply (inj pretty)|done].
  - by intros [-> ->].
Qed.

